(** * Football-analytics-ml-V2: the feature-engineering pipeline

    A shallow embedding of the batch scripts under [src/]:

    - [clean_lineups.py]                 (Entity Normalizer),
    - [build_features.py]                (Match Aggregator),
    - [build_prematch_features.py] and
      [build_prematch_features_full.py]  (Form Engine),
    - [add_opponent_features.py] and the self-merge of
      [build_prematch_features_full.py]  (Opponent Differencer),
    - the helpers [to_int] and [make_match_id] of [scrape_canadawest.py],
      the labelling of the stat cells in [scrape_boxscore.py],
      [drop_duplicates.py] and [merge_player_features.py],
    - the script [main] of [clean_lineups.py],
    - the player swap of [app.py], with the feature list of
      [train_model.py].

    Conventions of the embedding.

    - Text is a [string] of 8-bit characters; the case mappings and the
      character classes of the regular expressions are those of the ASCII
      letters.
    - A pandas cell that may be missing is an [option]: [None] is NaN.
    - pandas computes on binary floating point; the embedding computes on
      exact rationals ([Qc], canonical fractions with Leibniz equality).
      The proportions of the Match Aggregator are stated in float64 as
      well: there the rounding is a parameter ([FloatShares.rounds]) and
      the sum has a tolerance.
    - [Frame.get_column] reads a table whose column labels are distinct;
      with a repeated label [df[name]] is a table and not a column, a case
      outside the embedding.
    - A Python exception is a value [Raise e] of the error monad [except]. *)

From Stdlib Require Import Ascii String QArith Qcanon Lqa Qround.
From stdpp Require Import base option list numbers strings gmap fin_maps sorting
  pretty.

(** ** Exceptions *)

Inductive exn : Type :=
  | KeyError (key : string)
  | IndexError
  | ValueError (msg : string)
  | TypeError (msg : string).

Inductive except (A : Type) : Type :=
  | Ok (a : A)
  | Raise (e : exn).
Arguments Ok {A} a.
Arguments Raise {A} e.

Definition except_bind {A B} (m : except A) (k : A → except B) : except B :=
  match m with
  | Ok a => k a
  | Raise e => Raise e
  end.

Notation "x ←! m ; k" := (except_bind m (λ x, k))
  (at level 20, m at level 100, k at level 200, right associativity,
   format "x  ←!  m ;  '/' k").

(** ** Text primitives of the Python runtime *)

Module Text.

Definition code (c : ascii) : N := N_of_ascii c.

Definition is_upper (c : ascii) : bool := (65 <=? code c)%N && (code c <=? 90)%N.
Definition is_lower (c : ascii) : bool := (97 <=? code c)%N && (code c <=? 122)%N.
Definition is_alpha (c : ascii) : bool := is_upper c || is_lower c.

(** [str.isspace] on the characters below 256. *)
Definition is_space (c : ascii) : bool :=
  ((9 <=? code c)%N && (code c <=? 13)%N)
  || ((28 <=? code c)%N && (code c <=? 32)%N)
  || (code c =? 133)%N || (code c =? 160)%N.

Definition lower_char (c : ascii) : ascii :=
  if is_upper c then ascii_of_N (code c + 32) else c.
Definition upper_char (c : ascii) : ascii :=
  if is_lower c then ascii_of_N (code c - 32) else c.

Fixpoint map (f : ascii → ascii) (s : string) : string :=
  match s with
  | EmptyString => EmptyString
  | String c s' => String (f c) (map f s')
  end.

Fixpoint filter (f : ascii → bool) (s : string) : string :=
  match s with
  | EmptyString => EmptyString
  | String c s' => if f c then String c (filter f s') else filter f s'
  end.

(** [s.lower()] and [s.upper()]. *)
Definition lower : string → string := map lower_char.
Definition upper : string → string := map upper_char.

Fixpoint lstrip (s : string) : string :=
  match s with
  | EmptyString => EmptyString
  | String c s' => if is_space c then lstrip s' else s
  end.

Fixpoint rstrip (s : string) : string :=
  match s with
  | EmptyString => EmptyString
  | String c s' =>
      match rstrip s' with
      | EmptyString => if is_space c then EmptyString else String c EmptyString
      | t => String c t
      end
  end.

(** [s.strip()]. *)
Definition strip (s : string) : string := rstrip (lstrip s).

(** [s.replace(c, "")] for a one-character pattern. *)
Definition remove_char (c : ascii) (s : string) : string :=
  filter (λ d, negb (Ascii.eqb d c)) s.

(** [s.split(sep)] for a one-character separator: never empty. *)
Fixpoint split (sep : ascii) (s : string) : list string :=
  match s with
  | EmptyString => [EmptyString]
  | String c s' =>
      if Ascii.eqb c sep then EmptyString :: split sep s'
      else match split sep s' with
           | [] => [String c EmptyString]
           | t :: ts => String c t :: ts
           end
  end.

(** [needle in hay]. *)
Fixpoint contains (needle hay : string) : bool :=
  String.prefix needle hay
  || match hay with
     | EmptyString => false
     | String _ hay' => contains needle hay'
     end.

(** Truth value of a string: non-empty. *)
Definition truthy (s : string) : bool :=
  match s with EmptyString => false | _ => true end.

End Text.

(** ** Entity Normalizer: [clean_lineups.py] *)

Module CleanLineups.

(** A cell of the scraped table: text, or missing ([None], NaN). *)
Definition isna (y : option string) : bool :=
  match y with None => true | Some _ => false end.

(** [str(y)]: the text itself, and ["nan"] for a missing cell. *)
Definition str (y : option string) : string := default "nan" y.

Definition mapping_text : gmap string string :=
  list_to_map
    [ ("fr", "1st"); ("frosh", "1st"); ("freshman", "1st");
      ("so", "2nd"); ("sophomore", "2nd");
      ("jr", "3rd"); ("junior", "3rd");
      ("sr", "4th"); ("senior", "4th");
      ("1", "1st"); ("1st", "1st"); ("first", "1st");
      ("2", "2nd"); ("2nd", "2nd"); ("second", "2nd");
      ("3", "3rd"); ("3rd", "3rd"); ("third", "3rd");
      ("4", "4th"); ("4th", "4th"); ("fourth", "4th");
      ("5", "5th"); ("5th", "5th"); ("fifth", "5th") ].

Definition mapping_num : gmap string Z :=
  list_to_map
    [ ("1st", 1%Z); ("2nd", 2%Z); ("3rd", 3%Z); ("4th", 4%Z); ("5th", 5%Z);
      ("UNK", 0%Z) ].

(** [d[k]]: raises [KeyError] on an absent key. *)
Definition getitem {V} (d : gmap string V) (k : string) : except V :=
  match d !! k with
  | Some v => Ok v
  | None => Raise (KeyError k)
  end.

(** [l[0]]: raises [IndexError] on an empty list. *)
Definition first {A} (l : list A) : except A :=
  match l with
  | x :: _ => Ok x
  | [] => Raise IndexError
  end.

Definition normalize_year (y : option string) : except (Z * string) :=
  if isna y || negb (Text.truthy (Text.strip (str y))) then Ok (0%Z, "UNK")
  else
    let y := Text.remove_char "." (Text.lower (Text.strip (str y))) in
    let year_std := default "UNK" (mapping_text !! y) in
    n ←! getitem mapping_num year_std;
    Ok (n, year_std).

Definition GK_KEYS : list string := ["GK"; "GOAL"].
Definition DEF_KEYS : list string :=
  ["CB"; "D"; "LB"; "RB"; "DEF"; "FB"; "WB"; "BACK"; "CD"].
Definition MID_KEYS : list string :=
  ["CM"; "M"; "CDM"; "LMF"; "RMF"; "MF"; "MID"; "CAM"; "AMF"].
Definition FOR_KEYS : list string := ["ST"; "F"; "CF"; "FW"; "F"; "W"].

(** [any(x in main_pos for x in keys)]. *)
Definition any_in (keys : list string) (main_pos : string) : bool :=
  existsb (λ x, Text.contains x main_pos) keys.

(** [re.sub(r"[^a-zA-Z/]", "", s)]. *)
Definition keep_letters_slash (s : string) : string :=
  Text.filter (λ c, Text.is_alpha c || Ascii.eqb c "/") s.

Definition normalize_position (p : option string) : except (string * string) :=
  if isna p || negb (Text.truthy (Text.strip (str p))) then Ok ("UNK", "UNK")
  else
    let p := keep_letters_slash (Text.upper (str p)) in
    main_pos ←! first (Text.split "/" p);
    if any_in GK_KEYS main_pos then Ok (main_pos, "GK")
    else if any_in DEF_KEYS main_pos then Ok (main_pos, "DEF")
    else if any_in MID_KEYS main_pos then Ok (main_pos, "MID")
    else if any_in FOR_KEYS main_pos then Ok (main_pos, "FOR")
    else Ok (main_pos, "UNK").

(** The fixed codomains. *)
Definition YEAR_CLASSES : list (Z * string) :=
  [ (1%Z, "1st"); (2%Z, "2nd"); (3%Z, "3rd"); (4%Z, "4th"); (5%Z, "5th");
    (0%Z, "UNK") ].
Definition POSITION_GROUPS : list string := ["GK"; "DEF"; "MID"; "FOR"; "UNK"].

(** The cleaned key that [normalize_year] looks up in [mapping_text]. *)
Definition year_key (y : option string) : string :=
  Text.remove_char "." (Text.lower (Text.strip (str y))).

(** The primary token that [normalize_position] classifies. *)
Definition primary_token (p : option string) : except string :=
  first (Text.split "/" (keep_letters_slash (Text.upper (str p)))).

Definition unmatched_position (main_pos : string) : Prop :=
  any_in GK_KEYS main_pos = false ∧ any_in DEF_KEYS main_pos = false ∧
  any_in MID_KEYS main_pos = false ∧ any_in FOR_KEYS main_pos = false.

End CleanLineups.

(** ** pandas primitives on columns *)

Module Pandas.

Local Open Scope Qc_scope.

Definition Qc_of_Z (n : Z) : Qc := Q2Qc (inject_Z n).
Definition Qc_of_nat (n : nat) : Qc := Qc_of_Z (Z.of_nat n).

(** A cell of a table read from CSV: missing, a number, or text. *)
Inductive cell : Type :=
  | NaN
  | Num (q : Qc)
  | Str (s : string).

Global Instance cell_eq_dec : EqDecision cell.
Proof. solve_decision. Defined.

(** The non-missing observations of a numeric column. *)
Definition present (x : list (option Qc)) : list Qc := omap id x.

Definition total (v : list Qc) : Qc := foldr Qcplus 0 v.

(** [x.mean()]: missing values are skipped; NaN when nothing is left. *)
Definition mean (x : list (option Qc)) : option Qc :=
  match present x with
  | [] => None
  | v => Some (total v / Qc_of_nat (length v))
  end.

(** [x.shift(1)]. *)
Definition shift1 {A} (x : list (option A)) : list (option A) :=
  take (length x) (None :: x).

(** [x.rolling(window=w, min_periods=1).mean()]: at index [i] the mean of
    the observations at indices [i-w+1 .. i]. *)
Definition rolling_mean (w : nat) (x : list (option Qc)) : list (option Qc) :=
  imap (λ i _, mean (drop (S i - w) (take (S i) x))) x.

(** [x.fillna(v)]; [v] itself may be NaN. *)
Definition fillna_cell (v c : option Qc) : option Qc :=
  match c with
  | Some _ => c
  | None => v
  end.
Definition fillna (v : option Qc) (x : list (option Qc)) : list (option Qc) :=
  fillna_cell v <$> x.

(** The up-to-[w] values just before index [i]. *)
Definition window {A} (w i : nat) (x : list A) : list A :=
  drop (i - w) (take i x).

(** The last [n] elements of a list. *)
Definition last_n {A} (n : nat) (l : list A) : list A :=
  drop (length l - n) l.

Section groupby.
Context {K : Type} `{EqDecision K}.

(** The values of the rows with key [k], in table order. *)
Definition group (keys : list K) (col : list (option Qc)) (k : K)
  : list (option Qc) :=
  (filter (λ kv, kv.1 = k) (zip keys col)).*2.

(** How many rows with key [k] come before position [p]. *)
Definition rank (keys : list K) (p : nat) (k : K) : nat :=
  length (filter (λ k', k' = k) (take p keys)).

(** [df.groupby(keys)[col].transform(f)]: [f] runs on each group's
    values and its results go back to the rows of the group. *)
Definition groupby_transform (keys : list K)
    (f : list (option Qc) → list (option Qc)) (col : list (option Qc))
  : list (option Qc) :=
  imap (λ p k, mjoin (f (group keys col k) !! rank keys p k)) keys.
End groupby.

Section sorting.
Context {A : Type} (le : A → A → bool).

Fixpoint insert_sorted (x : A) (l : list A) : list A :=
  match l with
  | [] => [x]
  | y :: l' => if le x y then x :: l else y :: insert_sorted x l'
  end.

(** A stable sort: of two rows with equal keys the one that comes
    first in the input stays first. *)
Definition stable_sort (l : list A) : list A := foldr insert_sorted [] l.
End sorting.

(** Lexicographic order on the key columns. *)
Definition lex (c1 c2 : comparison) : comparison :=
  match c1 with Eq => c2 | _ => c1 end.
Definition not_Gt (c : comparison) : bool :=
  match c with Gt => false | _ => true end.

(** The order [<=] of a three-way comparison. *)
Definition le_of {A} (cmp : A → A → comparison) (a b : A) : bool :=
  not_Gt (cmp a b).

(** The laws of a three-way comparison of keys; [Eq] says that the keys
    are the same. *)
Record cmp_laws {A} (cmp : A → A → comparison) : Prop := mk_cmp_laws {
  cmp_refl : ∀ x, cmp x x = Eq;
  cmp_antisym : ∀ x y, cmp y x = CompOpp (cmp x y);
  cmp_Eq_l : ∀ x y z, cmp x y = Eq → cmp y z = cmp x z;
  cmp_Lt_trans : ∀ x y z, cmp x y = Lt → cmp y z = Lt → cmp x z = Lt
}.

(** [df.merge(df2, on=key)] (inner): every left row with every right row
    of the same key, in the order of the left rows. *)
Definition merge_on {A B K} `{EqDecision K} (kl : A → K) (kr : B → K)
    (left : list A) (right : list B) : list (A * B) :=
  l ← left; (λ r, (l, r)) <$> filter (λ r, kr r = kl l) right.

(** Arithmetic on float cells: NaN propagates. *)
Definition sub (a b : option Qc) : option Qc :=
  match a, b with
  | Some x, Some y => Some (x - y)
  | _, _ => None
  end.
Definition neg (a : option Qc) : option Qc := Qcopp <$> a.

End Pandas.

(** ** The enriched team-match table: [data/features_enriched.csv] *)

Module Features.
Export Pandas.

(** The columns of [stats_cols]. *)
Inductive stat : Type := Shots | Sog | Assists | PlayerCount | AvgPlayerYear.

Definition stats_cols : list stat :=
  [Shots; Sog; Assists; PlayerCount; AvgPlayerYear].

(** One row per (match, team); only the columns that the scripts below
    read or write are kept. [date] is the column after [astype(str)]. *)
Record Row : Type := mkRow {
  match_id : string;
  season : string;
  team : string;
  date : string;
  home_team : string;
  away_team : string;
  is_home : option Qc;
  result : cell;
  goals : option Qc;
  shots : option Qc;
  sog : option Qc;
  assists : option Qc;
  player_count : option Qc;
  avg_player_year : option Qc;
  for_ : option Qc;
  mid : option Qc;
  G_mean : option Qc;
  SH_mean : option Qc;
  SOG_mean : option Qc;
  A_mean : option Qc
}.

(** [df[col]] for [col] in [stats_cols]. *)
Definition get (c : stat) (r : Row) : option Qc :=
  match c with
  | Shots => shots r
  | Sog => sog r
  | Assists => assists r
  | PlayerCount => player_count r
  | AvgPlayerYear => avg_player_year r
  end.

End Features.

(** ** Form Engine: [build_prematch_features.py] and
       [build_prematch_features_full.py] *)

Module FormEngine.
Export Features.
Local Open Scope Qc_scope.

(** [df.sort_values(["season", "team", "date"])]. *)
Definition key_cmp (a b : Row) : comparison :=
  lex (String.compare (season a) (season b))
    (lex (String.compare (team a) (team b))
         (String.compare (date a) (date b))).
Definition key_le (a b : Row) : bool := le_of key_cmp a b.

Definition sort_values (df : list Row) : list Row := stable_sort key_le df.

Definition season_team (r : Row) : string * string := (season r, team r).

(** [lambda x: x.shift(1).rolling(window=w, min_periods=1).mean()]. *)
Definition prior_mean (w : nat) (x : list (option Qc)) : list (option Qc) :=
  rolling_mean w (shift1 x).

(** [df.groupby(["season", "team"])[col].transform(...)], window 3. *)
Definition rolling3_raw (df : list Row) (c : stat) : list (option Qc) :=
  groupby_transform (season_team <$> df) (prior_mean 3) (get c <$> df).

Definition to_numeric_result (r : cell) : Qc :=
  if decide (r = Str "win") then 1
  else if decide (r = Str "loss") then 0
  else Q2Qc (1 # 2).

Definition numeric_result_col (df : list Row) : list (option Qc) :=
  (λ r, Some (to_numeric_result (result r))) <$> df.

Definition win_rate_rolling5_raw (df : list Row) : list (option Qc) :=
  groupby_transform (season_team <$> df) (prior_mean 5) (numeric_result_col df).

(** [df.groupby("team")[col].transform(lambda x: x.fillna(x.mean()))]. *)
Definition fill_team_mean (df : list Row) (col : list (option Qc))
  : list (option Qc) :=
  groupby_transform (team <$> df) (λ x, fillna (mean x) x) col.

(** One column of [df.fillna(df.mean(numeric_only=True))]. *)
Definition fill_global_mean (col : list (option Qc)) : list (option Qc) :=
  fillna (mean col) col.

(** The two imputation steps on one rolling column. *)
Definition impute (df : list Row) (col : list (option Qc)) : list (option Qc) :=
  fill_global_mean (fill_team_mean df col).

(** The final [f"{col}_rolling3"] and [win_rate_rolling5] columns of the
    sorted table [df]. *)
Definition rolling3_col (df : list Row) (c : stat) : list (option Qc) :=
  impute df (rolling3_raw df c).
Definition win_rate_rolling5_col (df : list Row) : list (option Qc) :=
  impute df (win_rate_rolling5_raw df).

(** The global fill also reaches the numeric input columns. *)
Definition fill_inputs (df : list Row) (r : Row) : Row :=
  let fill (f : Row → option Qc) := fillna_cell (mean (f <$> df)) (f r) in
  {| match_id := match_id r; season := season r; team := team r;
     date := date r; home_team := home_team r; away_team := away_team r;
     is_home := fill is_home; result := result r;
     goals := fill goals; shots := fill shots; sog := fill sog;
     assists := fill assists; player_count := fill player_count;
     avg_player_year := fill avg_player_year;
     for_ := fill for_; mid := fill mid;
     G_mean := fill G_mean; SH_mean := fill SH_mean;
     SOG_mean := fill SOG_mean; A_mean := fill A_mean |}.

(** A row of the table with the form columns added. *)
Record FormRow : Type := mkFormRow {
  base : Row;
  shots_rolling3 : option Qc;
  sog_rolling3 : option Qc;
  assists_rolling3 : option Qc;
  player_count_rolling3 : option Qc;
  avg_player_year_rolling3 : option Qc;
  numeric_result : option Qc;
  win_rate_rolling5 : option Qc
}.

(** [df[f"{col}_rolling3"]]. *)
Definition rolling3 (c : stat) (r : FormRow) : option Qc :=
  match c with
  | Shots => shots_rolling3 r
  | Sog => sog_rolling3 r
  | Assists => assists_rolling3 r
  | PlayerCount => player_count_rolling3 r
  | AvgPlayerYear => avg_player_year_rolling3 r
  end.

(** The value of a column at row [p]. *)
Definition at_row (col : list (option Qc)) (p : nat) : option Qc :=
  mjoin (col !! p).

(** [build_prematch_features_full.py], steps 1 to 4. *)
Definition form_features_full (df : list Row) : list FormRow :=
  let df := sort_values df in
  imap (λ p r,
    {| base := fill_inputs df r;
       shots_rolling3 := at_row (rolling3_col df Shots) p;
       sog_rolling3 := at_row (rolling3_col df Sog) p;
       assists_rolling3 := at_row (rolling3_col df Assists) p;
       player_count_rolling3 := at_row (rolling3_col df PlayerCount) p;
       avg_player_year_rolling3 := at_row (rolling3_col df AvgPlayerYear) p;
       numeric_result :=
         at_row (fill_global_mean (numeric_result_col df)) p;
       win_rate_rolling5 := at_row (win_rate_rolling5_col df) p |}) df.

(** [build_prematch_features.py]: the same rolling columns, no win rate. *)
Record PrematchRow : Type := mkPrematchRow {
  pm_base : Row;
  pm_shots_rolling3 : option Qc;
  pm_sog_rolling3 : option Qc;
  pm_assists_rolling3 : option Qc;
  pm_player_count_rolling3 : option Qc;
  pm_avg_player_year_rolling3 : option Qc
}.

Definition pm_rolling3 (c : stat) (r : PrematchRow) : option Qc :=
  match c with
  | Shots => pm_shots_rolling3 r
  | Sog => pm_sog_rolling3 r
  | Assists => pm_assists_rolling3 r
  | PlayerCount => pm_player_count_rolling3 r
  | AvgPlayerYear => pm_avg_player_year_rolling3 r
  end.

Definition build_prematch_features (df : list Row) : list PrematchRow :=
  let df := sort_values df in
  imap (λ p r,
    {| pm_base := fill_inputs df r;
       pm_shots_rolling3 := at_row (rolling3_col df Shots) p;
       pm_sog_rolling3 := at_row (rolling3_col df Sog) p;
       pm_assists_rolling3 := at_row (rolling3_col df Assists) p;
       pm_player_count_rolling3 := at_row (rolling3_col df PlayerCount) p;
       pm_avg_player_year_rolling3 :=
         at_row (rolling3_col df AvgPlayerYear) p |}) df.

(** *** Vocabulary of the statements *)

(** The rows of the (season, team) group of [r] that come before
    position [p] of the date-ordered table. *)
Definition prior_rows (df : list Row) (p : nat) (r : Row) : list Row :=
  filter (λ r', season_team r' = season_team r) (take p df).

(** The same row with another value in column [c]. *)
Definition set_stat (c : stat) (v : option Qc) (r : Row) : Row :=
  {| match_id := match_id r; season := season r; team := team r;
     date := date r; home_team := home_team r; away_team := away_team r;
     is_home := is_home r; result := result r; goals := goals r;
     shots := if c is Shots then v else shots r;
     sog := if c is Sog then v else sog r;
     assists := if c is Assists then v else assists r;
     player_count := if c is PlayerCount then v else player_count r;
     avg_player_year := if c is AvgPlayerYear then v else avg_player_year r;
     for_ := for_ r; mid := mid r;
     G_mean := G_mean r; SH_mean := SH_mean r;
     SOG_mean := SOG_mean r; A_mean := A_mean r |}.




(** The up-to-3 rows of the group of [r] just before position [p]. *)
Definition window3 (df : list Row) (p : nat) (r : Row) : list Row :=
  last_n 3 (prior_rows df p r).

End FormEngine.

(** ** Opponent Differencer: [add_opponent_features.py] and step 5 of
       [build_prematch_features_full.py] *)

Module OpponentDiff.
Export FormEngine.

(** [df.merge(df, on="match_id", suffixes=("", "_opp"))] followed by
    [merged[merged["team"] != merged["team_opp"]]]: the pairs (own row,
    opponent row). *)
Definition opponent_pairs {A} (mid tm : A → string) (df : list A)
  : list (A * A) :=
  filter (λ pr, tm pr.1 ≠ tm pr.2) (merge_on mid mid df df).

(** A row of [data/features_opponent.csv]: the kept columns of the own
    row and the opponent-relative columns. *)
Record OpponentRow : Type := mkOpponentRow {
  own : Row;
  goal_diff : option Qc;
  shot_diff : option Qc;
  sog_diff : option Qc;
  assist_diff : option Qc;
  G_mean_diff : option Qc;
  SH_mean_diff : option Qc;
  SOG_mean_diff : option Qc;
  A_mean_diff : option Qc
}.

Definition add_opponent_features (df : list Row) : list OpponentRow :=
  (λ pr, let r := pr.1 in let o := pr.2 in
     {| own := r;
        goal_diff := sub (goals r) (goals o);
        shot_diff := sub (shots r) (shots o);
        sog_diff := sub (sog r) (sog o);
        assist_diff := sub (assists r) (assists o);
        G_mean_diff := sub (G_mean r) (G_mean o);
        SH_mean_diff := sub (SH_mean r) (SH_mean o);
        SOG_mean_diff := sub (SOG_mean r) (SOG_mean o);
        A_mean_diff := sub (A_mean r) (A_mean o) |})
  <$> opponent_pairs match_id team df.

(** The diff columns of [features_opponent.csv]. *)
Inductive diff_col : Type :=
  | GoalDiff | ShotDiff | SogDiff | AssistDiff
  | GMeanDiff | SHMeanDiff | SOGMeanDiff | AMeanDiff.

Definition diff (c : diff_col) (r : OpponentRow) : option Qc :=
  match c with
  | GoalDiff => goal_diff r
  | ShotDiff => shot_diff r
  | SogDiff => sog_diff r
  | AssistDiff => assist_diff r
  | GMeanDiff => G_mean_diff r
  | SHMeanDiff => SH_mean_diff r
  | SOGMeanDiff => SOG_mean_diff r
  | AMeanDiff => A_mean_diff r
  end.

(** A row of [data/features_prematch_full.csv]. *)
Record PrematchFullRow : Type := mkPrematchFullRow {
  form : FormRow;
  shots_form_diff : option Qc;
  sog_form_diff : option Qc;
  assists_form_diff : option Qc;
  player_count_form_diff : option Qc;
  avg_player_year_form_diff : option Qc;
  win_rate_diff : option Qc
}.

Definition form_match_id (r : FormRow) : string := match_id (base r).
Definition form_team (r : FormRow) : string := team (base r).

(** [build_prematch_features_full.py], steps 1 to 6. *)
Definition build_prematch_features_full (df : list Row)
  : list PrematchFullRow :=
  (λ pr, let r := pr.1 in let o := pr.2 in
     {| form := r;
        shots_form_diff := sub (shots_rolling3 r) (shots_rolling3 o);
        sog_form_diff := sub (sog_rolling3 r) (sog_rolling3 o);
        assists_form_diff := sub (assists_rolling3 r) (assists_rolling3 o);
        player_count_form_diff :=
          sub (player_count_rolling3 r) (player_count_rolling3 o);
        avg_player_year_form_diff :=
          sub (avg_player_year_rolling3 r) (avg_player_year_rolling3 o);
        win_rate_diff := sub (win_rate_rolling5 r) (win_rate_rolling5 o) |})
  <$> opponent_pairs form_match_id form_team (form_features_full df).

(** [merged[f"{col}_form_diff"]]. *)
Definition form_diff (c : stat) (r : PrematchFullRow) : option Qc :=
  match c with
  | Shots => shots_form_diff r
  | Sog => sog_form_diff r
  | Assists => assists_form_diff r
  | PlayerCount => player_count_form_diff r
  | AvgPlayerYear => avg_player_year_form_diff r
  end.

(** *** Vocabulary of the statements *)

(** The rows of match [m] in each table. *)
Definition of_match (m : string) (df : list Row) : list Row :=
  filter (λ r, match_id r = m) df.
Definition form_of_match (m : string) (df : list FormRow) : list FormRow :=
  filter (λ r, form_match_id r = m) df.
Definition opponent_rows_of_match (m : string) (out : list OpponentRow)
  : list OpponentRow :=
  filter (λ r, match_id (own r) = m) out.
Definition full_rows_of_match (m : string) (out : list PrematchFullRow)
  : list PrematchFullRow :=
  filter (λ r, form_match_id (form r) = m) out.

(** Every row of a match with every row of the match that has another
    team: what the self-merge and its filter keep of one match. *)
Definition pairings {A} (tm : A → string) (g : list A) : list (A * A) :=
  a ← g; (λ b, (a, b)) <$> filter (λ b, tm a ≠ tm b) g.

End OpponentDiff.

(** ** Tables with named, typed columns *)

Module Frame.
Export Pandas.

(** A column is numeric (float with NaN) or text (object: str or NaN). *)
Inductive column : Type :=
  | NumCol (v : list (option Qc))
  | TextCol (v : list (option string)).

(** A table as pandas holds it: its columns, by name, in order. *)
Definition DataFrame : Type := list (string * column).

Definition column_length (c : column) : nat :=
  match c with
  | NumCol v => length v
  | TextCol v => length v
  end.

(** [len(df)]. *)
Definition nrows (df : DataFrame) : nat :=
  match df with
  | [] => 0
  | (_, c) :: _ => column_length c
  end.

(** [df.columns]. *)
Definition names (df : DataFrame) : list string := df.*1.

(** [col in df.columns]. *)
Definition has_column (name : string) (df : DataFrame) : bool :=
  bool_decide (name ∈ names df).

(** [df[name]] on a table whose labels are distinct.  With a repeated
    label pandas returns a table in place of the column; that case is
    outside the embedding, and the statement on when [clean_lineups.py]
    runs to its end assumes [NoDup] of the normalized labels. *)
Fixpoint get_column (name : string) (df : DataFrame) : option column :=
  match df with
  | [] => None
  | (n, c) :: df' => if decide (n = name) then Some c else get_column name df'
  end.

(** [df[name] = c]: replaces the column, or appends a new one. *)
Fixpoint set_column (name : string) (c : column) (df : DataFrame) : DataFrame :=
  match df with
  | [] => [(name, c)]
  | (n, c') :: df' =>
      if decide (n = name) then (n, c) :: df'
      else (n, c') :: set_column name c df'
  end.

(** [df.columns = [f(c) for c in df.columns]]. *)
Definition map_names (f : string → string) (df : DataFrame) : DataFrame :=
  prod_map f id <$> df.

(** [df[name]] as a text column; [KeyError] when absent.  The key
    columns of the scraped tables are text; on a numeric key column the
    merges of the script stop on the dtype mismatch. *)
Definition text_column (name : string) (df : DataFrame)
  : except (list (option string)) :=
  match get_column name df with
  | None => Raise (KeyError name)
  | Some (TextCol v) => Ok v
  | Some (NumCol _) => Raise (ValueError name)
  end.

(** [df[name]] as a numeric column, for the columns on which the script
    computes. *)
Definition num_column (name : string) (df : DataFrame)
  : except (list (option Qc)) :=
  match get_column name df with
  | None => Raise (KeyError name)
  | Some (NumCol v) => Ok v
  | Some (TextCol _) => Raise (TypeError name)
  end.

(** [str(x)] of a text cell: NaN prints as "nan". *)
Definition str (x : option string) : string := default "nan" x.

(** [df[col].astype(str).str.strip().str.lower()] on every text column. *)
Definition clean_text (x : option string) : option string :=
  Some (Text.lower (Text.strip (str x))).
Definition clean_text_columns (df : DataFrame) : DataFrame :=
  prod_map id (λ c, match c with
                    | TextCol v => TextCol (clean_text <$> v)
                    | NumCol v => NumCol v
                    end) <$> df.

(** [[c.strip().lower() for c in df.columns]]. *)
Definition normalize_names (df : DataFrame) : DataFrame :=
  map_names (λ c, Text.lower (Text.strip c)) df.

End Frame.

(** ** Match Aggregator: [build_features.py] *)

Module BuildFeatures.
Export Frame.
Local Open Scope Qc_scope.

(** *** The typed rows of the three inputs *)

(** A player row of the boxscore after steps 1 to 4. *)
Record BoxRow : Type := mkBoxRow {
  b_match_id : string;
  b_team : string;
  b_player : string;
  b_goals : Qc;
  b_shots : Qc;
  b_sog : Qc;
  b_assists : Qc
}.

(** The columns of the lineups that step 6 reads. *)
Record LineupRow : Type := mkLineupRow {
  l_player : string;
  l_team : string;
  l_position_group : string;
  l_year_num : option Qc
}.

(** A fixture; the goal columns are [None] when the table has none. *)
Record MatchRow : Type := mkMatchRow {
  m_match_id : string;
  m_home_team : string;
  m_away_team : string;
  m_home_goals : option cell;
  m_away_goals : option cell
}.

Definition rename_map : gmap string string :=
  list_to_map [("a", "assists"); ("sh", "shots"); ("sog", "sog"); ("g", "goals")].

(** [box.rename(columns=rename_map)]. *)
Definition rename (name : string) : string := default name (rename_map !! name).

Definition STAT_COLUMNS : list string := ["shots"; "sog"; "goals"; "assists"].

Section script.
(** [pd.to_numeric(..., errors="coerce")] on a text cell: the number the
    text denotes, NaN when it denotes none. *)
Variable parse_number : string → option Qc.
(** [astype(str)] on a number. *)
Variable format_number : Qc → string.

(** Steps 1 to 3 on the boxscore, steps 1 and 3 on the other tables. *)
Definition prepare_box (box : DataFrame) : DataFrame :=
  clean_text_columns (map_names rename (normalize_names box)).
Definition prepare (df : DataFrame) : DataFrame :=
  clean_text_columns (normalize_names df).

Definition to_numeric (c : column) : list (option Qc) :=
  match c with
  | NumCol v => v
  | TextCol v => (λ x, x ≫= parse_number) <$> v
  end.

(** Step 4, for one column: coerce it when it is there, else create it
    with the value 0. *)
Definition ensure_numeric (col : string) (box : DataFrame) : DataFrame :=
  match get_column col box with
  | Some c => set_column col (NumCol (fillna (Some 0) (to_numeric c))) box
  | None => set_column col (NumCol (replicate (nrows box) (Some 0))) box
  end.

Definition ensure_numeric_columns (box : DataFrame) : DataFrame :=
  foldl (λ b col, ensure_numeric col b) box STAT_COLUMNS.

(** The values that step 4 leaves in a statistic column. *)
Definition ensured (col : string) (box : DataFrame) : list (option Qc) :=
  match get_column col box with
  | Some c => fillna (Some 0) (to_numeric c)
  | None => replicate (nrows box) (Some 0)
  end.

(** The value of a column at a row. *)
Definition text_at (v : list (option string)) (i : nat) : string :=
  str (mjoin (v !! i)).
Definition num_at (v : list (option Qc)) (i : nat) : Qc :=
  default 0 (mjoin (v !! i)).

(** The rows of a prepared boxscore, read by column name. *)
Definition typed_box_rows (box : DataFrame) : except (list BoxRow) :=
  mid ←! text_column "match_id" box;
  tm ←! text_column "team" box;
  pl ←! text_column "player" box;
  g ←! num_column "goals" box;
  sh ←! num_column "shots" box;
  so ←! num_column "sog" box;
  a ←! num_column "assists" box;
  Ok ((λ i, {| b_match_id := text_at mid i; b_team := text_at tm i;
               b_player := text_at pl i; b_goals := num_at g i;
               b_shots := num_at sh i; b_sog := num_at so i;
               b_assists := num_at a i |}) <$> seq 0 (nrows box)).

Definition box_rows (box : DataFrame) : except (list BoxRow) :=
  typed_box_rows (ensure_numeric_columns (prepare_box box)).

(** Step 6 reads the lineups only when both roster columns exist; with
    the empty [roster_final] the merge of step 7 raises.  The position
    group is a text column and the year a numeric one, as
    [clean_lineups.py] writes them. *)
Definition lineup_rows (lineups : DataFrame) : except (list LineupRow) :=
  let lineups := prepare lineups in
  if has_column "position_group" lineups && has_column "year_num" lineups
  then
    pl ←! text_column "player" lineups;
    tm ←! text_column "team" lineups;
    pg ←! text_column "position_group" lineups;
    yn ←! num_column "year_num" lineups;
    Ok ((λ i, {| l_player := text_at pl i; l_team := text_at tm i;
                 l_position_group := text_at pg i;
                 l_year_num := mjoin (yn !! i) |}) <$> seq 0 (nrows lineups))
  else Raise (KeyError "match_id").

(** [matches[col].astype(str).str.lower()]. *)
Definition key_text (name : string) (df : DataFrame) : except (list string) :=
  match get_column name df with
  | None => Raise (KeyError name)
  | Some (TextCol v) => Ok ((λ x, Text.lower (str x)) <$> v)
  | Some (NumCol v) =>
      Ok ((λ x, Text.lower (from_option format_number "nan" x)) <$> v)
  end.

Definition cells (c : column) : list cell :=
  match c with
  | NumCol v => from_option Num NaN <$> v
  | TextCol v => from_option Str NaN <$> v
  end.

Definition match_rows (matches : DataFrame) : except (list MatchRow) :=
  let matches := prepare matches in
  mid ←! key_text "match_id" matches;
  home ←! key_text "home_team" matches;
  away ←! key_text "away_team" matches;
  let hg := cells <$> get_column "home_goals" matches in
  let ag := cells <$> get_column "away_goals" matches in
  Ok ((λ i, {| m_match_id := default "" (mid !! i);
               m_home_team := default "" (home !! i);
               m_away_team := default "" (away !! i);
               m_home_goals := (λ v, default NaN (v !! i)) <$> hg;
               m_away_goals := (λ v, default NaN (v !! i)) <$> ag |})
        <$> seq 0 (nrows matches)).
End script.

(** *** Step 5: team statistics *)

(** [groupby] lists its groups in the order of their keys. *)
Definition pair_le (a b : string * string) : bool :=
  not_Gt (lex (String.compare a.1 b.1) (String.compare a.2 b.2)).
Definition group_keys (keys : list (string * string)) : list (string * string) :=
  stable_sort pair_le (remove_dups keys).

Definition box_key (b : BoxRow) : string * string := (b_match_id b, b_team b).

Record TeamStats : Type := mkTeamStats {
  ts_match_id : string;
  ts_team : string;
  ts_goals : Qc;
  ts_shots : Qc;
  ts_sog : Qc;
  ts_assists : Qc;
  ts_player_count : nat
}.

(** The player rows of one (match, team). *)
Definition players_of (box : list BoxRow) (k : string * string) : list BoxRow :=
  filter (λ b, box_key b = k) box.

(** The aggregate of one group: sums, and the count of player rows. *)
Definition stats_of (box : list BoxRow) (k : string * string) : TeamStats :=
  let g := players_of box k in
  {| ts_match_id := k.1; ts_team := k.2;
     ts_goals := total (b_goals <$> g); ts_shots := total (b_shots <$> g);
     ts_sog := total (b_sog <$> g); ts_assists := total (b_assists <$> g);
     ts_player_count := length g |}.

Definition team_stats (box : list BoxRow) : list TeamStats :=
  stats_of box <$> group_keys (box_key <$> box).

(** *** Step 6: roster composition *)

(** A row of [box_lineup]: the lineup columns are NaN for a player that
    the lineups do not list. *)
Record BoxLineupRow : Type := mkBoxLineupRow {
  bl_box : BoxRow;
  bl_position_group : option string;
  bl_year_num : option Qc
}.

(** [box.merge(lineups[...], on=["player", "team"], how="left")]. *)
Definition merge_lineups (box : list BoxRow) (lineups : list LineupRow)
  : list BoxLineupRow :=
  b ← box;
  match filter (λ l, (l_player l, l_team l) = (b_player b, b_team b)) lineups with
  | [] => [ {| bl_box := b; bl_position_group := None; bl_year_num := None |} ]
  | ls => (λ l, {| bl_box := b;
                   bl_position_group := Some (l_position_group l);
                   bl_year_num := l_year_num l |}) <$> ls
  end.

(** [x.value_counts(normalize=True).to_dict()] on the present values. *)
Definition occurrences (g : string) (xs : list string) : nat :=
  length (filter (λ x, x = g) xs).
Definition value_counts_normalize (xs : list string) : gmap string Qc :=
  list_to_map
    ((λ g, (g, Qc_of_nat (occurrences g xs) / Qc_of_nat (length xs)))
       <$> remove_dups xs).

Record Roster : Type := mkRoster {
  r_match_id : string;
  r_team : string;
  r_year_num : option Qc;
  r_position_group : gmap string Qc
}.

Definition roster_key (r : Roster) : string * string := (r_match_id r, r_team r).

Definition bl_key (r : BoxLineupRow) : string * string := box_key (bl_box r).

(** The rows of [box_lineup] of one (match, team), and the position
    groups that the lineups give for them. *)
Definition roster_group (bl : list BoxLineupRow) (k : string * string)
  : list BoxLineupRow :=
  filter (λ r, bl_key r = k) bl.
Definition matched_positions (bl : list BoxLineupRow) (k : string * string)
  : list string :=
  omap bl_position_group (roster_group bl k).

Definition roster_of (bl : list BoxLineupRow) (k : string * string) : Roster :=
  {| r_match_id := k.1; r_team := k.2;
     r_year_num := mean (bl_year_num <$> roster_group bl k);
     r_position_group := value_counts_normalize (matched_positions bl k) |}.

Definition roster_summary (bl : list BoxLineupRow) : list Roster :=
  roster_of bl <$> group_keys (bl_key <$> bl).

(** *** Step 7: stats + roster + matches *)

(** A row of [features]; the roster is [None] when the left merge finds
    no roster row for the key (its columns are then NaN). *)
Record FeatureRow : Type := mkFeatureRow {
  f_stats : TeamStats;
  f_roster : option Roster
}.

Definition ts_key (t : TeamStats) : string * string := (ts_match_id t, ts_team t).
Definition feature_key (f : FeatureRow) : string * string := ts_key (f_stats f).

(** [team_stats.merge(roster_final, on=["match_id", "team"], how="left")]. *)
Definition features (stats : list TeamStats) (roster_final : list Roster)
  : list FeatureRow :=
  t ← stats;
  match filter (λ r, roster_key r = ts_key t) roster_final with
  | [] => [ {| f_stats := t; f_roster := None |} ]
  | rs => (λ r, {| f_stats := t; f_roster := Some r |}) <$> rs
  end.

(** A row of [combined] before step 8. *)
Record Combined : Type := mkCombined {
  c_features : FeatureRow;
  c_fixture : MatchRow;
  c_is_home : Z
}.

Definition combined (fs : list FeatureRow) (matches : list MatchRow)
  : list Combined :=
  let home :=
    merge_on feature_key (λ m, (m_match_id m, m_home_team m)) fs matches in
  let away :=
    merge_on feature_key (λ m, (m_match_id m, m_away_team m)) fs matches in
  ((λ pr, {| c_features := pr.1; c_fixture := pr.2; c_is_home := 1 |}) <$> home)
  ++ ((λ pr, {| c_features := pr.1; c_fixture := pr.2; c_is_home := 0 |}) <$> away).

(** *** Step 8: the result *)

(** [x > y] on two cells: false when a float NaN is involved, by text
    order on two texts, [TypeError] on a number against a text. *)
Definition cell_gt (x y : cell) : except bool :=
  match x, y with
  | Num a, Num b => Ok (bool_decide (b < a))
  | Str s, Str t => Ok (String.ltb t s)
  | Str _, _ | _, Str _ => Raise (TypeError ">")
  | _, _ => Ok false
  end.

Definition result (row : Combined) : except cell :=
  match m_home_goals (c_fixture row), m_away_goals (c_fixture row) with
  | Some home_goals, Some away_goals =>
      if decide (c_is_home row = 1%Z) then
        gt ←! cell_gt home_goals away_goals;
        if gt : bool then Ok (Str "win")
        else lt ←! cell_gt away_goals home_goals;
             if lt : bool then Ok (Str "loss") else Ok (Str "draw")
      else
        gt ←! cell_gt away_goals home_goals;
        if gt : bool then Ok (Str "win")
        else lt ←! cell_gt home_goals away_goals;
             if lt : bool then Ok (Str "loss") else Ok (Str "draw")
  | _, _ => Ok NaN
  end.

(** A row of [data/features_train.csv]. *)
Record TeamMatchRow : Type := mkTeamMatchRow {
  row : Combined;
  row_result : cell
}.

(** [combined.apply(result, axis=1)]: the first exception stops the run. *)
Fixpoint apply_result (rows : list Combined) : except (list TeamMatchRow) :=
  match rows with
  | [] => Ok []
  | r :: rows' =>
      v ←! result r;
      out ←! apply_result rows';
      Ok ({| row := r; row_result := v |} :: out)
  end.

(** Steps 5 to 8 on the typed rows. *)
Definition aggregate (box : list BoxRow) (lineups : list LineupRow)
    (matches : list MatchRow) : except (list TeamMatchRow) :=
  let roster_final := roster_summary (merge_lineups box lineups) in
  apply_result (combined (features (team_stats box) roster_final) matches).

(** The whole script. *)
Definition build_features (parse_number : string → option Qc)
    (format_number : Qc → string) (matches box lineups : DataFrame)
  : except (list TeamMatchRow) :=
  box ←! box_rows parse_number box;
  lineups ←! lineup_rows lineups;
  matches ←! match_rows format_number matches;
  aggregate box lineups matches.

(** *** The columns of an output row *)

Definition row_match_id (r : TeamMatchRow) : string :=
  ts_match_id (f_stats (c_features (row r))).
Definition row_team (r : TeamMatchRow) : string :=
  ts_team (f_stats (c_features (row r))).
Definition row_is_home (r : TeamMatchRow) : Z := c_is_home (row r).

(** The summed statistic of a row, by column name. *)
Definition row_stat (col : string) (r : TeamMatchRow) : option Qc :=
  let t := f_stats (c_features (row r)) in
  if decide (col = "shots") then Some (ts_shots t)
  else if decide (col = "sog") then Some (ts_sog t)
  else if decide (col = "goals") then Some (ts_goals t)
  else if decide (col = "assists") then Some (ts_assists t)
  else None.

(** The statistic of a player row, by column name. *)
Definition box_stat (col : string) (b : BoxRow) : option Qc :=
  if decide (col = "shots") then Some (b_shots b)
  else if decide (col = "sog") then Some (b_sog b)
  else if decide (col = "goals") then Some (b_goals b)
  else if decide (col = "assists") then Some (b_assists b)
  else None.

(** The proportion column of position group [g]: the dictionary entry of
    the row, 0 where the row's dictionary has none ([fillna(0)]), NaN if
    no roster row was merged. *)
Definition position_share (g : string) (r : TeamMatchRow) : option Qc :=
  (λ ro, default 0 (r_position_group ro !! g)) <$> f_roster (c_features (row r)).

Definition row_avg_player_year (r : TeamMatchRow) : option Qc :=
  f_roster (c_features (row r)) ≫= r_year_num.

(** The sum of the proportions of a row over all the groups of its
    dictionary, that is over all its position-group columns. *)
Definition dict_total (d : gmap string Qc) : Qc := total (map_to_list d).*2.
Definition position_shares_total (r : TeamMatchRow) : option Qc :=
  (λ ro, dict_total (r_position_group ro)) <$> f_roster (c_features (row r)).

Definition row_key (r : TeamMatchRow) : string * string :=
  (row_match_id r, row_team r).

(** The position groups as the cleaned lineups spell them (step 3 puts
    every text column in lower case). *)
Definition GROUP_COLUMNS : list string :=
  Text.lower <$> CleanLineups.POSITION_GROUPS.

(** *** Vocabulary of the statements *)

(** The features row of a key: its aggregate and its roster. *)
Definition feature_of (brs : list BoxRow) (bl : list BoxLineupRow)
    (k : string * string) : FeatureRow :=
  {| f_stats := stats_of brs k; f_roster := Some (roster_of bl k) |}.

(** The (team, is_home) side of a row of the combined table. *)
Definition side_of (c : Combined) : string * Z :=
  (ts_team (f_stats (c_features c)), c_is_home c).

(** The rows of match [m] in the output, as (team, is_home). *)
Definition sides_of_match (m : string) (out : list TeamMatchRow)
  : list (string * Z) :=
  (λ r, (row_team r, row_is_home r)) <$> filter (λ r, row_match_id r = m) out.

(** A participant is resolvable when the boxscore has player rows of the
    match under the team name of the fixture. *)
Definition resolvable (box : list BoxRow) (m team : string) : bool :=
  bool_decide ((m, team) ∈ box_key <$> box).

(** The input with an explicit column of zeros. *)
Definition with_zero_column (col : string) (box : DataFrame) : DataFrame :=
  box ++ [(col, NumCol (replicate (nrows box) (Some 0)))].

End BuildFeatures.

(** ** Concrete tables for the scenarios of the specification *)

Module Scenarios.
Import Features FormEngine OpponentDiff.

(** A row of the enriched table with the columns of interest set. *)
Definition team_match (m s t d : string) (sh ay : option Z) (res : cell) : Row :=
  {| match_id := m; season := s; team := t; date := d;
     home_team := t; away_team := "opponent";
     is_home := Some (Qc_of_Z 1); result := res;
     goals := Some (Qc_of_Z 0); shots := Qc_of_Z <$> sh;
     sog := Some (Qc_of_Z 0); assists := Some (Qc_of_Z 0);
     player_count := Some (Qc_of_Z 11); avg_player_year := Qc_of_Z <$> ay;
     for_ := Some (Qc_of_Z 0); mid := Some (Qc_of_Z 0);
     G_mean := Some (Qc_of_Z 0); SH_mean := Some (Qc_of_Z 0);
     SOG_mean := Some (Qc_of_Z 0); A_mean := Some (Qc_of_Z 0) |}.

(** Team "ubc": three prior matches with shots 10, 14, 8 and a fourth
    match with [x] shots, listed first in the file. *)
Definition ubc_fourth (x : Z) : Row :=
  team_match "m4" "2023" "ubc" "2023-09-22" (Some x) (Some 2%Z) (Str "win").
Definition ubc_third : Row :=
  team_match "m3" "2023" "ubc" "2023-09-15" (Some 8%Z) (Some 2%Z) (Str "draw").
Definition ubc (x : Z) : list Row :=
  [ ubc_fourth x;
    team_match "m1" "2023" "ubc" "2023-09-01" (Some 10%Z) (Some 2%Z) (Str "win");
    team_match "m2" "2023" "ubc" "2023-09-08" (Some 14%Z) (Some 2%Z) (Str "loss");
    ubc_third ].

(** A team whose first match has no roster match in the lineups (its
    [avg_player_year] is missing); the second match has value [x]. *)
Definition unmatched_roster_second (x : Z) : Row :=
  team_match "n2" "2023" "uvic" "2023-09-08" (Some 5%Z) (Some x) (Str "win").
Definition unmatched_roster (x : Z) : list Row :=
  [ team_match "n1" "2023" "uvic" "2023-09-01" (Some 5%Z) None (Str "win");
    unmatched_roster_second x;
    team_match "n3" "2023" "uvic" "2023-09-15" (Some 5%Z) (Some 7%Z) (Str "win") ].

(** A season of three matches; the second one has [x] shots. *)
Definition opener : Row :=
  team_match "o1" "2023" "ufv" "2023-09-01" (Some 10%Z) (Some 2%Z) (Str "win").
Definition season_of_three (x : Z) : list Row :=
  [ opener;
    team_match "o2" "2023" "ufv" "2023-09-08" (Some x) (Some 2%Z) (Str "loss");
    team_match "o3" "2023" "ufv" "2023-09-15" (Some 6%Z) (Some 2%Z) (Str "draw") ].

(** Match "M": team A with 12 shots against team B with 9. *)
Definition match_M : list Row :=
  [ team_match "M" "2023" "team-a" "2023-09-01" (Some 12%Z) (Some 2%Z) (Str "win");
    team_match "M" "2023" "team-b" "2023-09-01" (Some 9%Z) (Some 3%Z) (Str "loss") ].


(** *** Inputs of the Match Aggregator *)

Import BuildFeatures.

(** A stand-in for the number parser of [pd.to_numeric] that reads the
    unsigned decimal integers, which is all these tables contain. *)
Fixpoint digits (acc : Z) (s : string) : option Z :=
  match s with
  | EmptyString => Some acc
  | String c s' =>
      let n := Z.of_N (Text.code c) in
      if (48 <=? n)%Z && (n <=? 57)%Z then digits (10 * acc + (n - 48)) s'
      else None
  end.
Definition parse_number (s : string) : option Qc :=
  match s with
  | EmptyString => None
  | _ => Qc_of_Z <$> digits 0 s
  end.
(** No table below has a numeric key column, so the format is not used. *)
Definition format_number (q : Qc) : string := "".

Definition num (n : Z) : option Qc := Some (Qc_of_Z n).

(** One fixture, "ubc" at home against "uvic". *)
Definition fixtures : DataFrame :=
  [ ("match_id", TextCol [Some "M1"]);
    ("home_team", TextCol [Some "UBC"]);
    ("away_team", TextCol [Some "UVic"]);
    ("home_goals", NumCol [num 2]);
    ("away_goals", NumCol [num 1]) ].

(** A boxscore with both teams of the fixture, two players each. *)
Definition boxscore : DataFrame :=
  [ ("match_id", TextCol [Some "M1"; Some "M1"; Some "M1"; Some "M1"]);
    ("team", TextCol [Some "UBC"; Some "UBC"; Some "UVic"; Some "UVic"]);
    ("player", TextCol [Some "Ann"; Some "Bea"; Some "Cyd"; Some "Dee"]);
    ("SH", NumCol [num 3; num 2; num 1; num 4]);
    ("SOG", NumCol [num 1; num 1; num 0; num 2]);
    ("G", NumCol [num 1; num 1; num 0; num 1]);
    ("A", TextCol [Some "1"; Some "-"; Some "0"; None]) ].

(** The same boxscore with the away team under another spelling: the
    away participant cannot be resolved against the fixture. *)
Definition boxscore_one_sided : DataFrame :=
  [ ("match_id", TextCol [Some "M1"; Some "M1"; Some "M1"; Some "M1"]);
    ("team", TextCol [Some "UBC"; Some "UBC"; Some "Victoria"; Some "Victoria"]);
    ("player", TextCol [Some "Ann"; Some "Bea"; Some "Cyd"; Some "Dee"]);
    ("SH", NumCol [num 3; num 2; num 1; num 4]);
    ("SOG", NumCol [num 1; num 1; num 0; num 2]);
    ("G", NumCol [num 1; num 1; num 0; num 1]);
    ("A", NumCol [num 1; num 0; num 0; num 0]) ].

(** The same boxscore without any shots column. *)
Definition boxscore_without_shots : DataFrame :=
  [ ("match_id", TextCol [Some "M1"; Some "M1"; Some "M1"; Some "M1"]);
    ("team", TextCol [Some "UBC"; Some "UBC"; Some "UVic"; Some "UVic"]);
    ("player", TextCol [Some "Ann"; Some "Bea"; Some "Cyd"; Some "Dee"]);
    ("SOG", NumCol [num 1; num 1; num 0; num 2]);
    ("G", NumCol [num 1; num 1; num 0; num 1]);
    ("A", NumCol [num 1; num 0; num 0; num 0]) ].

(** Lineups that list the players of "ubc" only. *)
Definition lineups_home_only : DataFrame :=
  [ ("player", TextCol [Some "Ann"; Some "Bea"]);
    ("team", TextCol [Some "UBC"; Some "UBC"]);
    ("position_group", TextCol [Some "GK"; Some "MID"]);
    ("year_num", NumCol [num 1; num 4]) ].

End Scenarios.

(** ** More text primitives of the Python runtime *)

Module TextOps.
Import Text.

Definition is_digit (c : ascii) : bool := (48 <=? code c)%N && (code c <=? 57)%N.
Definition digit_value (c : ascii) : N := (code c - 48)%N.

(** [all(f(c) for c in s)]. *)
Fixpoint all (f : ascii → bool) (s : string) : bool :=
  match s with
  | EmptyString => true
  | String c s' => f c && all f s'
  end.

(** [s.isdigit()], on ASCII text. *)
Definition isdigit (s : string) : bool := truthy s && all is_digit s.

Definition first_char (s : string) : option ascii :=
  match s with
  | EmptyString => None
  | String c _ => Some c
  end.
Fixpoint last_char (s : string) : option ascii :=
  match s with
  | EmptyString => None
  | String c EmptyString => Some c
  | String _ s' => last_char s'
  end.

(** [s.strip(d)] for a one-character set. *)
Fixpoint lstrip_char (d : ascii) (s : string) : string :=
  match s with
  | EmptyString => EmptyString
  | String c s' => if Ascii.eqb c d then lstrip_char d s' else s
  end.
Fixpoint rstrip_char (d : ascii) (s : string) : string :=
  match s with
  | EmptyString => EmptyString
  | String c s' =>
      match rstrip_char d s' with
      | EmptyString => if Ascii.eqb c d then EmptyString else String c EmptyString
      | t => String c t
      end
  end.
Definition strip_char (d : ascii) (s : string) : string :=
  rstrip_char d (lstrip_char d s).

(** [s.replace(a, b)] for one-character texts. *)
Definition replace_char (a b : ascii) (s : string) : string :=
  map (λ c, if Ascii.eqb c a then b else c) s.

(** [s.split()]: the maximal runs of characters that are not white space. *)
Fixpoint split_whitespace (s : string) : list string :=
  match s with
  | EmptyString => []
  | String c s' =>
      if is_space c then split_whitespace s'
      else match first_char s', split_whitespace s' with
           | Some d, w :: ws =>
               if is_space d then String c EmptyString :: w :: ws
               else String c w :: ws
           | _, _ => [String c EmptyString]
           end
  end.

(** [sep.join(l)]. *)
Fixpoint join (sep : string) (l : list string) : string :=
  match l with
  | [] => EmptyString
  | [w] => w
  | w :: ws => w +:+ sep +:+ join sep ws
  end.

(** The interpreter refuses to convert integer text of more digits. *)
Definition MAX_STR_DIGITS : nat := 4300.

(** The digits of the text of an integer: groups of digits, single
    underscores between them. *)
Fixpoint int_digits (after_digit : bool) (acc : N) (s : string) : option N :=
  match s with
  | EmptyString => if after_digit then Some acc else None
  | String c s' =>
      if is_digit c then int_digits true (10 * acc + digit_value c) s'
      else if Ascii.eqb c "_" && after_digit then int_digits false acc s'
      else None
  end.

(** [int(t)] in base 10, on ASCII text: white space around, a sign, the
    digits; [ValueError] otherwise. *)
Definition int (t : string) : except Z :=
  let t := strip t in
  let '(negative, body) :=
    match t with
    | String c b =>
        if Ascii.eqb c "-" then (true, b)
        else if Ascii.eqb c "+" then (false, b)
        else (false, t)
    | EmptyString => (false, t)
    end in
  if (MAX_STR_DIGITS <? String.length (filter is_digit body))%nat
  then Raise (ValueError "int")
  else match int_digits false 0 body with
       | Some n => Ok (if negative : bool then (- Z.of_N n)%Z else Z.of_N n)
       | None => Raise (ValueError "int")
       end.

End TextOps.

(** ** The schedule scraper: [scrape_canadawest.py] *)

Module ScrapeCanadaWest.
Import Text TextOps.

(** [re.sub(r"[^\d-]", "", s)]. *)
Definition keep_digits_dash (s : string) : string :=
  filter (λ c, is_digit c || Ascii.eqb c "-") s.

Definition to_int (s : option string) : option Z :=
  match s with
  | None => None
  | Some s =>
      let s := strip s in
      if bool_decide (s = "") || bool_decide (lower s ∈ ["na"; "n/a"; "-"])
      then None
      else match int (keep_digits_dash s) with
           | Ok n => Some n
           | Raise _ => None
           end
  end.

(** A character that [[a-z0-9]] matches. *)
Definition is_slug_char (c : ascii) : bool := is_lower c || is_digit c.

(** [re.sub(r"[^a-z0-9]+", "-", s)]: every maximal run of other
    characters becomes one dash; [in_run] says that the run of the
    previous character has been replaced already. *)
Fixpoint sub_runs (in_run : bool) (s : string) : string :=
  match s with
  | EmptyString => EmptyString
  | String c s' =>
      if is_slug_char c then String c (sub_runs false s')
      else if in_run then sub_runs true s'
      else String "-" (sub_runs true s')
  end.

Definition slug (x : string) : string :=
  strip_char "-" (sub_runs false (lower x)).

Definition make_match_id (season date home away : string) : string :=
  slug season +:+ "__" +:+ slug date +:+ "__" +:+ slug home +:+ "__"
    +:+ slug away.

(** *** Vocabulary of the statements *)

(** The number that a text of digits denotes, after the digits [acc]. *)
Fixpoint decimal (acc : N) (s : string) : N :=
  match s with
  | EmptyString => acc
  | String c s' => decimal (10 * acc + digit_value c) s'
  end.

(** The characters of a slug, and no dash next to a dash. *)
Fixpoint dashed (after_dash : bool) (s : string) : bool :=
  match s with
  | EmptyString => true
  | String c s' =>
      if Ascii.eqb c "-" then negb after_dash && dashed true s'
      else is_slug_char c && dashed false s'
  end.

End ScrapeCanadaWest.

(** ** The boxscore scraper: [scrape_boxscore.py] *)

Module ScrapeBoxscore.

(** The fields of [match_info], as text. *)
Record MatchInfo : Type := mkMatchInfo {
  mi_season : string;
  mi_match_id : string;
  mi_date : string;
  mi_home_team : string;
  mi_away_team : string
}.

(** [team_labels]: the first player table is the home team's, the
    second one the away team's. *)
Definition team_labels (match_info : MatchInfo) : list (string * string) :=
  [ (mi_home_team match_info, "home"); (mi_away_team match_info, "away") ].

(** [[h.text.strip().upper() for h in header_cells if h.text.strip()]],
    on the texts of the header cells. *)
Definition headers_of (header_cells : list string) : list string :=
  (λ h, Text.upper (Text.strip h))
    <$> filter (λ h, Text.truthy (Text.strip h) = true) header_cells.

(** The key under which the cell at position [i] is stored. *)
Definition stat_key (headers : list string) (i : nat) : string :=
  match headers !! i with
  | Some h => h
  | None => "STAT_" +:+ pretty (i + 1)
  end.

(** The loop over [enumerate(tds)]. *)
Definition label_stats (headers tds : list string)
    (player_data : gmap string string) : gmap string string :=
  foldl (λ d it, <[stat_key headers it.1 := it.2]> d) player_data
    (imap pair tds).

(** The record of one player row: the identifying fields, then the
    cells of the row under the headers of the table. *)
Definition player_data (match_info : MatchInfo) (team_name side : string)
    (player_name number position : string) (headers tds : list string)
  : gmap string string :=
  label_stats headers tds
    (list_to_map
       [ ("season", mi_season match_info);
         ("match_id", mi_match_id match_info);
         ("date", mi_date match_info);
         ("home_team", mi_home_team match_info);
         ("away_team", mi_away_team match_info);
         ("team", team_name);
         ("team_side", side);
         ("player", player_name);
         ("number", number);
         ("position", position) ]).

End ScrapeBoxscore.

(** ** Realigning the boxscore columns: [drop_duplicates.py] *)

Module DropDuplicates.
Import Pandas.

(** A table by rows, under its column labels. *)
Record Table : Type := mkTable {
  columns : list string;
  rows : list (list cell)
}.

Definition rename_map : gmap string string :=
  list_to_map [("G", "A"); ("PLAYER", "SH"); ("SH", "SOG"); ("SOG", "G")].

(** [df.rename(columns=rename_map)], on one label. *)
Definition rename (name : string) : string := default name (rename_map !! name).

(** [df.drop_duplicates()]: a row goes when an equal row came before it;
    missing cells are equal to each other. *)
Fixpoint drop_seen {A} `{EqDecision A} (seen l : list A) : list A :=
  match l with
  | [] => []
  | x :: l' =>
      if decide (x ∈ seen) then drop_seen seen l'
      else x :: drop_seen (x :: seen) l'
  end.
Definition drop_duplicates {A} `{EqDecision A} (l : list A) : list A :=
  drop_seen [] l.

(** The script, from the table read to the table written. *)
Definition main (df : Table) : Table :=
  {| columns := rename <$> columns df;
     rows := drop_duplicates (rows df) |}.

(** *** Vocabulary of the statements *)

(** The cells of a scraped record under the labels that the rename
    gives them. *)
Definition renamed (record : gmap string string) : list (string * string) :=
  prod_map rename id <$> map_to_list record.

End DropDuplicates.

(** ** Player summaries per match: [merge_player_features.py] *)

Module MergePlayerFeatures.
Import Pandas.
Local Open Scope Qc_scope.

(** A row of a table with the two key columns and the other columns. *)
Record Keyed (A : Type) : Type := mkKeyed {
  k_match_id : option string;
  k_team : option string;
  k_data : A
}.
Arguments mkKeyed {A} _ _ _.
Arguments k_match_id {A} _.
Arguments k_team {A} _.
Arguments k_data {A} _.

(** [df["team"].str.lower().str.strip().str.replace(" ", "-")]; a
    missing cell stays missing. *)
Definition normalize_team (t : option string) : option string :=
  (λ s, TextOps.replace_char " " "-" (Text.strip (Text.lower s))) <$> t.

(** [df["match_id"].str.lower().str.strip()]. *)
Definition normalize_match_id (m : option string) : option string :=
  (λ s, Text.strip (Text.lower s)) <$> m.

Definition normalize_keys {A} (r : Keyed A) : Keyed A :=
  {| k_match_id := normalize_match_id (k_match_id r);
     k_team := normalize_team (k_team r);
     k_data := k_data r |}.

(** The columns of a player row that the script reads (the columns of
    [drop_duplicates.py], numeric). *)
Record PlayerStats : Type := mkPlayerStats {
  p_player : option string;
  p_G : option Qc;
  p_SH : option Qc;
  p_SOG : option Qc;
  p_A : option Qc
}.

(** The aggregates of one (match, team). *)
Record Agg : Type := mkAgg {
  a_match_id : string;
  a_team : string;
  G_sum : Qc;
  G_mean : option Qc;
  G_max : option Qc;
  SH_sum : Qc;
  SH_mean : option Qc;
  SOG_sum : Qc;
  SOG_mean : option Qc;
  A_sum : Qc;
  A_mean : option Qc;
  player_count_match : nat
}.

(** The key of a row, when neither key cell is missing: [groupby] leaves
    out the rows with a missing key. *)
Definition key_of {A} (r : Keyed A) : option (string * string) :=
  m ← k_match_id r; t ← k_team r; Some (m, t).

(** The rows of the group of a key. *)
Definition group_of (players : list (Keyed PlayerStats)) (k : string * string)
  : list PlayerStats :=
  k_data <$> filter (λ r, key_of r = Some k) players.

(** ["sum"]: missing values are skipped, and the sum of nothing is 0. *)
Definition agg_sum (x : list (option Qc)) : Qc := total (present x).

(** ["max"]: missing values are skipped; NaN when nothing is left. *)
Definition Qc_max (a b : Qc) : Qc := if bool_decide (a ≤ b) then b else a.
Definition agg_max (x : list (option Qc)) : option Qc :=
  match present x with
  | [] => None
  | v :: vs => Some (foldr Qc_max v vs)
  end.

(** ["count"]: the number of cells that are not missing. *)
Definition agg_count {A} (x : list (option A)) : nat := length (omap id x).

Definition agg_of (players : list (Keyed PlayerStats)) (k : string * string)
  : Agg :=
  let g := group_of players k in
  {| a_match_id := k.1; a_team := k.2;
     G_sum := agg_sum (p_G <$> g); G_mean := mean (p_G <$> g);
     G_max := agg_max (p_G <$> g);
     SH_sum := agg_sum (p_SH <$> g); SH_mean := mean (p_SH <$> g);
     SOG_sum := agg_sum (p_SOG <$> g); SOG_mean := mean (p_SOG <$> g);
     A_sum := agg_sum (p_A <$> g); A_mean := mean (p_A <$> g);
     player_count_match := agg_count (p_player <$> g) |}.

(** [players.groupby(["match_id", "team"]).agg(...).reset_index()]: one
    row per key, in the order of the keys. *)
Definition agg (players : list (Keyed PlayerStats)) : list Agg :=
  agg_of players <$> BuildFeatures.group_keys (omap key_of players).

Definition agg_key (a : Agg) : string * string := (a_match_id a, a_team a).

(** [features.merge(agg, on=["match_id", "team"], how="left")]: the
    aggregate columns are missing ([None]) where no aggregate has the
    key of the row. *)
Definition merge_left {A} (features : list (Keyed A)) (agg : list Agg)
  : list (Keyed A * option Agg) :=
  f ← features;
  match filter (λ a, Some (agg_key a) = key_of f) agg with
  | [] => [(f, None)]
  | matches => (λ a, (f, Some a)) <$> matches
  end.

(** The script: both tables get their keys normalized, the players are
    aggregated and the aggregates are joined to the team rows. *)
Definition merged {A} (features : list (Keyed A))
    (players : list (Keyed PlayerStats)) : list (Keyed A * option Agg) :=
  merge_left (normalize_keys <$> features) (agg (normalize_keys <$> players)).

(** *** Vocabulary of the statements *)

(** The aggregate columns of a team row: those of its key when some
    player row has the key, missing otherwise. *)
Definition summary_of {A} (players : list (Keyed PlayerStats)) (f : Keyed A)
  : option Agg :=
  k ← key_of f;
  if bool_decide (k ∈ omap key_of players) then Some (agg_of players k)
  else None.

End MergePlayerFeatures.

(** ** The script of the Entity Normalizer: [clean_lineups.py], [main] *)

Module CleanLineupsScript.
Import Frame CleanLineups.
Local Open Scope Qc_scope.

Definition is_ascii (c : ascii) : bool := (Text.code c <? 128)%N.

(** [unicodedata.normalize("NFKD", s).encode("ascii", "ignore").decode()]:
    the normal form of ASCII text is the text itself, and the encoding
    drops what is not ASCII.  The statements are about ASCII text. *)
Definition ascii_ignore (s : string) : string := Text.filter is_ascii s.

(** [normalize_text], after [str(s)]. *)
Definition normalize_text (s : string) : string :=
  let s := Text.lower (Text.strip s) in
  let s := ascii_ignore s in
  TextOps.join " " (TextOps.split_whitespace s).

Section script.
(** [pd.to_numeric(..., errors="coerce")] on a text cell, and [str] on
    a number, as in the Match Aggregator. *)
Variable parse_number : string → option Qc.
Variable format_number : Qc → string.

(** The cells of a column as the functions applied to them see them:
    a text, or a missing value. *)
Definition cells_of (c : column) : list (option string) :=
  match c with
  | TextCol v => v
  | NumCol v => (λ x : option Qc, format_number <$> x) <$> v
  end.

(** [df[name]]. *)
Definition getitem_column (name : string) (df : DataFrame) : except column :=
  match get_column name df with
  | Some c => Ok c
  | None => Raise (KeyError name)
  end.

(** [df[col] = df[col].map(normalize_text)]. *)
Definition map_normalize_text (col : string) (df : DataFrame)
  : except DataFrame :=
  c ←! getitem_column col df;
  Ok (set_column col
        (TextCol ((λ x, Some (normalize_text (str x))) <$> cells_of c)) df).

(** [df[col].apply(f)]: the first exception stops the run. *)
Fixpoint apply {A B} (f : A → except B) (l : list A) : except (list B) :=
  match l with
  | [] => Ok []
  | x :: l' => y ←! f x; ys ←! apply f l'; Ok (y :: ys)
  end.

(** The two columns of [zip] on the unpacked [data], assigned to two
    targets: an empty [data] leaves nothing to unpack. *)
Definition unzip {A B} (data : list (A * B)) : except (list A * list B) :=
  match data with
  | [] => Raise (ValueError "not enough values to unpack")
  | _ => Ok (data.*1, data.*2)
  end.

Definition num_cols : list string :=
  ["gp"; "gs"; "goals"; "assists"; "points"].

(** [if c in df.columns: df[c] = pd.to_numeric(df[c], errors="coerce").fillna(0)]. *)
Definition to_numeric_if_present (c : string) (df : DataFrame) : DataFrame :=
  match get_column c df with
  | Some col =>
      set_column c
        (NumCol (fillna (Some 0) (BuildFeatures.to_numeric parse_number col)))
        df
  | None => df
  end.

(** The rows that [drop_duplicates(subset=..., keep="last")] keeps:
    those whose key does not come again further down. *)
Definition keep_last {K} `{EqDecision K} (keys : list K) : list bool :=
  imap (λ i k, bool_decide (k ∉ drop (S i) keys)) keys.

(** [l[mask]]. *)
Definition select {A} (mask : list bool) (l : list A) : list A :=
  (filter (λ p, p.1 = true) (zip mask l)).*2.

Definition select_column (mask : list bool) (c : column) : column :=
  match c with
  | NumCol v => NumCol (select mask v)
  | TextCol v => TextCol (select mask v)
  end.

Definition select_rows (mask : list bool) (df : DataFrame) : DataFrame :=
  prod_map id (select_column mask) <$> df.

(** The key of every row: the cells of the three key columns. *)
Definition zip3 {A} (a b c : list A) : list (A * A * A) := zip (zip a b) c.

Definition subset_keys (df : DataFrame)
  : except (list (option string * option string * option string)) :=
  s ←! getitem_column "season" df;
  t ←! getitem_column "team" df;
  p ←! getitem_column "player" df;
  Ok (zip3 (cells_of s) (cells_of t) (cells_of p)).

Definition drop_duplicates_last (df : DataFrame) : except DataFrame :=
  keys ←! subset_keys df;
  Ok (select_rows (keep_last keys) df).

(** The script up to the removal of the duplicates. *)
Definition prepared (df : DataFrame) : except DataFrame :=
  let df := normalize_names df in
  df ←! map_normalize_text "season" df;
  df ←! map_normalize_text "team" df;
  df ←! map_normalize_text "player" df;
  year ←! getitem_column "year" df;
  year_data ←! apply normalize_year (cells_of year);
  ys ←! unzip year_data;
  let df := set_column "year_num" (NumCol ((λ n, Some (Qc_of_Z n)) <$> ys.1)) df in
  let df := set_column "year_std" (TextCol (Some <$> ys.2)) df in
  position ←! getitem_column "position" df;
  pos_data ←! apply normalize_position (cells_of position);
  ps ←! unzip pos_data;
  let df := set_column "position_zone" (TextCol (Some <$> ps.1)) df in
  let df := set_column "position_group" (TextCol (Some <$> ps.2)) df in
  Ok (foldl (λ d c, to_numeric_if_present c d) df num_cols).

(** [main], from the table read to the table written. *)
Definition main (df : DataFrame) : except DataFrame :=
  df ←! prepared df;
  drop_duplicates_last df.

(** The cleaned cells of a key column, and the classes of the cells of
    the year and position columns. *)
Definition normalized (c : column) : list (option string) :=
  (λ x, Some (normalize_text (str x))) <$> cells_of c.
Definition year_data (c : column) : except (list (Z * string)) :=
  apply normalize_year (cells_of c).
Definition pos_data (c : column) : except (list (string * string)) :=
  apply normalize_position (cells_of c).
End script.

(** *** Vocabulary of the statements *)

(** Every column has as many cells as the table has rows. *)
Definition well_formed (df : DataFrame) : Prop :=
  Forall (λ nc, column_length nc.2 = nrows df) df.

(** The text of a column that holds text. *)
Definition texts (name : string) (df : DataFrame) : option (list (option string)) :=
  match get_column name df with
  | Some (TextCol v) => Some v
  | _ => None
  end.

(** The columns that [main] reads. *)
Definition REQUIRED : list string :=
  ["season"; "team"; "player"; "year"; "position"].

(** A word: not empty, no white space. *)
Definition is_word (w : string) : bool :=
  Text.truthy w && TextOps.all (λ c, negb (Text.is_space c)) w.

(** A scraped lineup table: the second and the third row are the same
    player of the same team and season, and the year of the first row is
    not in the synonym table. *)
Definition raw_lineups : DataFrame :=
  [ (" Season", TextCol [Some "2024-25"; Some "2024-25"; Some "2024-25"]);
    ("Team", TextCol [Some "UBC"; Some "UBC "; Some "ubc"]);
    ("Player", TextCol [Some "Bea  Roy"; Some "Ann Lee"; Some " ann   LEE"]);
    ("Year", TextCol [Some "Redshirt"; Some "Fr."; Some "So"]);
    ("Position", TextCol [Some "GK"; Some "CDM/CB"; None]);
    ("GP", TextCol [Some "3"; Some "-"; Some "12"]) ].

(** The same columns, and no row. *)
Definition empty_lineups : DataFrame :=
  [ ("season", TextCol []); ("team", TextCol []); ("player", TextCol []);
    ("year", TextCol []); ("position", TextCol []) ].

End CleanLineupsScript.

(** ** The feature list of the analytic model: [train_model.py] *)

Module TrainModel.

(** The columns on which the model is fitted; the fitted model reports
    them as its [feature_names_in_]. *)
Definition feature_cols : list string :=
  [ "shots"; "sog"; "assists";
    "player_count"; "avg_player_year"; "for"; "mid"; "is_home";
    "G_mean"; "SH_mean"; "SOG_mean"; "A_mean";
    "shot_diff"; "sog_diff"; "assist_diff";
    "G_mean_diff"; "SH_mean_diff"; "SOG_mean_diff"; "A_mean_diff" ].

End TrainModel.

(** ** Player swap simulation: [app.py] *)

Module App.
Import Pandas Frame.
Import MergePlayerFeatures.
Local Open Scope Qc_scope.

(** [base_stats = ["G", "SH", "SOG", "A"]]. *)
Inductive stat : Type := G | SH | SOG | A.

Global Instance stat_eq_dec : EqDecision stat.
Proof. solve_decision. Defined.

Definition base_stats : list stat := [G; SH; SOG; A].

Definition stat_name (s : stat) : string :=
  match s with
  | G => "G"
  | SH => "SH"
  | SOG => "SOG"
  | A => "A"
  end.

(** [mapping = {"G_mean": "G", "SH_mean": "SH", "SOG_mean": "SOG",
    "A_mean": "A"}], read from the statistic to the feature. *)
Definition mean_name (s : stat) : string :=
  match s with
  | G => "G_mean"
  | SH => "SH_mean"
  | SOG => "SOG_mean"
  | A => "A_mean"
  end.

(** The statistic of a player row, after [ensure_numeric]. *)
Definition stat_of (s : stat) (r : PlayerStats) : option Qc :=
  match s with
  | G => p_G r
  | SH => p_SH r
  | SOG => p_SOG r
  | A => p_A r
  end.

(** [df[base_stats].mean().fillna(0)], as a function of the statistic. *)
Definition means (rows : list PlayerStats) (s : stat) : Qc :=
  default 0 (mean (stat_of s <$> rows)).

(** [df["player"] == x]: a missing cell is equal to nothing, and nothing
    is equal to a missing [x]. *)
Definition is_player (x : option string) (r : PlayerStats) : Prop :=
  is_Some x ∧ p_player r = x.

Global Instance is_player_dec x r : Decision (is_player x r).
Proof. unfold is_player. apply _. Defined.

(** [pool.loc[pool["player"] == swap_in, base_stats].mean().fillna(0)]. *)
Definition incoming_stats (pool : list PlayerStats) (swap_in : option string)
  : stat → Qc :=
  means (filter (is_player swap_in) pool).

(** One row of [df.loc[mask, base_stats] = values]. *)
Definition put (values : stat → Qc) (r : PlayerStats) : PlayerStats :=
  {| p_player := p_player r;
     p_G := Some (values G); p_SH := Some (values SH);
     p_SOG := Some (values SOG); p_A := Some (values A) |}.

(** The lineup in which the rows of [swap_out] carry the incoming
    statistics. *)
Definition new_lineup (lineup pool : list PlayerStats)
    (swap_out swap_in : option string) : list PlayerStats :=
  (λ r, if decide (is_player swap_out r)
        then put (incoming_stats pool swap_in) r else r) <$> lineup.

Definition orig_means (lineup : list PlayerStats) : stat → Qc := means lineup.

Definition new_means (lineup pool : list PlayerStats)
    (swap_out swap_in : option string) : stat → Qc :=
  means (new_lineup lineup pool swap_out swap_in).

(** [df[name] = v] for a number [v]: the whole column gets the value. *)
Definition set_scalar (name : string) (v : Qc) (df : DataFrame) : DataFrame :=
  set_column name (NumCol (replicate (nrows df) (Some v))) df.

(** [for fcol, bcol in mapping.items(): enriched_row[fcol] =
    float(new_means[bcol])]. *)
Definition update_means (m : stat → Qc) (enriched_row : DataFrame) : DataFrame :=
  foldl (λ df s, set_scalar (mean_name s) (m s) df) enriched_row base_stats.

(** [for f in feat_order: if f not in enriched_row.columns:
    enriched_row[f] = 0.0]. *)
Definition ensure_features (feat_order : list string) (enriched_row : DataFrame)
  : DataFrame :=
  foldl (λ df f, if has_column f df then df else set_scalar f 0 df)
    enriched_row feat_order.

(** [df.assign] with the entries of [orig_means.to_dict()] as keyword
    arguments: the keys are the names of the base statistics. *)
Definition assign (m : stat → Qc) (df : DataFrame) : DataFrame :=
  foldl (λ df s, set_scalar (stat_name s) (m s) df) df base_stats.

(** [df[names]]: the listed columns, [KeyError] on an absent one. *)
Fixpoint getitem_columns (names : list string) (df : DataFrame)
  : except DataFrame :=
  match names with
  | [] => Ok []
  | n :: names' =>
      match get_column n df with
      | None => Raise (KeyError n)
      | Some c =>
          rest ←! getitem_columns names' df;
          Ok ((n, c) :: rest)
      end
  end.

(** The row of the team as the script leaves it before the prediction. *)
Definition simulated_row (new : stat → Qc) (feat_order : list string)
    (enriched_row : DataFrame) : DataFrame :=
  ensure_features feat_order (update_means new enriched_row).

(** The input of the "after" prediction. *)
Definition X_new (new : stat → Qc) (feat_order : list string)
    (enriched_row : DataFrame) : except DataFrame :=
  getitem_columns feat_order (simulated_row new feat_order enriched_row).

(** The input of the "before" prediction. *)
Definition X_old (orig new : stat → Qc) (feat_order : list string)
    (enriched_row : DataFrame) : except DataFrame :=
  getitem_columns feat_order
    (assign orig (simulated_row new feat_order enriched_row)).

(** *** Vocabulary and scenarios *)

(** The rows of the lineup that the swap replaces. *)
Definition swapped_out (lineup : list PlayerStats) (swap_out : option string)
  : list PlayerStats :=
  filter (is_player swap_out) lineup.

(** The sum of the present values of a statistic. *)
Definition sum_of (s : stat) (rows : list PlayerStats) : Qc :=
  total (present (stat_of s <$> rows)).

Definition player_row (p : string) (g sh sog a : Z) : PlayerStats :=
  {| p_player := Some p; p_G := Some (Qc_of_Z g); p_SH := Some (Qc_of_Z sh);
     p_SOG := Some (Qc_of_Z sog); p_A := Some (Qc_of_Z a) |}.

(** A lineup of three, and the other matches of the team. *)
Definition lineup_of_three : list PlayerStats :=
  [ player_row "ann" 1 3 2 0; player_row "bea" 0 1 0 1;
    player_row "cyd" 0 2 1 0 ].
Definition other_matches : list PlayerStats :=
  [ player_row "dee" 2 5 3 0; player_row "ann" 0 1 0 0;
    player_row "dee" 0 3 1 2 ].

(** The row of a team in the enriched table, with some of its columns. *)
Definition enriched_team_row : DataFrame :=
  [ ("match_id", TextCol [Some "m1"]); ("team", TextCol [Some "ubc"]);
    ("shots", NumCol [Some (Qc_of_Z 6)]); ("sog", NumCol [Some (Qc_of_Z 3)]);
    ("G_mean", NumCol [Some (Q2Qc (1 # 3))]);
    ("SH_mean", NumCol [Some (Qc_of_Z 2)]);
    ("SOG_mean", NumCol [Some (Qc_of_Z 1)]);
    ("A_mean", NumCol [Some (Q2Qc (1 # 3))]) ].

End App.

(** ** Vocabulary for the columns of the Form Engine *)

Module FormEngineTerms.
Import Pandas Features FormEngine.
Local Open Scope Qc_scope.

(** Every observation of the column lies between [lo] and [hi]. *)
Definition within (lo hi : Qc) (col : list (option Qc)) : Prop :=
  ∀ v, Some v ∈ col → lo ≤ v ∧ v ≤ hi.

(** Some row of the date-ordered table [s] has an observation of [c]
    among the up-to-3 rows of its group just before it. *)
Definition observed (s : list Row) (c : stat) : Prop :=
  ∃ p r, s !! p = Some r ∧ present (get c <$> window3 s p r) ≠ [].

(** Some row of [s] has a row of its group before it. *)
Definition preceded (s : list Row) : Prop :=
  ∃ p r, s !! p = Some r ∧ prior_rows s p r ≠ [].

(** The identification of a row. *)
Definition ident (r : Row) : string * string * string * string :=
  (match_id r, season r, team r, date r).

End FormEngineTerms.

(** ** Vocabulary for the tables of the Opponent Differencer *)

Module OpponentTerms.
Import Pandas Features FormEngine OpponentDiff.

(** Every match of the table has two rows, of two teams. *)
Definition paired {A} (mid tm : A → string) (df : list A) : Prop :=
  ∀ r, r ∈ df →
    ∃ a b, filter (λ x, mid x = mid r) df = [a; b] ∧ tm a ≠ tm b.

(** The first row of the match of [r] that has another team. *)
Definition opponent {A} (mid tm : A → string) (df : list A) (r : A) : option A :=
  head (filter (λ o, tm r ≠ tm o) (filter (λ x, mid x = mid r) df)).

(** The column of the enriched table that a diff column compares. *)
Definition compared (c : diff_col) (r : Row) : option Qc :=
  match c with
  | GoalDiff => goals r
  | ShotDiff => shots r
  | SogDiff => sog r
  | AssistDiff => assists r
  | GMeanDiff => G_mean r
  | SHMeanDiff => SH_mean r
  | SOGMeanDiff => SOG_mean r
  | AMeanDiff => A_mean r
  end.

End OpponentTerms.

(** ** Vocabulary and scenarios for the results of the Match Aggregator *)

Module ResultTerms.
Import Pandas BuildFeatures.

(** The result as the other team of the fixture sees it. *)
Definition mirror (c : cell) : cell :=
  match c with
  | Str s =>
      if decide (s = "win") then Str "loss"
      else if decide (s = "loss") then Str "win"
      else c
  | _ => c
  end.

(** A cell of a goals column that is a number or missing. *)
Definition numeric (c : cell) : Prop :=
  match c with
  | Str _ => False
  | _ => True
  end.

(** The fixture of an output row. *)
Definition row_fixture (r : TeamMatchRow) : MatchRow := c_fixture (row r).

Definition player (m t p : string) (g sh : Z) : BoxRow :=
  {| b_match_id := m; b_team := t; b_player := p;
     b_goals := Qc_of_Z g; b_shots := Qc_of_Z sh;
     b_sog := Qc_of_Z g; b_assists := Qc_of_Z 0 |}.

(** Two matches of "ubc" against "uvic"; the second has no score yet. *)
Definition two_matches_box : list BoxRow :=
  [ player "m1" "ubc" "ann" 1 3; player "m1" "uvic" "cyd" 0 2;
    player "m2" "uvic" "cyd" 1 1; player "m1" "ubc" "bea" 1 2;
    player "m2" "ubc" "ann" 0 4 ].
Definition two_matches_fixtures : list MatchRow :=
  [ {| m_match_id := "m1"; m_home_team := "ubc"; m_away_team := "uvic";
       m_home_goals := Some (Num (Qc_of_Z 2));
       m_away_goals := Some (Num (Qc_of_Z 0)) |};
    {| m_match_id := "m2"; m_home_team := "uvic"; m_away_team := "ubc";
       m_home_goals := Some NaN; m_away_goals := Some NaN |} ].

End ResultTerms.

(** ** Comparison of float cells, and further scenarios *)

Module FloatCells.
Import Pandas Features FormEngine Scenarios.

(** [x == y] on two float cells: NaN is equal to nothing, not even to
    NaN. *)
Definition float_eq (x y : option Qc) : bool :=
  match x, y with
  | Some a, Some b => bool_decide (a = b)
  | _, _ => false
  end.

(** Match "N": team A against team B, whose players the boxscore does
    not list, so that the player means of team B are missing. *)
Definition without_player_means (r : Row) : Row :=
  {| match_id := match_id r; season := season r; team := team r;
     date := date r; home_team := home_team r; away_team := away_team r;
     is_home := is_home r; result := result r; goals := goals r;
     shots := shots r; sog := sog r; assists := assists r;
     player_count := player_count r; avg_player_year := avg_player_year r;
     for_ := for_ r; mid := mid r;
     G_mean := None; SH_mean := None; SOG_mean := None; A_mean := None |}.
Definition match_N : list Row :=
  [ team_match "N" "2023" "team-a" "2023-09-01" (Some 12%Z) (Some 2%Z) (Str "win");
    without_player_means
      (team_match "N" "2023" "team-b" "2023-09-01" (Some 9%Z) (Some 3%Z)
         (Str "loss")) ].

(** Match "M" and the return match "M2", a week later. *)
Definition return_match : list Row :=
  match_M ++
  [ team_match "M2" "2023" "team-a" "2023-09-08" (Some 7%Z) (Some 2%Z) (Str "draw");
    team_match "M2" "2023" "team-b" "2023-09-08" (Some 11%Z) (Some 3%Z) (Str "draw") ].

(** Two matches of one team on one date; the first in the file has [x]
    shots. *)
Definition same_date_second : Row :=
  team_match "d2" "2023" "ufv" "2023-09-01" (Some 6%Z) (Some 2%Z) (Str "loss").
Definition same_date_pair (x : Z) : list Row :=
  [ team_match "d1" "2023" "ufv" "2023-09-01" (Some x) (Some 2%Z) (Str "win");
    same_date_second ].

End FloatCells.

(** ** The proportions of the Match Aggregator in float64 *)

Module FloatShares.
Import Pandas BuildFeatures.
Local Open Scope Qc_scope.

(** Half the distance between two neighbouring float64 numbers between
    1 and 2: 2^-53. *)
Definition EPS : Qc := Q2Qc (1 # 9007199254740992).

(** The tolerance of the specification: 1e-9. *)
Definition TOLERANCE : Qc := Q2Qc (1 # 1000000000).

(** [x] is within [e] of [c]. *)
Definition near (e c x : Qc) : Prop := c - e ≤ x ∧ x ≤ c + e.

(** What the statements below use of the rounding of float64: a result
    below 2 in absolute value is within 2^-53 of the exact value, as
    rounding to nearest gives it. *)
Definition rounds (fl : Qc → Qc) : Prop :=
  ∀ q, Q2Qc (-2) < q → q < Q2Qc 2 → near EPS q (fl q).

(** The proportion column of group [g] as the script computes it:
    [value_counts(normalize=True)] divides two integers in float64, so
    that the entry is the rounded quotient; [fillna(0)] puts an exact 0
    where the dictionary of the row has no entry. *)
Definition float_position_share (fl : Qc → Qc) (g : string) (r : TeamMatchRow)
  : option Qc :=
  (λ ro, default 0 (fl <$> r_position_group ro !! g))
    <$> f_roster (c_features (row r)).

(** The sum of float64 values from left to right, every addition
    rounded. *)
Definition float_sum (fl : Qc → Qc) (vs : list Qc) : Qc :=
  foldl (λ s v, fl (s + v)) 0 vs.

(** Rounding to the nearest multiple of 2^-53: a rounding with the
    error bound of [rounds]. *)
Definition round_to_grid (q : Qc) : Qc :=
  Q2Qc (Qfloor (q * inject_Z 9007199254740992 + (1 # 2))%Q
        # 9007199254740992).

End FloatShares.

(** * Verification *)

(** ** Properties of the Entity Normalizer *)

Module CleanLineupsProofs.
Import CleanLineups.

Lemma split_nonempty sep s : Text.split sep s ≠ [].
Proof.
  induction s as [|c s IH]; simpl; [done|].
  destruct (Ascii.eqb c sep); [done|].
  by destruct (Text.split sep s).
Qed.

Lemma first_split_Ok sep s : ∃ t, first (Text.split sep s) = Ok t.
Proof.
  pose proof (split_nonempty sep s) as Hne.
  destruct (Text.split sep s) as [|t ts]; [done|]. by exists t.
Qed.

Lemma mapping_text_codomain k v :
  mapping_text !! k = Some v → v ∈ ["1st"; "2nd"; "3rd"; "4th"; "5th"].
Proof.
  intros Hk. apply elem_of_list_to_map_2 in Hk.
  repeat (apply elem_of_cons in Hk as [Hk|Hk];
          [simplify_eq; set_solver|]).
  by apply elem_of_nil in Hk.
Qed.

Lemma year_of_label l :
  l ∈ ["1st"; "2nd"; "3rd"; "4th"; "5th"] ∨ l = "UNK" →
  ∃ n, getitem mapping_num l = Ok n ∧ (n, l) ∈ YEAR_CLASSES.
Proof.
  intros [Hl| ->]; [|eexists; split; [by vm_compute|]; set_solver].
  repeat (apply elem_of_cons in Hl as [->|Hl];
          [eexists; split; [by vm_compute|]; set_solver|]).
  by apply elem_of_nil in Hl.
Qed.

(** C6 (as the code behaves): on the position text "CDM/CB" the primary
    token "CDM" is kept as the zone, but the group is "DEF" and not "MID":
    the defender keywords "D" and "CD" occur inside "CDM" and the defender
    set is checked before the midfielder set, which lists "CDM". *)
Theorem normalize_position_CDM_CB :
  normalize_position (Some "CDM/CB") = Ok ("CDM", "DEF")
  ∧ any_in GK_KEYS "CDM" = false
  ∧ Text.contains "D" "CDM" = true
  ∧ "CDM" ∈ MID_KEYS.
Proof.
  split_and!; [by vm_compute..|]. unfold MID_KEYS. set_solver.
Qed.

(** C8: for every input (text, empty text or a missing value) both
    normalizers return normally, with a value of their fixed codomain:
    [normalize_year] a pair of [YEAR_CLASSES] (ordinal 0..5 with its label),
    which is (0, "UNK") whenever the cleaned text is not a key of the synonym
    table; [normalize_position] a pair whose group is one of
    [POSITION_GROUPS], which is "UNK" whenever no keyword set matches the
    primary token. *)
Theorem normalizers_total_in_codomain :
  (∀ y : option string, ∃ n l,
      normalize_year y = Ok (n, l)
      ∧ (n, l) ∈ YEAR_CLASSES
      ∧ (0 ≤ n ≤ 5)%Z
      ∧ (mapping_text !! year_key y = None → (n, l) = (0%Z, "UNK")))
  ∧ (∀ p : option string, ∃ zone group,
      normalize_position p = Ok (zone, group)
      ∧ group ∈ POSITION_GROUPS
      ∧ (∀ main_pos, primary_token p = Ok main_pos →
           unmatched_position main_pos → group = "UNK")).
Proof.
  split.
  - intros y. unfold normalize_year. fold (year_key y).
    destruct (isna y || negb (Text.truthy (Text.strip (str y)))).
    { exists 0%Z, "UNK". split_and!; [done|set_solver|lia|lia|done]. }
    destruct (mapping_text !! year_key y) as [v|] eqn:Hk; simpl.
    + apply mapping_text_codomain in Hk.
      destruct (year_of_label v) as (n & Hget & Hn); [by left|].
      rewrite Hget. cbn [except_bind].
      exists n, v. split_and!; [done|done| | |done].
      all: unfold YEAR_CLASSES in Hn;
        repeat (apply elem_of_cons in Hn as [Hn|Hn]; [simplify_eq; lia|]);
        by apply elem_of_nil in Hn.
    + exists 0%Z, "UNK". split_and!; [by vm_compute|set_solver|lia|lia|done].
  - intros p. unfold normalize_position. fold (primary_token p).
    destruct (isna p || negb (Text.truthy (Text.strip (str p)))) eqn:Hblank.
    { exists "UNK", "UNK". split_and!; [done|set_solver|done]. }
    destruct (first_split_Ok "/" (keep_letters_slash (Text.upper (str p))))
      as [t Ht].
    unfold primary_token. rewrite Ht. cbn [except_bind].
    destruct (any_in GK_KEYS t) eqn:H1.
    { exists t, "GK". split_and!; [done|set_solver|].
      intros ? [= <-] (? & _); congruence. }
    destruct (any_in DEF_KEYS t) eqn:H2.
    { exists t, "DEF". split_and!; [done|set_solver|].
      intros ? [= <-] (_ & ? & _); congruence. }
    destruct (any_in MID_KEYS t) eqn:H3.
    { exists t, "MID". split_and!; [done|set_solver|].
      intros ? [= <-] (_ & _ & ? & _); congruence. }
    destruct (any_in FOR_KEYS t) eqn:H4.
    { exists t, "FOR". split_and!; [done|set_solver|].
      intros ? [= <-] (_ & _ & _ & ?); congruence. }
    exists t, "UNK". split_and!; [done|set_solver|done].
Qed.

Lemma normalizers_total_in_codomain_witness :
  mapping_text !! year_key (Some "Redshirt") = None
  ∧ normalize_year (Some "Redshirt") = Ok (0%Z, "UNK")
  ∧ primary_token (Some "Keeper") = Ok "KEEPER"
  ∧ unmatched_position "KEEPER"
  ∧ normalize_position (Some "Keeper") = Ok ("KEEPER", "UNK").
Proof.
  destruct normalizers_total_in_codomain as [Hyear Hpos].
  assert (H1 : mapping_text !! year_key (Some "Redshirt") = None)
    by (vm_compute; reflexivity).
  assert (H2 : primary_token (Some "Keeper") = Ok "KEEPER")
    by (vm_compute; reflexivity).
  assert (H3 : unmatched_position "KEEPER")
    by (repeat split; vm_compute; reflexivity).
  split_and!; [exact H1| |exact H2|exact H3|].
  - destruct (Hyear (Some "Redshirt")) as (n & l & Heq & _ & _ & Hunk).
    rewrite Heq. f_equal. exact (Hunk H1).
  - destruct (Hpos (Some "Keeper")) as (zone & group & Heq & _ & Hunk).
    rewrite Heq. rewrite (Hunk "KEEPER" H2 H3).
    vm_compute in Heq. injection Heq as <- _. reflexivity.
Defined.

End CleanLineupsProofs.

(** ** Properties of the pandas primitives *)

Module PandasProofs.
Import Pandas.

Lemma mean_present x y : present x = present y → mean x = mean y.
Proof. unfold mean. by intros ->. Qed.

Lemma present_all (v : list Qc) : present (Some <$> v) = v.
Proof.
  induction v as [|q v IH]; [done|].
  unfold present. simpl. f_equal. exact IH.
Qed.

Lemma mean_all_present (v : list Qc) :
  v ≠ [] → mean (Some <$> v) = Some (total v / Qc_of_nat (length v))%Qc.
Proof. intros Hv. unfold mean. rewrite present_all. by destruct v. Qed.

Lemma length_shift1 {A} (x : list (option A)) : length (shift1 x) = length x.
Proof. unfold shift1. rewrite length_take. simpl. lia. Qed.

Lemma take_shift1 {A} (x : list (option A)) i :
  i < length x → take (S i) (shift1 x) = None :: take i x.
Proof.
  intros Hi. unfold shift1. rewrite take_take.
  replace (S i `min` length x) with (S i) by lia. done.
Qed.

(** [shift(1)] followed by [rolling(w, min_periods=1).mean()] is the mean
    of the up-to-[w] observations strictly before the index. *)
Lemma prior_mean_lookup w x i :
  0 < w → i < length x →
  rolling_mean w (shift1 x) !! i = Some (mean (window w i x)).
Proof.
  intros Hw Hi. unfold rolling_mean. rewrite list_lookup_imap.
  destruct (lookup_lt_is_Some_2 (shift1 x) i) as [c Hc];
    [by rewrite length_shift1|].
  rewrite Hc. simpl. f_equal. apply mean_present.
  rewrite take_shift1 by done. unfold window.
  destruct (decide (S i ≤ w)) as [Hle|Hgt].
  - replace (S i - w) with 0 by lia. replace (i - w) with 0 by lia. done.
  - replace (S i - w) with (S (i - w)) by lia. done.
Qed.

Lemma fillna_lookup v x i : fillna v x !! i = fillna_cell v <$> x !! i.
Proof. apply list_lookup_fmap. Qed.

Section groupby.
Context {K : Type} `{EqDecision K}.
Implicit Types (keys : list K) (col : list (option Qc)).

Lemma group_cons k0 keys c0 col k :
  group (k0 :: keys) (c0 :: col) k =
  if decide (k0 = k) then c0 :: group keys col k else group keys col k.
Proof.
  unfold group. simpl. rewrite filter_cons. simpl.
  by destruct (decide (k0 = k)).
Qed.

Lemma rank_S k0 keys p k :
  rank (k0 :: keys) (S p) k =
  if decide (k0 = k) then S (rank keys p k) else rank keys p k.
Proof.
  unfold rank. simpl. rewrite filter_cons.
  by destruct (decide (k0 = k)).
Qed.

(** A row's own value sits in its group at the row's rank. *)
Lemma group_lookup_rank keys col p k v :
  keys !! p = Some k → col !! p = Some v →
  group keys col k !! rank keys p k = Some v.
Proof.
  revert col p. induction keys as [|k0 keys IH]; intros col p Hk Hv; [done|].
  destruct col as [|c0 col]; [done|].
  destruct p as [|p]; simpl in Hk, Hv.
  - simplify_eq. rewrite group_cons, decide_True by done. done.
  - rewrite group_cons, rank_S. destruct (decide (k0 = k)); simpl; eauto.
Qed.

(** On columns of one table, a group is a filter of the rows. *)
Lemma group_fmap {R} (key : R → K) (f : R → option Qc) (df : list R) k :
  group (key <$> df) (f <$> df) k = f <$> filter (λ r, key r = k) df.
Proof.
  induction df as [|r df IH]; [done|].
  rewrite !fmap_cons, group_cons, filter_cons, IH.
  by destruct (decide (key r = k)).
Qed.

Lemma rank_fmap {R} (key : R → K) (df : list R) p k :
  rank (key <$> df) p k = length (filter (λ r, key r = k) (take p df)).
Proof.
  unfold rank. rewrite <-fmap_take.
  induction (take p df) as [|r l IH]; [done|].
  rewrite fmap_cons, !filter_cons.
  destruct (decide (key r = k)); simpl; by rewrite IH.
Qed.

Lemma groupby_transform_lookup keys f col p k :
  keys !! p = Some k →
  groupby_transform keys f col !! p =
    Some (mjoin (f (group keys col k) !! rank keys p k)).
Proof.
  intros Hk. unfold groupby_transform.
  by rewrite list_lookup_imap, Hk.
Qed.

(** Filling the missing values of each group keeps every present value. *)
Lemma groupby_fillna_lookup keys col p k v :
  keys !! p = Some k → col !! p = Some v →
  groupby_transform keys (λ x, fillna (mean x) x) col !! p =
    Some (fillna_cell (mean (group keys col k)) v).
Proof.
  intros Hk Hv. rewrite (groupby_transform_lookup _ _ _ _ k) by done.
  by rewrite fillna_lookup, (group_lookup_rank _ _ _ _ v).
Qed.
End groupby.

Section sorting.
Context {A B : Type} (leA : A → A → bool) (leB : B → B → bool) (f : A → B).
Hypothesis key_preserved : ∀ a b, leB (f a) (f b) = leA a b.


End sorting.

Lemma insert_sorted_perm {A} (le : A → A → bool) x l :
  insert_sorted le x l ≡ₚ x :: l.
Proof.
  induction l as [|y l IH]; [done|].
  simpl. destruct (le x y); [done|]. rewrite IH. apply Permutation_swap.
Qed.

(** Sorting keeps the rows: it only reorders them. *)
Lemma stable_sort_perm {A} (le : A → A → bool) l : stable_sort le l ≡ₚ l.
Proof.
  induction l as [|x l IH]; [done|].
  unfold stable_sort in *. cbn [foldr].
  rewrite insert_sorted_perm. by f_equiv.
Qed.

Lemma filter_pair_fmap {A B} (P : A * B → Prop) `{∀ x, Decision (P x)}
    (a : A) (l : list B) :
  filter P ((λ b, (a, b)) <$> l) = (λ b, (a, b)) <$> filter (λ b, P (a, b)) l.
Proof.
  induction l as [|b l IH]; [done|].
  rewrite fmap_cons, !filter_cons, IH. by destruct (decide (P (a, b))).
Qed.

Lemma filter_pair_fmap_nil {A B} (P : A * B → Prop) `{∀ x, Decision (P x)}
    (a : A) (l : list B) :
  (∀ b, ¬ P (a, b)) → filter P ((λ b, (a, b)) <$> l) = [].
Proof.
  intros Hno. induction l as [|b l IH]; [done|].
  rewrite fmap_cons, filter_cons_False by apply Hno. done.
Qed.

Lemma filter_fmap_list {A B} (f : A → B) (P : B → Prop)
    `{∀ x, Decision (P x)} (l : list A) :
  filter P (f <$> l) = f <$> filter (λ a, P (f a)) l.
Proof.
  induction l as [|a l IH]; [done|].
  rewrite fmap_cons, !filter_cons, IH. by destruct (decide (P (f a))).
Qed.

(** *** Comparisons and sortedness *)

Lemma string_compare_refl s : String.compare s s = Eq.
Proof.
  induction s as [|c s IH]; [done|]. simpl.
  unfold Ascii.compare. by rewrite N.compare_refl.
Qed.

Lemma string_compare_Lt_trans x y z :
  String.compare x y = Lt → String.compare y z = Lt → String.compare x z = Lt.
Proof.
  revert y z. induction x as [|a x IH]; intros [|b y] [|c z]; simpl; try done.
  unfold Ascii.compare.
  destruct (N.compare_spec (N_of_ascii a) (N_of_ascii b)) as [Hab|Hab|Hab];
    destruct (N.compare_spec (N_of_ascii b) (N_of_ascii c)) as [Hbc|Hbc|Hbc];
    try done; intros Hxy Hyz.
  - rewrite (proj2 (N.compare_eq_iff _ _)) by congruence. by eapply IH.
  - by rewrite (proj2 (N.compare_lt_iff _ _)) by lia.
  - by rewrite (proj2 (N.compare_lt_iff _ _)) by lia.
  - by rewrite (proj2 (N.compare_lt_iff _ _)) by lia.
Qed.

Lemma cmp_laws_string : cmp_laws String.compare.
Proof.
  split.
  - apply string_compare_refl.
  - intros x y. apply String.compare_antisym.
  - by intros x y z ->%String.compare_eq_iff.
  - apply string_compare_Lt_trans.
Qed.

Section cmp.
Context {A : Type}.
Implicit Types cmp : A → A → comparison.

Lemma cmp_Eq_r cmp x y z : cmp_laws cmp → cmp y z = Eq → cmp x y = cmp x z.
Proof.
  intros H Hyz.
  rewrite (cmp_antisym _ H y x), (cmp_antisym _ H z x). f_equal.
  symmetry. by apply (cmp_Eq_l _ H).
Qed.

(** A comparison of keys is a comparison of the rows that carry them. *)
Lemma cmp_laws_on {B} (f : B → A) cmp :
  cmp_laws cmp → cmp_laws (λ a b, cmp (f a) (f b)).
Proof.
  intros H. split; intros *.
  - apply (cmp_refl _ H).
  - apply (cmp_antisym _ H).
  - apply (cmp_Eq_l _ H).
  - apply (cmp_Lt_trans _ H).
Qed.

Lemma cmp_laws_lex cmp1 cmp2 :
  cmp_laws cmp1 → cmp_laws cmp2 →
  cmp_laws (λ a b, lex (cmp1 a b) (cmp2 a b)).
Proof.
  intros H1 H2. split.
  - intros x. by rewrite (cmp_refl _ H1), (cmp_refl _ H2).
  - intros x y. rewrite (cmp_antisym _ H1 x y), (cmp_antisym _ H2 x y).
    by destruct (cmp1 x y).
  - intros x y z Hxy.
    destruct (cmp1 x y) eqn:E1; try done. simpl in Hxy.
    by rewrite (cmp_Eq_l _ H1 x y z E1), (cmp_Eq_l _ H2 x y z Hxy).
  - intros x y z Hxy Hyz.
    destruct (cmp1 x y) eqn:E1; simpl in Hxy; try done.
    + rewrite <-(cmp_Eq_l _ H1 x y z E1).
      destruct (cmp1 y z) eqn:E2; simpl in *; try done.
      by apply (cmp_Lt_trans _ H2 x y z).
    + destruct (cmp1 y z) eqn:E2; simpl in Hyz; try done.
      * by rewrite <-(cmp_Eq_r cmp1 x y z H1 E2), E1.
      * by rewrite (cmp_Lt_trans _ H1 x y z E1 E2).
Qed.

Lemma not_Gt_total cmp x y :
  cmp_laws cmp → le_of cmp x y = false → le_of cmp y x = true.
Proof.
  intros H. unfold le_of. rewrite (cmp_antisym _ H x y).
  by destruct (cmp x y).
Qed.

Lemma not_Gt_trans cmp x y z :
  cmp_laws cmp →
  le_of cmp x y = true → le_of cmp y z = true → le_of cmp x z = true.
Proof.
  unfold le_of. intros H Hxy Hyz.
  destruct (cmp x y) eqn:E1; try done.
  - by rewrite <-(cmp_Eq_l _ H x y z E1).
  - destruct (cmp y z) eqn:E2; try done.
    + by rewrite <-(cmp_Eq_r cmp x y z H E2), E1.
    + by rewrite (cmp_Lt_trans _ H x y z E1 E2).
Qed.
End cmp.

Section sorted.
Context {A : Type} (cmp : A → A → comparison).
Hypothesis laws : cmp_laws cmp.

Lemma insert_sorted_sorted x l :
  StronglySorted (λ a b, le_of cmp a b) l →
  StronglySorted (λ a b, le_of cmp a b) (insert_sorted (le_of cmp) x l).
Proof.
  induction 1 as [|y l Hl IH Hy]; simpl.
  - by repeat constructor.
  - destruct (le_of cmp x y) eqn:Hxy.
    + constructor; [by constructor|]. constructor; [by rewrite Hxy|].
      eapply Forall_impl; [exact Hy|]. intros z Hyz. simpl in *.
      rewrite (not_Gt_trans cmp x y z laws); [done|done|].
      by destruct (le_of cmp y z).
    + constructor; [done|].
      rewrite (insert_sorted_perm (le_of cmp) x l). constructor; [|done].
      by rewrite (not_Gt_total cmp x y laws Hxy).
Qed.

(** The sort puts the rows in the order of their keys. *)
Lemma stable_sort_sorted l :
  StronglySorted (λ a b, le_of cmp a b) (stable_sort (le_of cmp) l).
Proof.
  induction l as [|x l IH]; [constructor|].
  unfold stable_sort in *. cbn [foldr]. by apply insert_sorted_sorted.
Qed.
End sorted.

Lemma window_last_n {A} w (l k : list A) :
  window w (length l) (l ++ k) = last_n w l.
Proof. unfold window, last_n. by rewrite take_app_length. Qed.

End PandasProofs.

(** ** Properties of the Form Engine *)

Module FormEngineProofs.
Import Pandas PandasProofs Features FormEngine.

Lemma mean_is_Some x : present x ≠ [] → is_Some (mean x).
Proof. unfold mean. destruct (present x); [done|eauto]. Qed.

Lemma present_fmap_Some {A} (g : A → Qc) (l : list A) :
  present ((λ a, Some (g a)) <$> l) = g <$> l.
Proof.
  induction l as [|a l IH]; [done|].
  unfold present. simpl. f_equal. exact IH.
Qed.

Lemma last_n_nil {A} n (l : list A) : (0 < n)%nat → last_n n l = [] → l = [].
Proof.
  unfold last_n. intros Hn Hnil. apply (f_equal length) in Hnil.
  rewrite length_drop in Hnil. simpl in Hnil.
  destruct l; [done|]. simpl in Hnil. lia.
Qed.

Lemma last_n_fmap {A B} (f : A → B) n (l : list A) :
  last_n n (f <$> l) = f <$> last_n n l.
Proof. unfold last_n. by rewrite fmap_drop, length_fmap. Qed.

(** *** The date order of the sorted table *)

Lemma key_cmp_laws : cmp_laws key_cmp.
Proof.
  unfold key_cmp.
  apply (cmp_laws_lex (λ a b, String.compare (season a) (season b))
           (λ a b, lex (String.compare (team a) (team b))
                       (String.compare (date a) (date b)))).
  - apply (cmp_laws_on season), cmp_laws_string.
  - apply (cmp_laws_lex (λ a b, String.compare (team a) (team b))
             (λ a b, String.compare (date a) (date b))).
    + apply (cmp_laws_on team), cmp_laws_string.
    + apply (cmp_laws_on date), cmp_laws_string.
Qed.

Lemma sort_values_perm df : sort_values df ≡ₚ df.
Proof. apply stable_sort_perm. Qed.

Lemma sort_values_sorted df : StronglySorted key_le (sort_values df).
Proof. apply (stable_sort_sorted key_cmp key_cmp_laws). Qed.

Lemma StronglySorted_lookup_lt {A} (R : A → A → Prop) l i j x y :
  StronglySorted R l → (i < j)%nat →
  l !! i = Some x → l !! j = Some y → R x y.
Proof.
  intros Hl. revert i j.
  induction Hl as [|z l Hl IH Hz]; intros i j Hij Hi Hj.
  - done.
  - destruct j as [|j]; [lia|]. destruct i as [|i]; simpl in *.
    + injection Hi as <-. eapply Forall_forall in Hz; [done|].
      by eapply list_elem_of_lookup_2.
    + apply (IH i j); [lia|done|done].
Qed.

(** In the sorted table the prior rows of a row are matches of the same
    season and team that are not dated after it. *)
Lemma prior_rows_not_later df p r r' :
  sort_values df !! p = Some r →
  r' ∈ prior_rows (sort_values df) p r →
  season_team r' = season_team r ∧ String.leb (date r') (date r) = true.
Proof.
  intros Hp Hr'. unfold prior_rows in Hr'.
  apply list_elem_of_filter in Hr' as [Hkey Hr']. split; [done|].
  apply list_elem_of_lookup in Hr' as [q Hq].
  apply lookup_take_Some in Hq as [Hq Hlt].
  pose proof (StronglySorted_lookup_lt _ _ q p r' r
                (sort_values_sorted df) Hlt Hq Hp) as Hle.
  unfold key_le, le_of, key_cmp in Hle. injection Hkey as Hs Ht.
  rewrite Hs, Ht, !string_compare_refl in Hle. simpl in Hle.
  unfold String.leb. by destruct (String.compare (date r') (date r)).
Qed.

(** The group of [r] is its prior rows, then [r], then later rows. *)
Lemma group_rows_split (df : list Row) p r :
  df !! p = Some r →
  filter (λ r', season_team r' = season_team r) df =
    prior_rows df p r
    ++ r :: filter (λ r', season_team r' = season_team r) (drop (S p) df).
Proof.
  intros Hp. rewrite <-(take_drop_middle df p r) at 1 by done.
  rewrite filter_app, filter_cons_True by done. done.
Qed.

(** Before imputation, a rolling column holds at each row the mean of the
    column over the last [w] prior rows of the row's group. *)
Lemma prior_mean_col_lookup w (f : Row → option Qc) (df : list Row) p r :
  (0 < w)%nat → df !! p = Some r →
  groupby_transform (season_team <$> df) (prior_mean w) (f <$> df) !! p =
    Some (mean (f <$> last_n w (prior_rows df p r))).
Proof.
  intros Hw Hp.
  rewrite (groupby_transform_lookup _ _ _ _ (season_team r))
    by (by rewrite list_lookup_fmap, Hp).
  rewrite group_fmap, rank_fmap. fold (prior_rows df p r).
  rewrite (group_rows_split df p r) by done.
  unfold prior_mean. rewrite prior_mean_lookup; [|done|].
  - simpl. rewrite fmap_app.
    rewrite <-(length_fmap f (prior_rows df p r)).
    by rewrite window_last_n, last_n_fmap.
  - rewrite length_fmap, length_app. simpl. lia.
Qed.

Lemma rolling3_raw_lookup (df : list Row) c p r :
  df !! p = Some r →
  rolling3_raw df c !! p =
    Some (mean (get c <$> last_n 3 (prior_rows df p r))).
Proof. intros. apply prior_mean_col_lookup; [lia|done]. Qed.

Lemma win_rate_rolling5_raw_lookup (df : list Row) p r :
  df !! p = Some r →
  win_rate_rolling5_raw df !! p =
    Some (mean ((λ r, Some (to_numeric_result (result r)))
                  <$> last_n 5 (prior_rows df p r))).
Proof. intros. apply prior_mean_col_lookup; [lia|done]. Qed.

(** Imputation leaves a value that is present untouched. *)
Lemma impute_present (df : list Row) col p r q :
  df !! p = Some r → col !! p = Some (Some q) →
  impute df col !! p = Some (Some q).
Proof.
  intros Hp Hq. unfold impute, fill_global_mean, fill_team_mean.
  rewrite fillna_lookup.
  rewrite (groupby_fillna_lookup _ _ _ (team r) (Some q));
    [done|by rewrite list_lookup_fmap, Hp|done].
Qed.

Lemma form_features_full_lookup df p :
  form_features_full df !! p =
    (λ r, let s := sort_values df in
      {| base := fill_inputs s r;
         shots_rolling3 := at_row (rolling3_col s Shots) p;
         sog_rolling3 := at_row (rolling3_col s Sog) p;
         assists_rolling3 := at_row (rolling3_col s Assists) p;
         player_count_rolling3 := at_row (rolling3_col s PlayerCount) p;
         avg_player_year_rolling3 := at_row (rolling3_col s AvgPlayerYear) p;
         numeric_result :=
           at_row (fill_global_mean (numeric_result_col s)) p;
         win_rate_rolling5 := at_row (win_rate_rolling5_col s) p |})
    <$> sort_values df !! p.
Proof. unfold form_features_full. by rewrite list_lookup_imap. Qed.

Lemma rolling3_full_lookup df p c :
  rolling3 c <$> form_features_full df !! p =
    (λ _, at_row (rolling3_col (sort_values df) c) p) <$> sort_values df !! p.
Proof.
  rewrite form_features_full_lookup.
  destruct (sort_values df !! p); [|done]. by destruct c.
Qed.

Lemma win_rate_full_lookup df p :
  win_rate_rolling5 <$> form_features_full df !! p =
    (λ _, at_row (win_rate_rolling5_col (sort_values df)) p)
      <$> sort_values df !! p.
Proof.
  rewrite form_features_full_lookup.
  by destruct (sort_values df !! p).
Qed.

Lemma pm_rolling3_lookup df p c :
  pm_rolling3 c <$> build_prematch_features df !! p =
    (λ _, at_row (rolling3_col (sort_values df) c) p) <$> sort_values df !! p.
Proof.
  unfold build_prematch_features. rewrite list_lookup_imap.
  destruct (sort_values df !! p); [|done]. by destruct c.
Qed.

(** The final rolling value of a row whose window holds an observation. *)
Lemma rolling3_col_defined (s : list Row) c p r :
  s !! p = Some r →
  present (get c <$> last_n 3 (prior_rows s p r)) ≠ [] →
  at_row (rolling3_col s c) p = mean (get c <$> last_n 3 (prior_rows s p r)).
Proof.
  intros Hp Hw. destruct (mean_is_Some _ Hw) as [q Hq].
  unfold at_row, rolling3_col.
  rewrite (impute_present s _ p r q); [by rewrite Hq|done|].
  by rewrite (rolling3_raw_lookup s c p r), Hq.
Qed.

Lemma win_rate_col_defined (s : list Row) p r :
  s !! p = Some r → prior_rows s p r ≠ [] →
  at_row (win_rate_rolling5_col s) p =
    mean ((λ r, Some (to_numeric_result (result r)))
            <$> last_n 5 (prior_rows s p r)).
Proof.
  intros Hp Hw.
  destruct (mean_is_Some ((λ r, Some (to_numeric_result (result r)))
              <$> last_n 5 (prior_rows s p r))) as [q Hq].
  { rewrite present_fmap_Some. intros Hnil%fmap_nil_inv.
    by apply last_n_nil in Hnil; [|lia]. }
  unfold at_row, win_rate_rolling5_col.
  rewrite (impute_present s _ p r q); [by rewrite Hq|done|].
  by rewrite (win_rate_rolling5_raw_lookup s p r), Hq.
Qed.

End FormEngineProofs.

(** ** The claims on the Form Engine *)

Module FormEngineClaims.
Import Pandas PandasProofs Features FormEngine FormEngineProofs Scenarios.
Import FloatCells.

Lemma prior_rows_alter (s : list Row) (f : Row → Row) p r :
  s !! p = Some r → season_team (f r) = season_team r →
  alter f p s !! p = Some (f r)
  ∧ prior_rows (alter f p s) p (f r) = prior_rows s p r.
Proof.
  intros Hp Hk. split.
  - by rewrite list_lookup_alter_eq, Hp.
  - unfold prior_rows. rewrite take_alter_ge by lia. by rewrite Hk.
Qed.

(** C1 (amended): in the date-ordered table, for a row whose window (the
    up-to-3 rows of its (season, team) group just before it) holds at
    least one present value of the statistic, [stat_rolling3] is the mean
    of the present values of the statistic over that window, in both
    scripts of the Form Engine; this is the plain arithmetic mean of the
    window when no value is missing.  Giving the row another value of the
    statistic leaves its [stat_rolling3] unchanged. *)
Theorem rolling3_is_mean_of_prior_window
    (df : list Row) (c : stat) (p : nat) (r : Row) :
  sort_values df !! p = Some r →
  present (get c <$> window3 (sort_values df) p r) ≠ [] →
  rolling3 c <$> form_features_full df !! p
    = Some (mean (get c <$> window3 (sort_values df) p r))
  ∧ pm_rolling3 c <$> build_prematch_features df !! p
    = Some (mean (get c <$> window3 (sort_values df) p r))
  ∧ (∀ vs, get c <$> window3 (sort_values df) p r = Some <$> vs →
       mean (get c <$> window3 (sort_values df) p r)
       = Some (total vs / Qc_of_nat (length vs))%Qc)
  ∧ (∀ df' v,
       sort_values df' = alter (set_stat c v) p (sort_values df) →
       rolling3 c <$> form_features_full df' !! p
         = rolling3 c <$> form_features_full df !! p
       ∧ pm_rolling3 c <$> build_prematch_features df' !! p
         = pm_rolling3 c <$> build_prematch_features df !! p).
Proof.
  intros Hp Hw.
  assert (Hfull : rolling3 c <$> form_features_full df !! p
            = Some (mean (get c <$> window3 (sort_values df) p r))).
  { rewrite rolling3_full_lookup, Hp. simpl.
    by rewrite (rolling3_col_defined _ c p r). }
  assert (Hpm : pm_rolling3 c <$> build_prematch_features df !! p
            = Some (mean (get c <$> window3 (sort_values df) p r))).
  { rewrite pm_rolling3_lookup, Hp. simpl.
    by rewrite (rolling3_col_defined _ c p r). }
  split_and!; [done|done| |].
  - intros vs Hvs. rewrite Hvs. apply mean_all_present.
    intros ->. rewrite Hvs in Hw. by apply Hw.
  - intros df' v Hs'. rewrite Hfull, Hpm.
    destruct (prior_rows_alter (sort_values df) (set_stat c v) p r Hp)
      as [Hp' Hprior]; [done|].
    rewrite <-Hs' in Hp', Hprior.
    rewrite rolling3_full_lookup, pm_rolling3_lookup, Hp'. simpl.
    rewrite (rolling3_col_defined _ c p (set_stat c v r)); [|done|].
    + unfold window3. by rewrite Hprior.
    + unfold window3. by rewrite Hprior.
Qed.

(** The scenario of the specification: shots 10, 14, 8 in the three prior
    matches give [shots_rolling3] = 32/3 in the fourth, whatever its own
    shot count. *)
Lemma rolling3_is_mean_of_prior_window_witness :
  sort_values (ubc 99) !! 3 = Some (ubc_fourth 99)
  ∧ present (get Shots <$> window3 (sort_values (ubc 99)) 3 (ubc_fourth 99)) ≠ []
  ∧ rolling3 Shots <$> form_features_full (ubc 99) !! 3
    = Some (Some (Q2Qc (32 # 3)))
  ∧ mean (get Shots <$> window3 (sort_values (ubc 99)) 3 (ubc_fourth 99))
    = Some (total [Qc_of_Z 10; Qc_of_Z 14; Qc_of_Z 8] / Qc_of_nat 3)%Qc
  ∧ rolling3 Shots <$> form_features_full (ubc 0) !! 3
    = rolling3 Shots <$> form_features_full (ubc 99) !! 3.
Proof.
  assert (H1 : sort_values (ubc 99) !! 3 = Some (ubc_fourth 99))
    by reflexivity.
  assert (H2 : present (get Shots
                 <$> window3 (sort_values (ubc 99)) 3 (ubc_fourth 99)) ≠ [])
    by (vm_compute; discriminate).
  destruct (rolling3_is_mean_of_prior_window (ubc 99) Shots 3 (ubc_fourth 99)
              H1 H2) as (Hfull & _ & Hmean & Hown).
  split_and!; [exact H1|exact H2| | |].
  - rewrite Hfull. reflexivity.
  - apply (Hmean [Qc_of_Z 10; Qc_of_Z 14; Qc_of_Z 8]). reflexivity.
  - apply (Hown (ubc 0) (Some (Qc_of_Z 0))). reflexivity.
Defined.

(** C1 (as stated) fails when the prior match has no value of the
    statistic: team "uvic" has a prior match, yet the second match's
    [avg_player_year_rolling3] is not the mean over the preceding row (there
    is no such mean) and it follows the second match's own value (2, then
    5), through the team-mean imputation. *)
Lemma rolling3_own_value_leak :
  sort_values (unmatched_roster 2) = unmatched_roster 2
  ∧ sort_values (unmatched_roster 5)
    = alter (set_stat AvgPlayerYear (Some (Qc_of_Z 5))) 1
        (sort_values (unmatched_roster 2))
  ∧ prior_rows (sort_values (unmatched_roster 2)) 1 (unmatched_roster_second 2)
    ≠ []
  ∧ mean (get AvgPlayerYear
      <$> window3 (sort_values (unmatched_roster 2)) 1 (unmatched_roster_second 2))
    = None
  ∧ rolling3 AvgPlayerYear <$> form_features_full (unmatched_roster 2) !! 1
    = Some (Some (Qc_of_Z 2))
  ∧ rolling3 AvgPlayerYear <$> form_features_full (unmatched_roster 5) !! 1
    = Some (Some (Qc_of_Z 5))
  ∧ pm_rolling3 AvgPlayerYear <$> build_prematch_features (unmatched_roster 2) !! 1
    ≠ pm_rolling3 AvgPlayerYear <$> build_prematch_features (unmatched_roster 5) !! 1.
Proof.
  split_and!; try reflexivity.
  - vm_compute. discriminate.
  - vm_compute. intros [=].
Qed.

Lemma prior_rows_alter_later (s : list Row) (f : Row → Row) p q r :
  s !! p = Some r → (p ≤ q)%nat → season_team (f r) = season_team r →
  ∃ r', alter f q s !! p = Some r'
        ∧ prior_rows (alter f q s) p r' = prior_rows s p r.
Proof.
  intros Hp Hq Hk. destruct (decide (q = p)) as [->|Hne].
  - exists (f r). by apply prior_rows_alter.
  - exists r. split.
    + by rewrite list_lookup_alter_ne.
    + unfold prior_rows. by rewrite take_alter_ge.
Qed.

(** In the date-ordered table a match of the same season and team with
    a later date comes after the row. *)
Lemma later_date_is_later_row df p q r rq :
  sort_values df !! p = Some r → sort_values df !! q = Some rq →
  season_team rq = season_team r →
  String.compare (date r) (date rq) = Lt →
  (p < q)%nat.
Proof.
  intros Hp Hq Hkey Hdate.
  destruct (decide (p < q)%nat) as [|Hnlt]; [done|]. exfalso.
  destruct (decide (q = p)) as [->|Hne].
  - rewrite Hp in Hq. injection Hq as <-.
    by rewrite string_compare_refl in Hdate.
  - pose proof (StronglySorted_lookup_lt _ _ q p rq r
                  (sort_values_sorted df) ltac:(lia) Hq Hp) as Hle.
    unfold key_le, le_of, key_cmp in Hle. injection Hkey as Hs Ht.
    rewrite Hs, Ht, !string_compare_refl in Hle. simpl in Hle.
    rewrite (String.compare_antisym (date rq) (date r)), Hdate in Hle.
    done.
Qed.

Lemma prior_rows_alter_after (s : list Row) (f : Row → Row) p q r :
  s !! p = Some r → (p < q)%nat →
  alter f q s !! p = Some r
  ∧ prior_rows (alter f q s) p r = prior_rows s p r.
Proof.
  intros Hp Hq. split.
  - by rewrite list_lookup_alter_ne by lia.
  - unfold prior_rows. by rewrite take_alter_ge by lia.
Qed.

(** C2 (amended): a rolling feature that is computed from prior matches
    depends on nothing but the rows of the same (season, team) group that
    come before the row in the date-ordered table.  In two runs in which
    those prior rows are the same, [stat_rolling3] agrees for every
    statistic whose window holds a present value, and [win_rate_rolling5]
    agrees whenever the row has a prior match.  In particular, perturbing
    the row itself, any row after it in the date-ordered table, or any
    match of the same season and team with a later date leaves these
    features of the row unchanged.  A match of the same date that the
    sort places before the row is one of its prior rows, and imputed
    values are outside this statement. *)
Theorem rolling_features_noninterference
    (df : list Row) (p : nat) (r : Row) :
  sort_values df !! p = Some r →
  (∀ df' p' r',
     sort_values df' !! p' = Some r' →
     prior_rows (sort_values df') p' r' = prior_rows (sort_values df) p r →
     (∀ c, present (get c <$> window3 (sort_values df) p r) ≠ [] →
        rolling3 c <$> form_features_full df' !! p'
        = rolling3 c <$> form_features_full df !! p)
     ∧ (prior_rows (sort_values df) p r ≠ [] →
        win_rate_rolling5 <$> form_features_full df' !! p'
        = win_rate_rolling5 <$> form_features_full df !! p))
  ∧ (∀ df' q f,
     (p ≤ q)%nat → season_team (f r) = season_team r →
     sort_values df' = alter f q (sort_values df) →
     (∀ c, present (get c <$> window3 (sort_values df) p r) ≠ [] →
        rolling3 c <$> form_features_full df' !! p
        = rolling3 c <$> form_features_full df !! p)
     ∧ (prior_rows (sort_values df) p r ≠ [] →
        win_rate_rolling5 <$> form_features_full df' !! p
        = win_rate_rolling5 <$> form_features_full df !! p))
  ∧ (∀ df' q rq f,
     sort_values df !! q = Some rq →
     season_team rq = season_team r →
     String.compare (date r) (date rq) = Lt →
     sort_values df' = alter f q (sort_values df) →
     (p < q)%nat
     ∧ (∀ c, present (get c <$> window3 (sort_values df) p r) ≠ [] →
        rolling3 c <$> form_features_full df' !! p
        = rolling3 c <$> form_features_full df !! p)
     ∧ (prior_rows (sort_values df) p r ≠ [] →
        win_rate_rolling5 <$> form_features_full df' !! p
        = win_rate_rolling5 <$> form_features_full df !! p)).
Proof.
  intros Hp.
  assert (Hgen : ∀ df' p' r',
     sort_values df' !! p' = Some r' →
     prior_rows (sort_values df') p' r' = prior_rows (sort_values df) p r →
     (∀ c, present (get c <$> window3 (sort_values df) p r) ≠ [] →
        rolling3 c <$> form_features_full df' !! p'
        = rolling3 c <$> form_features_full df !! p)
     ∧ (prior_rows (sort_values df) p r ≠ [] →
        win_rate_rolling5 <$> form_features_full df' !! p'
        = win_rate_rolling5 <$> form_features_full df !! p)).
  { intros df' p' r' Hp' Hprior. split.
    - intros c Hw.
      rewrite !rolling3_full_lookup, Hp, Hp'. simpl. f_equal.
      rewrite (rolling3_col_defined _ c p r) by done.
      rewrite (rolling3_col_defined _ c p' r').
      + unfold window3. by rewrite Hprior.
      + done.
      + unfold window3 in *. by rewrite Hprior.
    - intros Hne.
      rewrite !win_rate_full_lookup, Hp, Hp'. simpl. f_equal.
      rewrite (win_rate_col_defined _ p r) by done.
      rewrite (win_rate_col_defined _ p' r'); [|done|by rewrite Hprior].
      by rewrite Hprior. }
  split_and!; [exact Hgen| |].
  - intros df' q f Hq Hkey Hs'.
    destruct (prior_rows_alter_later (sort_values df) f p q r Hp Hq Hkey)
      as (r' & Hp' & Hprior).
    rewrite <-Hs' in Hp', Hprior.
    exact (Hgen df' p r' Hp' Hprior).
  - intros df' q rq f Hq Hkey Hdate Hs'.
    pose proof (later_date_is_later_row df p q r rq Hp Hq Hkey Hdate) as Hlt.
    split; [exact Hlt|].
    destruct (prior_rows_alter_after (sort_values df) f p q r Hp Hlt)
      as [Hp' Hprior].
    rewrite <-Hs' in Hp', Hprior.
    exact (Hgen df' p r Hp' Hprior).
Qed.

Lemma rolling_features_noninterference_witness :
  sort_values (ubc 99) !! 2 = Some ubc_third
  ∧ sort_values (ubc 0) !! 2 = Some ubc_third
  ∧ prior_rows (sort_values (ubc 0)) 2 ubc_third
    = prior_rows (sort_values (ubc 99)) 2 ubc_third
  ∧ sort_values (ubc 0)
    = alter (set_stat Shots (Some (Qc_of_Z 0))) 3 (sort_values (ubc 99))
  ∧ sort_values (ubc 99) !! 3 = Some (ubc_fourth 99)
  ∧ String.compare (date ubc_third) (date (ubc_fourth 99)) = Lt
  ∧ rolling3 Shots <$> form_features_full (ubc 0) !! 2
    = rolling3 Shots <$> form_features_full (ubc 99) !! 2
  ∧ win_rate_rolling5 <$> form_features_full (ubc 0) !! 2
    = win_rate_rolling5 <$> form_features_full (ubc 99) !! 2
  ∧ rolling3 Shots <$> form_features_full (ubc 99) !! 2
    = Some (Some (Qc_of_Z 12)).
Proof.
  assert (H1 : sort_values (ubc 99) !! 2 = Some ubc_third) by reflexivity.
  assert (H2 : sort_values (ubc 0) !! 2 = Some ubc_third) by reflexivity.
  assert (H3 : prior_rows (sort_values (ubc 0)) 2 ubc_third
               = prior_rows (sort_values (ubc 99)) 2 ubc_third)
    by reflexivity.
  assert (H4 : sort_values (ubc 0)
               = alter (set_stat Shots (Some (Qc_of_Z 0))) 3
                   (sort_values (ubc 99))) by reflexivity.
  assert (H5 : present (get Shots
                 <$> window3 (sort_values (ubc 99)) 2 ubc_third) ≠ [])
    by (vm_compute; discriminate).
  assert (H6 : prior_rows (sort_values (ubc 99)) 2 ubc_third ≠ [])
    by (vm_compute; discriminate).
  assert (H7 : sort_values (ubc 99) !! 3 = Some (ubc_fourth 99))
    by reflexivity.
  assert (H8 : String.compare (date ubc_third) (date (ubc_fourth 99)) = Lt)
    by reflexivity.
  destruct (rolling_features_noninterference (ubc 99) 2 ubc_third H1)
    as (Hgen & _ & Hlater).
  destruct (Hgen (ubc 0) 2 ubc_third H2 H3) as [Hstat _].
  destruct (Hlater (ubc 0) 3 (ubc_fourth 99)
              (set_stat Shots (Some (Qc_of_Z 0))) H7 eq_refl H8 H4)
    as (_ & _ & Hwin').
  split_and!; [exact H1|exact H2|exact H3|exact H4|exact H7|exact H8| | |].
  - exact (Hstat Shots H5).
  - exact (Hwin' H6).
  - vm_compute. do 2 f_equal. apply Qc_is_canon. reflexivity.
Defined.

(** C2 (as stated) fails in two ways.  On a season opener the rolling
    value is missing and is filled with the team's mean of the rolling
    column, which is built from the later matches: changing the shots
    of the second match (4, then 8), played a week after the opener,
    changes the opener's [shots_rolling3] (17/2, then 19/2).  And a
    match of the same date as the row (date >= the row's date) that the
    sort places before the row is in its window: with two matches of one
    team on one date, changing the shots of the first (4, then 8)
    changes the [shots_rolling3] of the second (4, then 8), a value that
    is computed and not imputed. *)
Lemma rolling3_depends_on_later_and_same_date_matches :
  (sort_values (season_of_three 4) = season_of_three 4
   ∧ sort_values (season_of_three 8)
     = alter (set_stat Shots (Some (Qc_of_Z 8))) 1
         (sort_values (season_of_three 4))
   ∧ sort_values (season_of_three 4) !! 0 = Some opener
   ∧ (∀ r, sort_values (season_of_three 4) !! 1 = Some r →
        season_team r = season_team opener
        ∧ String.compare (date opener) (date r) = Lt)
   ∧ rolling3 Shots <$> form_features_full (season_of_three 4) !! 0
     = Some (Some (Q2Qc (17 # 2)))
   ∧ rolling3 Shots <$> form_features_full (season_of_three 8) !! 0
     = Some (Some (Q2Qc (19 # 2)))
   ∧ rolling3 Shots <$> form_features_full (season_of_three 4) !! 0
     ≠ rolling3 Shots <$> form_features_full (season_of_three 8) !! 0)
  ∧ (sort_values (same_date_pair 4) = same_date_pair 4
     ∧ sort_values (same_date_pair 8)
       = alter (set_stat Shots (Some (Qc_of_Z 8))) 0
           (sort_values (same_date_pair 4))
     ∧ sort_values (same_date_pair 4) !! 1 = Some same_date_second
     ∧ (∀ r, sort_values (same_date_pair 4) !! 0 = Some r →
          season_team r = season_team same_date_second
          ∧ String.compare (date same_date_second) (date r) = Eq)
     ∧ present (get Shots <$> window3 (sort_values (same_date_pair 4)) 1
                                same_date_second) ≠ []
     ∧ rolling3 Shots <$> form_features_full (same_date_pair 4) !! 1
       = Some (Some (Qc_of_Z 4))
     ∧ rolling3 Shots <$> form_features_full (same_date_pair 8) !! 1
       = Some (Some (Qc_of_Z 8))
     ∧ rolling3 Shots <$> form_features_full (same_date_pair 4) !! 1
       ≠ rolling3 Shots <$> form_features_full (same_date_pair 8) !! 1).
Proof.
  split.
  - split_and!; try reflexivity.
    + by intros r [= <-].
    + vm_compute. intros [=].
  - split_and!; try reflexivity.
    + by intros r [= <-].
    + vm_compute. discriminate.
    + vm_compute. intros [=].
Qed.






End FormEngineClaims.

(** ** Properties of the Opponent Differencer *)

Module OpponentDiffProofs.
Import Pandas PandasProofs Features FormEngine OpponentDiff.

Section pairs.
Context {A : Type} (mid tm : A → string).

(** The pairs of match [m] in the filtered self-merge are the pairings
    of the rows of [m]. *)
Lemma opponent_pairs_of_match_gen (m : string) (left right : list A) :
  filter (λ pr, mid pr.1 = m)
    (filter (λ pr, tm pr.1 ≠ tm pr.2) (merge_on mid mid left right))
  = a ← filter (λ r, mid r = m) left;
    (λ b, (a, b)) <$> filter (λ b, tm a ≠ tm b) (filter (λ r, mid r = m) right).
Proof.
  unfold merge_on. induction left as [|l left IH]; [done|].
  rewrite bind_cons, !filter_app, IH. clear IH.
  rewrite filter_cons. destruct (decide (mid l = m)) as [Hm|Hm].
  - rewrite bind_cons. f_equal.
    rewrite filter_pair_fmap. simpl.
    rewrite filter_pair_fmap. simpl.
    f_equal. rewrite Hm.
    rewrite (list_filter_filter_r (λ _, m = m)) by done. done.
  - rewrite filter_pair_fmap. simpl.
    rewrite filter_pair_fmap_nil; [done|]. by intros b.
Qed.

Lemma opponent_pairs_of_match (m : string) (df : list A) :
  filter (λ pr, mid pr.1 = m) (opponent_pairs mid tm df)
  = pairings tm (filter (λ r, mid r = m) df).
Proof. apply opponent_pairs_of_match_gen. Qed.
End pairs.


Lemma pairings_two {A} (tm : A → string) (a b : A) :
  tm a ≠ tm b → pairings tm [a; b] = [(a, b); (b, a)].
Proof.
  intros Hne. unfold pairings. simpl.
  rewrite (filter_cons_False _ a) by naive_solver.
  rewrite (filter_cons_True _ b) by done.
  rewrite (filter_cons_True _ a) by done.
  rewrite (filter_cons_False _ b) by naive_solver.
  done.
Qed.

Lemma sub_neg (x y : option Qc) : sub x y = neg (sub y x).
Proof.
  destruct x as [x|], y as [y|]; simpl; try done.
  f_equal. unfold Qcminus. ring.
Qed.

End OpponentDiffProofs.

(** ** The claims on the Opponent Differencer *)

Module OpponentDiffClaims.
Import Pandas PandasProofs Features FormEngine OpponentDiff.
Import OpponentDiffProofs Scenarios OpponentTerms FloatCells.

(** The rows of a match in [features_opponent.csv]. *)
Lemma add_opponent_features_of_match df m :
  opponent_rows_of_match m (add_opponent_features df)
  = (λ pr, {| own := pr.1;
              goal_diff := sub (goals pr.1) (goals pr.2);
              shot_diff := sub (shots pr.1) (shots pr.2);
              sog_diff := sub (sog pr.1) (sog pr.2);
              assist_diff := sub (assists pr.1) (assists pr.2);
              G_mean_diff := sub (G_mean pr.1) (G_mean pr.2);
              SH_mean_diff := sub (SH_mean pr.1) (SH_mean pr.2);
              SOG_mean_diff := sub (SOG_mean pr.1) (SOG_mean pr.2);
              A_mean_diff := sub (A_mean pr.1) (A_mean pr.2) |})
    <$> pairings team (of_match m df).
Proof.
  unfold opponent_rows_of_match, add_opponent_features, of_match.
  rewrite filter_fmap_list. simpl.
  by rewrite (opponent_pairs_of_match match_id team).
Qed.

(** The rows of a match in [features_prematch_full.csv]. *)
Lemma build_prematch_features_full_of_match df m :
  full_rows_of_match m (build_prematch_features_full df)
  = (λ pr, {| form := pr.1;
              shots_form_diff := sub (shots_rolling3 pr.1) (shots_rolling3 pr.2);
              sog_form_diff := sub (sog_rolling3 pr.1) (sog_rolling3 pr.2);
              assists_form_diff :=
                sub (assists_rolling3 pr.1) (assists_rolling3 pr.2);
              player_count_form_diff :=
                sub (player_count_rolling3 pr.1) (player_count_rolling3 pr.2);
              avg_player_year_form_diff :=
                sub (avg_player_year_rolling3 pr.1)
                    (avg_player_year_rolling3 pr.2);
              win_rate_diff :=
                sub (win_rate_rolling5 pr.1) (win_rate_rolling5 pr.2) |})
    <$> pairings form_team (form_of_match m (form_features_full df)).
Proof.
  unfold full_rows_of_match, build_prematch_features_full, form_of_match.
  rewrite filter_fmap_list. simpl.
  by rewrite (opponent_pairs_of_match form_match_id form_team).
Qed.

(** A difference is equal to the negated opposite difference exactly
    when both values are present. *)
Lemma float_eq_sub_neg (x y : option Qc) :
  float_eq (sub x y) (neg (sub y x)) = true ↔ is_Some x ∧ is_Some y.
Proof.
  destruct x as [x|], y as [y|]; simpl.
  - rewrite bool_decide_eq_true. split; [by split; eexists|].
    intros _. unfold Qcminus. ring.
  - split; [done|]. by intros [_ [? ?]].
  - split; [done|]. by intros [[? ?] _].
  - split; [done|]. by intros [[? ?] _].
Qed.

(** C3 (amended): when the table that enters the differencer holds
    exactly two rows for a match, with distinct teams A and B, the output
    holds exactly one row for each perspective; every diff column of a
    row is the own value minus the value of the other team, and the diff
    of A's row is equal to the negated diff of B's row exactly when both
    teams have a value of the statistic (with a missing value both diffs
    are NaN, and NaN is equal to nothing).  This holds for the raw diffs
    of [add_opponent_features.py] and for the form diffs and the win-rate
    diff of [build_prematch_features_full.py]. *)
Theorem opponent_diffs_are_negated (df : list Row) (m : string) :
  (∀ a b, of_match m df = [a; b] → team a ≠ team b →
     ∃ ra rb,
       opponent_rows_of_match m (add_opponent_features df) = [ra; rb]
       ∧ own ra = a ∧ own rb = b
       ∧ ∀ c,
           diff c ra = sub (compared c a) (compared c b)
           ∧ diff c rb = sub (compared c b) (compared c a)
           ∧ (float_eq (diff c ra) (neg (diff c rb)) = true
              ↔ is_Some (compared c a) ∧ is_Some (compared c b)))
  ∧ (∀ a b, form_of_match m (form_features_full df) = [a; b] →
       form_team a ≠ form_team b →
     ∃ ra rb,
       full_rows_of_match m (build_prematch_features_full df) = [ra; rb]
       ∧ form ra = a ∧ form rb = b
       ∧ (∀ c,
            form_diff c ra = sub (rolling3 c a) (rolling3 c b)
            ∧ form_diff c rb = sub (rolling3 c b) (rolling3 c a)
            ∧ (float_eq (form_diff c ra) (neg (form_diff c rb)) = true
               ↔ is_Some (rolling3 c a) ∧ is_Some (rolling3 c b)))
       ∧ win_rate_diff ra = sub (win_rate_rolling5 a) (win_rate_rolling5 b)
       ∧ win_rate_diff rb = sub (win_rate_rolling5 b) (win_rate_rolling5 a)
       ∧ (float_eq (win_rate_diff ra) (neg (win_rate_diff rb)) = true
          ↔ is_Some (win_rate_rolling5 a) ∧ is_Some (win_rate_rolling5 b))).
Proof.
  split.
  - intros a b Hab Hne.
    rewrite add_opponent_features_of_match, Hab, pairings_two by done.
    eexists _, _. split_and!; [reflexivity|done|done|].
    intros []; simpl; (split_and!; [done|done|apply float_eq_sub_neg]).
  - intros a b Hab Hne.
    rewrite build_prematch_features_full_of_match, Hab, pairings_two by done.
    eexists _, _.
    split_and!; [reflexivity|done|done| |done|done|apply float_eq_sub_neg].
    intros []; simpl; (split_and!; [done|done|apply float_eq_sub_neg]).
Qed.

(** The scenario of the specification: match "M" with 12 shots for team A
    and 9 for team B gives [shot_diff] 3 and -3.  In the return match
    "M2" the rolling shots are these 12 and 9, and the form diff is 3
    and -3; the win rates are 1 and 0, and their diff is 1 and -1. *)
Lemma opponent_diffs_are_negated_witness :
  (∃ a b ra rb,
    of_match "M" match_M = [a; b] ∧ team a ≠ team b
    ∧ opponent_rows_of_match "M" (add_opponent_features match_M) = [ra; rb]
    ∧ shot_diff ra = Some (Qc_of_Z 3) ∧ shot_diff rb = Some (Qc_of_Z (-3))
    ∧ float_eq (diff ShotDiff ra) (neg (diff ShotDiff rb)) = true)
  ∧ (∃ a b ra rb,
    form_of_match "M2" (form_features_full return_match) = [a; b]
    ∧ form_team a ≠ form_team b
    ∧ full_rows_of_match "M2" (build_prematch_features_full return_match)
      = [ra; rb]
    ∧ form_diff Shots ra = Some (Qc_of_Z 3)
    ∧ form_diff Shots rb = Some (Qc_of_Z (-3))
    ∧ float_eq (form_diff Shots ra) (neg (form_diff Shots rb)) = true
    ∧ win_rate_diff ra = Some (Qc_of_Z 1)
    ∧ win_rate_diff rb = Some (Qc_of_Z (-1))
    ∧ float_eq (win_rate_diff ra) (neg (win_rate_diff rb)) = true).
Proof.
  split.
  - destruct (opponent_diffs_are_negated match_M "M") as [Hraw _].
    eexists _, _.
    destruct (Hraw _ _ eq_refl) as (ra & rb & Hrows & Ha & Hb & Hdiff);
      [by vm_compute|].
    exists ra, rb.
    destruct (Hdiff ShotDiff) as (Hda & Hdb & Heq).
    split_and!; [reflexivity|by vm_compute|done| | |].
    + change (diff ShotDiff ra = Some (Qc_of_Z 3)). rewrite Hda.
      vm_compute. reflexivity.
    + change (diff ShotDiff rb = Some (Qc_of_Z (-3))). rewrite Hdb.
      vm_compute. reflexivity.
    + apply Heq. split; by eexists.
  - destruct (opponent_diffs_are_negated return_match "M2") as [_ Hform].
    let v := eval vm_compute in
      (form_of_match "M2" (form_features_full return_match)) in
    match v with [?x; ?y] => pose (a := x); pose (b := y) end.
    assert (Hab : form_of_match "M2" (form_features_full return_match)
                  = [a; b]) by (vm_compute; reflexivity).
    assert (Hne : form_team a ≠ form_team b) by (by vm_compute).
    destruct (Hform a b Hab Hne)
      as (ra & rb & Hrows & Ha & Hb & Hdiff & Hwa & Hwb & Hweq).
    destruct (Hdiff Shots) as (Hda & Hdb & Heq).
    exists a, b, ra, rb.
    split_and!; [exact Hab|exact Hne|exact Hrows| | | | | |].
    + rewrite Hda. vm_compute. reflexivity.
    + rewrite Hdb. vm_compute. reflexivity.
    + apply Heq. split; by eexists.
    + rewrite Hwa. vm_compute. reflexivity.
    + rewrite Hwb. vm_compute. reflexivity.
    + apply Hweq. split; by eexists.
Defined.

(** C3 (as stated) fails where a value is missing.  In match "N" the
    player means of team B are missing, so [G_mean_diff] is NaN in both
    rows; in the table that holds match "M" alone no team has a prior
    match, so every rolling value and every form diff is NaN.  In both
    cases A.diff == -B.diff is false. *)
Lemma missing_value_diffs_are_not_negated :
  (∃ ra rb,
     opponent_rows_of_match "N" (add_opponent_features match_N) = [ra; rb]
     ∧ team (own ra) ≠ team (own rb)
     ∧ diff GMeanDiff ra = None ∧ diff GMeanDiff rb = None
     ∧ float_eq (diff GMeanDiff ra) (neg (diff GMeanDiff rb)) = false)
  ∧ (∃ ra rb,
     full_rows_of_match "M" (build_prematch_features_full match_M) = [ra; rb]
     ∧ form_team (form ra) ≠ form_team (form rb)
     ∧ form_diff Shots ra = None ∧ form_diff Shots rb = None
     ∧ float_eq (form_diff Shots ra) (neg (form_diff Shots rb)) = false
     ∧ float_eq (win_rate_diff ra) (neg (win_rate_diff rb)) = false).
Proof.
  split.
  - eexists _, _. split_and!; [vm_compute; reflexivity|..]; by vm_compute.
  - eexists _, _. split_and!; [vm_compute; reflexivity|..]; by vm_compute.
Qed.




End OpponentDiffClaims.

(** ** Properties of the Match Aggregator *)

Module BuildFeaturesProofs.
Import Pandas PandasProofs Frame BuildFeatures.

(** *** Keys and groups *)

Lemma elem_of_group_keys ks k : k ∈ group_keys ks ↔ k ∈ ks.
Proof.
  unfold group_keys. rewrite (stable_sort_perm pair_le (remove_dups ks)).
  apply elem_of_remove_dups.
Qed.

Lemma NoDup_group_keys ks : NoDup (group_keys ks).
Proof.
  unfold group_keys. rewrite (stable_sort_perm pair_le (remove_dups ks)).
  apply NoDup_remove_dups.
Qed.

Lemma filter_nil_iff' {A} (P : A → Prop) `{∀ x, Decision (P x)} (l : list A) :
  filter P l = [] ↔ Forall (λ x, ¬ P x) l.
Proof.
  induction l as [|x l IH]; [by split|].
  rewrite filter_cons, Forall_cons. destruct (decide (P x)) as [Hx|Hx].
  - split; [done|]. by intros [? _].
  - rewrite IH. tauto.
Qed.

Lemma filter_eq_absent {K} `{EqDecision K} (l : list K) k :
  k ∉ l → filter (λ k', k' = k) l = [].
Proof.
  intros Hk. induction l as [|x l IH]; [done|].
  apply not_elem_of_cons in Hk as [Hne Hk].
  rewrite filter_cons_False by done. by apply IH.
Qed.

Lemma filter_eq_NoDup {K} `{EqDecision K} (l : list K) k :
  NoDup l → k ∈ l → filter (λ k', k' = k) l = [k].
Proof.
  induction 1 as [|x l Hx Hnd IH]; intros Hk; [by apply elem_of_nil in Hk|].
  rewrite filter_cons. destruct (decide (x = k)) as [->|Hne].
  - f_equal. by apply filter_eq_absent.
  - apply elem_of_cons in Hk as [->|Hk]; [done|]. by apply IH.
Qed.

Lemma filter_fmap_key {A K} `{EqDecision K} (f : K → A) (key : A → K)
    (l : list K) k :
  (∀ k', key (f k') = k') →
  filter (λ x, key x = k) (f <$> l) = f <$> filter (λ k', k' = k) l.
Proof.
  intros Hkey. induction l as [|k' l IH]; [done|].
  rewrite fmap_cons, !filter_cons, IH, Hkey. by destruct (decide (k' = k)).
Qed.

Lemma bind_singletons {A B} (g : A → list B) (h : A → B) (l : list A) :
  (∀ x, x ∈ l → g x = [h x]) → l ≫= g = h <$> l.
Proof.
  induction l as [|x l IH]; intros Hg; [done|].
  rewrite bind_cons, fmap_cons, Hg by left. simpl. f_equal.
  apply IH. intros y Hy. apply Hg. by right.
Qed.

Lemma merge_lineups_keys brs lrs k :
  k ∈ bl_key <$> merge_lineups brs lrs ↔ k ∈ box_key <$> brs.
Proof.
  unfold merge_lineups. rewrite !list_elem_of_fmap. split.
  - intros (r & -> & Hr). apply list_elem_of_bind in Hr as (b & Hr & Hb).
    exists b. split; [|done].
    destruct (filter _ lrs) as [|l ls].
    + apply list_elem_of_singleton in Hr as ->. done.
    + apply list_elem_of_fmap in Hr as (l' & -> & _). done.
  - intros (b & -> & Hb).
    destruct (filter (λ l, (l_player l, l_team l) = (b_player b, b_team b)) lrs)
      as [|l ls] eqn:Hf.
    + exists {| bl_box := b; bl_position_group := None; bl_year_num := None |}.
      split; [done|]. apply list_elem_of_bind. exists b. split; [|done].
      rewrite Hf. by left.
    + exists {| bl_box := b; bl_position_group := Some (l_position_group l);
                bl_year_num := l_year_num l |}.
      split; [done|]. apply list_elem_of_bind. exists b. split; [|done].
      rewrite Hf. by left.
Qed.

(** *** The features table: one row per key of the boxscore *)

Lemma ts_key_stats_of brs k : ts_key (stats_of brs k) = k.
Proof. by destruct k. Qed.

Lemma roster_key_roster_of bl k : roster_key (roster_of bl k) = k.
Proof. by destruct k. Qed.

Lemma features_spec brs lrs :
  features (team_stats brs) (roster_summary (merge_lineups brs lrs))
  = feature_of brs (merge_lineups brs lrs) <$> group_keys (box_key <$> brs).
Proof.
  unfold features, team_stats, roster_summary.
  set (bl := merge_lineups brs lrs).
  rewrite list_fmap_bind. apply bind_singletons. intros k Hk. simpl.
  rewrite ts_key_stats_of.
  rewrite (filter_fmap_key (roster_of bl) roster_key)
    by apply roster_key_roster_of.
  rewrite filter_eq_NoDup; [done|apply NoDup_group_keys|].
  apply elem_of_group_keys, merge_lineups_keys.
  exact (proj1 (elem_of_group_keys _ _) Hk).
Qed.

Lemma feature_key_feature_of brs bl k : feature_key (feature_of brs bl k) = k.
Proof. unfold feature_key. apply ts_key_stats_of. Qed.

(** The features rows of one key: one if the key has player rows. *)
Lemma features_of_key brs lrs k :
  filter (λ f, feature_key f = k)
    (features (team_stats brs) (roster_summary (merge_lineups brs lrs)))
  = if bool_decide (k ∈ box_key <$> brs)
    then [feature_of brs (merge_lineups brs lrs) k] else [].
Proof.
  rewrite features_spec.
  rewrite (filter_fmap_key _ feature_key) by apply feature_key_feature_of.
  case_bool_decide as Hk.
  - rewrite filter_eq_NoDup; [done|apply NoDup_group_keys|].
    by apply elem_of_group_keys.
  - rewrite filter_eq_absent; [done|]. by rewrite elem_of_group_keys.

Qed.

(** *** The merge with the fixtures *)

Lemma merge_on_of_match (side : MatchRow → string) fs mrs m fx :
  filter (λ x, m_match_id x = m) mrs = [fx] →
  filter (λ pr : FeatureRow * MatchRow, (feature_key pr.1).1 = m)
    (merge_on feature_key (λ x, (m_match_id x, side x)) fs mrs)
  = (λ f, (f, fx)) <$> filter (λ f, feature_key f = (m, side fx)) fs.
Proof.
  intros Hfx. unfold merge_on. induction fs as [|f fs IH]; [done|].
  rewrite bind_cons, filter_app, IH. clear IH.
  rewrite filter_pair_fmap. simpl.
  rewrite (filter_cons _ f).
  destruct (feature_key f) as [m' t] eqn:Hkey. simpl.
  assert (Hmid : ts_match_id (f_stats f) = m')
    by (unfold feature_key, ts_key in Hkey; by injection Hkey).
  rewrite Hmid.
  destruct (decide (m' = m)) as [->|Hm].
  - rewrite list_filter_filter_r by done.
    replace (filter (λ x, (m_match_id x, side x) = (m, t)) mrs)
      with (filter (λ x, side x = t) (filter (λ x, m_match_id x = m) mrs)).
    2:{ rewrite list_filter_filter. apply list_filter_iff. intros x.
        split; [by intros [<- <-]|by intros [= <- <-]]. }
    rewrite Hfx, filter_cons, filter_nil.
    destruct (decide (side fx = t)) as [<-|Hside].
    + by rewrite decide_True.
    + rewrite decide_False by (by intros [= ?]). done.
  - rewrite decide_False by (by intros [= ?]).
    rewrite (proj2 (filter_nil_iff' _ _)); [done|].
    apply Forall_forall. by intros x _ ?.
Qed.

Lemma apply_result_row rows out :
  apply_result rows = Ok out → row <$> out = rows.
Proof.
  revert out. induction rows as [|r rows IH]; intros out Hout; simpl in Hout.
  - by injection Hout as <-.
  - destruct (result r) as [v|e]; [|done]. simpl in Hout.
    destruct (apply_result rows) as [out'|e]; [|done]. simpl in Hout.
    injection Hout as <-. rewrite fmap_cons. simpl. f_equal. by apply IH.
Qed.

Lemma build_features_inv parse format matches box lineups out :
  build_features parse format matches box lineups = Ok out →
  ∃ brs lrs mrs,
    box_rows parse box = Ok brs ∧ lineup_rows lineups = Ok lrs
    ∧ match_rows format matches = Ok mrs ∧ aggregate brs lrs mrs = Ok out.
Proof.
  unfold build_features. intros Hout.
  destruct (box_rows parse box) as [brs|]; [|done].
  destruct (lineup_rows lineups) as [lrs|]; [|done].
  destruct (match_rows format matches) as [mrs|]; [|done].
  by exists brs, lrs, mrs.
Qed.

Lemma combined_of_match brs lrs mrs m fx :
  filter (λ x, m_match_id x = m) mrs = [fx] →
  side_of <$> filter (λ c, ts_match_id (f_stats (c_features c)) = m)
    (combined (features (team_stats brs)
                 (roster_summary (merge_lineups brs lrs))) mrs)
  = (if resolvable brs m (m_home_team fx) then [(m_home_team fx, 1%Z)] else [])
    ++ (if resolvable brs m (m_away_team fx) then [(m_away_team fx, 0%Z)] else []).
Proof.
  intros Hfx. unfold combined. rewrite filter_app, fmap_app.
  rewrite !filter_fmap_list, <-!list_fmap_compose.
  f_equal.
  - rewrite (list_filter_iff _ (λ pr, (feature_key pr.1).1 = m)) by done.
    rewrite (merge_on_of_match m_home_team _ _ m fx Hfx), <-list_fmap_compose.
    rewrite features_of_key. unfold resolvable.
    by destruct (bool_decide ((m, m_home_team fx) ∈ box_key <$> brs)).
  - rewrite (list_filter_iff _ (λ pr, (feature_key pr.1).1 = m)) by done.
    rewrite (merge_on_of_match m_away_team _ _ m fx Hfx), <-list_fmap_compose.
    rewrite features_of_key. unfold resolvable.
    by destruct (bool_decide ((m, m_away_team fx) ∈ box_key <$> brs)).
Qed.

Lemma sides_of_match_aggregate brs lrs mrs out m fx :
  aggregate brs lrs mrs = Ok out →
  filter (λ x, m_match_id x = m) mrs = [fx] →
  sides_of_match m out
  = (if resolvable brs m (m_home_team fx) then [(m_home_team fx, 1%Z)] else [])
    ++ (if resolvable brs m (m_away_team fx) then [(m_away_team fx, 0%Z)] else []).
Proof.
  intros Hout Hfx. unfold aggregate in Hout.
  apply apply_result_row in Hout.
  rewrite <-(combined_of_match brs lrs mrs m fx Hfx), <-Hout.
  unfold sides_of_match. rewrite filter_fmap_list, <-list_fmap_compose. done.
Qed.

(** *** Counting and proportions *)

Lemma Qc_of_nat_add a b : Qc_of_nat (a + b) = (Qc_of_nat a + Qc_of_nat b)%Qc.
Proof.
  unfold Qc_of_nat, Qc_of_Z. rewrite Nat2Z.inj_add.
  apply Qc_is_canon. simpl. rewrite !Qred_correct, inject_Z_plus. reflexivity.
Qed.

Lemma Qc_of_nat_0 : Qc_of_nat 0 = 0%Qc.
Proof. by apply Qc_is_canon. Qed.

Lemma Qc_of_nat_nonzero n : n ≠ 0 → Qc_of_nat n ≠ 0%Qc.
Proof.
  intros Hn Heq. apply Hn. apply (f_equal this) in Heq.
  unfold Qc_of_nat, Qc_of_Z in Heq. simpl in Heq.
  assert (Hq : (inject_Z (Z.of_nat n) == 0)%Q).
  { rewrite <-(Qred_correct (inject_Z (Z.of_nat n))), Heq. reflexivity. }
  unfold Qeq in Hq. simpl in Hq. lia.
Qed.

Lemma occurrences_cons g x xs :
  occurrences g (x :: xs) = (if decide (x = g) then 1 else 0) + occurrences g xs.
Proof.
  unfold occurrences. rewrite filter_cons. by destruct (decide (x = g)).
Qed.

Lemma occurrences_absent g xs : g ∉ xs → occurrences g xs = 0.
Proof. intros Hg. unfold occurrences. by rewrite filter_eq_absent. Qed.

(** Each element of a duplicate-free key list is counted once. *)
Lemma sum_indicator (K : list string) x :
  NoDup K → x ∈ K →
  sum_list ((λ g, if decide (x = g) then 1 else 0) <$> K) = 1.
Proof.
  induction 1 as [|k K Hk Hnd IH]; intros Hx; [by apply elem_of_nil in Hx|].
  rewrite fmap_cons. simpl. destruct (decide (x = k)) as [->|Hne].
  - f_equal. clear IH Hx Hnd. induction K as [|k' K IH]; [done|].
    apply not_elem_of_cons in Hk as [Hne Hk].
    rewrite fmap_cons. simpl. rewrite decide_False by done. by apply IH.
  - apply elem_of_cons in Hx as [->|Hx]; [done|]. by apply IH.
Qed.

Lemma sum_occurrences (K xs : list string) :
  NoDup K → Forall (λ x, x ∈ K) xs →
  sum_list ((λ g, occurrences g xs) <$> K) = length xs.
Proof.
  intros Hnd. induction 1 as [|x xs Hx Hxs IH].
  - induction K as [|k K IHK]; [done|].
    rewrite fmap_cons. simpl. apply IHK. by apply NoDup_cons in Hnd as [_ ?].
  - assert (Hsplit : sum_list ((λ g, occurrences g (x :: xs)) <$> K)
        = sum_list ((λ g, if decide (x = g) then 1 else 0) <$> K)
          + sum_list ((λ g, occurrences g xs) <$> K)).
    { clear. induction K as [|k K IHK]; [done|].
      rewrite !fmap_cons. simpl. rewrite occurrences_cons, IHK. lia. }
    rewrite Hsplit, IH, sum_indicator by done. done.
Qed.

Lemma total_shares (f : string → nat) (d : Qc) (K : list string) :
  total ((λ g, Qc_of_nat (f g) / d)%Qc <$> K)
  = (Qc_of_nat (sum_list (f <$> K)) / d)%Qc.
Proof.
  induction K as [|k K IH].
  - simpl. rewrite Qc_of_nat_0. unfold Qcdiv. ring.
  - rewrite !fmap_cons. simpl. rewrite IH, Qc_of_nat_add. unfold Qcdiv. ring.
Qed.

(** The proportions of the groups of [K] sum to 1 when every value is
    in [K]. *)
Lemma total_shares_one (K xs : list string) :
  NoDup K → Forall (λ x, x ∈ K) xs → xs ≠ [] →
  total ((λ g, Qc_of_nat (occurrences g xs) / Qc_of_nat (length xs))%Qc <$> K)
  = 1%Qc.
Proof.
  intros Hnd Hxs Hne.
  rewrite (total_shares (λ g, occurrences g xs)), sum_occurrences by done.
  apply Qcmult_inv_r, Qc_of_nat_nonzero. by destruct xs.
Qed.

(** The entry of a group in the dictionary of [value_counts], with the
    [fillna(0)] of the expansion. *)
Lemma value_counts_lookup xs g :
  default 0%Qc (value_counts_normalize xs !! g)
  = (Qc_of_nat (occurrences g xs) / Qc_of_nat (length xs))%Qc.
Proof.
  unfold value_counts_normalize.
  destruct (decide (g ∈ xs)) as [Hg|Hg].
  - erewrite elem_of_list_to_map_1; [done| |].
    + rewrite <-list_fmap_compose. simpl. rewrite list_fmap_id.
      apply NoDup_remove_dups.
    + apply list_elem_of_fmap. exists g. split; [done|].
      by apply elem_of_remove_dups.
  - rewrite (proj1 (not_elem_of_list_to_map _ _)).
    + simpl. rewrite occurrences_absent, Qc_of_nat_0 by done.
      unfold Qcdiv. ring.
    + rewrite <-list_fmap_compose. simpl. rewrite list_fmap_id.
      by rewrite elem_of_remove_dups.
Qed.

Lemma total_perm (l l' : list Qc) : l ≡ₚ l' → total l = total l'.
Proof.
  induction 1 as [|x l l' _ IH|x y l|l l' l'' _ IH1 _ IH2]; simpl.
  - done.
  - by rewrite IH.
  - ring.
  - by rewrite IH1.
Qed.

(** The entries of the dictionary of [value_counts] sum to 1. *)
Lemma dict_total_value_counts xs :
  xs ≠ [] → dict_total (value_counts_normalize xs) = 1%Qc.
Proof.
  intros Hne. unfold dict_total, value_counts_normalize.
  rewrite (total_perm _
    ((λ g, (g, (Qc_of_nat (occurrences g xs) / Qc_of_nat (length xs))%Qc))
       <$> remove_dups xs).*2).
  - rewrite <-list_fmap_compose.
    apply (total_shares_one (remove_dups xs) xs);
      [apply NoDup_remove_dups| |done].
    apply Forall_forall. intros x Hx. by apply elem_of_remove_dups.
  - apply fmap_Permutation, map_to_list_to_map.
    rewrite <-list_fmap_compose. simpl. rewrite list_fmap_id.
    apply NoDup_remove_dups.
Qed.

Lemma NoDup_GROUP_COLUMNS : NoDup GROUP_COLUMNS.
Proof. apply (bool_decide_unpack (NoDup GROUP_COLUMNS)). by vm_compute. Qed.

(** *** The rows of the output *)

Lemma combined_features fs mrs c :
  c ∈ combined fs mrs → c_features c ∈ fs.
Proof.
  unfold combined, merge_on. intros Hc.
  apply elem_of_app in Hc as [Hc|Hc];
    apply list_elem_of_fmap in Hc as ([f x] & -> & Hc);
    apply list_elem_of_bind in Hc as (f' & Hc & Hf');
    apply list_elem_of_fmap in Hc as (x' & [= -> ->] & _); done.
Qed.

(** Every output row carries the aggregate of the player rows of its
    key, and the roster of that key. *)
Lemma aggregate_row brs lrs mrs out r :
  aggregate brs lrs mrs = Ok out → r ∈ out →
  row_key r ∈ box_key <$> brs
  ∧ c_features (row r) = feature_of brs (merge_lineups brs lrs) (row_key r).
Proof.
  intros Hout Hr. unfold aggregate in Hout.
  apply apply_result_row in Hout.
  assert (Hc : row r ∈ row <$> out) by (apply list_elem_of_fmap; by exists r).
  rewrite Hout in Hc. apply combined_features in Hc.
  rewrite features_spec in Hc.
  apply list_elem_of_fmap in Hc as (k & Hk & Hin).
  assert (Hkey : row_key r = k).
  { unfold row_key, row_match_id, row_team. rewrite Hk. by destruct k. }
  rewrite Hkey. split; [|done]. exact (proj1 (elem_of_group_keys _ _) Hin).
Qed.

Lemma players_of_nonempty brs k :
  k ∈ box_key <$> brs → players_of brs k ≠ [].
Proof.
  intros (b & -> & Hb)%list_elem_of_fmap Hnil.
  assert (Hin : b ∈ players_of brs (box_key b))
    by (by apply list_elem_of_filter).
  rewrite Hnil in Hin. by apply elem_of_nil in Hin.
Qed.

Lemma position_share_row brs lrs mrs out r g :
  aggregate brs lrs mrs = Ok out → r ∈ out →
  position_share g r
  = Some (Qc_of_nat
            (occurrences g (matched_positions (merge_lineups brs lrs) (row_key r)))
          / Qc_of_nat
              (length (matched_positions (merge_lineups brs lrs) (row_key r))))%Qc.
Proof.
  intros Hout Hr.
  destruct (aggregate_row brs lrs mrs out r Hout Hr) as [_ Hf].
  unfold position_share. rewrite Hf. simpl. f_equal.
  apply value_counts_lookup.
Qed.

Lemma position_shares_total_row brs lrs mrs out r :
  aggregate brs lrs mrs = Ok out → r ∈ out →
  matched_positions (merge_lineups brs lrs) (row_key r) ≠ [] →
  position_shares_total r = Some 1%Qc.
Proof.
  intros Hout Hr Hne.
  destruct (aggregate_row brs lrs mrs out r Hout Hr) as [_ Hf].
  unfold position_shares_total. rewrite Hf. simpl. f_equal.
  by apply dict_total_value_counts.
Qed.

(** The matched position groups are position groups of the lineups. *)
Lemma matched_positions_lineups brs lrs k g :
  g ∈ matched_positions (merge_lineups brs lrs) k →
  g ∈ l_position_group <$> lrs.
Proof.
  unfold matched_positions, roster_group, merge_lineups.
  intros (r & Hr & Hg)%list_elem_of_omap.
  apply list_elem_of_filter in Hr as [_ Hr].
  apply list_elem_of_bind in Hr as (b & Hr & _).
  destruct (filter (λ l, (l_player l, l_team l) = (b_player b, b_team b)) lrs)
    as [|l ls] eqn:Hf.
  - apply list_elem_of_singleton in Hr as ->. done.
  - apply list_elem_of_fmap in Hr as (l' & -> & Hl'). simpl in Hg.
    injection Hg as <-. apply list_elem_of_fmap. exists l'. split; [done|].
    rewrite <-Hf in Hl'. by apply list_elem_of_filter in Hl' as [_ ?].
Qed.

(** *** Step 4: the numeric columns of the boxscore *)

Lemma get_column_None name (df : DataFrame) :
  get_column name df = None ↔ has_column name df = false.
Proof.
  unfold has_column, names. rewrite bool_decide_eq_false.
  induction df as [|[n c] df IH]; simpl.
  - split; [intros _; apply not_elem_of_nil|done].
  - rewrite not_elem_of_cons. destruct (decide (n = name)) as [->|Hne].
    + split; [done|]. by intros [? _].
    + rewrite IH. split; [by split|by intros [_ ?]].
Qed.

Lemma get_set_column name c (df : DataFrame) :
  get_column name (set_column name c df) = Some c.
Proof.
  induction df as [|[n c'] df IH]; simpl.
  - by rewrite decide_True.
  - destruct (decide (n = name)) as [->|Hne]; simpl.
    + by rewrite decide_True.
    + by rewrite decide_False.
Qed.

Lemma get_set_column_ne name name' c (df : DataFrame) :
  name' ≠ name →
  get_column name' (set_column name c df) = get_column name' df.
Proof.
  intros Hne. induction df as [|[n c'] df IH]; simpl.
  - by rewrite decide_False.
  - destruct (decide (n = name)) as [->|Hn]; simpl.
    + by rewrite !decide_False.
    + by rewrite IH.
Qed.

(** Replacing a column by one of its own length, or appending a column
    of the length of the table, keeps the number of rows. *)
Lemma nrows_set_column name c (df : DataFrame) :
  (∀ c', get_column name df = Some c' → column_length c = column_length c') →
  (get_column name df = None → column_length c = nrows df) →
  nrows (set_column name c df) = nrows df.
Proof.
  intros Hsome Hnone. destruct df as [|[n c'] df]; simpl in *.
  - by apply Hnone.
  - destruct (decide (n = name)); simpl; [|done]. by apply Hsome.
Qed.

Section step4.
Variable parse : string → option Qc.

Lemma length_to_numeric c : length (to_numeric parse c) = column_length c.
Proof. destruct c; simpl; [done|]. by rewrite length_fmap. Qed.

Lemma get_ensure_numeric col df :
  get_column col (ensure_numeric parse col df)
  = Some (NumCol (ensured parse col df)).
Proof.
  unfold ensure_numeric, ensured.
  destruct (get_column col df); apply get_set_column.
Qed.

Lemma get_ensure_numeric_ne col name df :
  name ≠ col →
  get_column name (ensure_numeric parse col df) = get_column name df.
Proof.
  intros Hne. unfold ensure_numeric.
  destruct (get_column col df); by apply get_set_column_ne.
Qed.

Lemma nrows_ensure_numeric col df :
  nrows (ensure_numeric parse col df) = nrows df.
Proof.
  unfold ensure_numeric. destruct (get_column col df) as [c|] eqn:Hc.
  - apply nrows_set_column; [|by rewrite Hc].
    intros c' Hc'. rewrite Hc in Hc'. injection Hc' as <-. simpl.
    unfold fillna. by rewrite length_fmap, length_to_numeric.
  - apply nrows_set_column; [by rewrite Hc|].
    intros _. simpl. by rewrite length_replicate.
Qed.

Lemma ensured_ensure_numeric_ne col name df :
  name ≠ col →
  ensured parse name (ensure_numeric parse col df) = ensured parse name df.
Proof.
  intros Hne. unfold ensured.
  by rewrite get_ensure_numeric_ne, nrows_ensure_numeric.
Qed.

Lemma nrows_ensure_numeric_columns df :
  nrows (ensure_numeric_columns parse df) = nrows df.
Proof.
  unfold ensure_numeric_columns, STAT_COLUMNS. simpl.
  by rewrite !nrows_ensure_numeric.
Qed.

Lemma get_ensure_numeric_columns name df :
  get_column name (ensure_numeric_columns parse df)
  = if bool_decide (name ∈ STAT_COLUMNS)
    then Some (NumCol (ensured parse name df)) else get_column name df.
Proof.
  unfold ensure_numeric_columns, STAT_COLUMNS. simpl.
  case_bool_decide as Hin.
  - repeat (apply elem_of_cons in Hin as [->|Hin]);
      [..|by apply elem_of_nil in Hin];
      rewrite ?(get_ensure_numeric_ne _ _ _) by done;
      rewrite get_ensure_numeric;
      by rewrite ?ensured_ensure_numeric_ne by done.
  - rewrite !not_elem_of_cons in Hin. destruct Hin as (? & ? & ? & ? & _).
    by rewrite !get_ensure_numeric_ne by done.
Qed.
End step4.

(** *** A missing statistic column *)

Lemma typed_box_rows_ext (df df' : DataFrame) :
  (∀ name, get_column name df = get_column name df') →
  nrows df = nrows df' →
  typed_box_rows df = typed_box_rows df'.
Proof.
  intros Hget Hn. unfold typed_box_rows, text_column, num_column.
  by rewrite !Hget, Hn.
Qed.

Lemma nrows_prepare_box box : nrows (prepare_box box) = nrows box.
Proof.
  destruct box as [|[n c] box]; [done|].
  destruct c; simpl; [done|]. by rewrite length_fmap.
Qed.

Lemma prepare_box_with_zero_column col box :
  col ∈ STAT_COLUMNS →
  prepare_box (with_zero_column col box)
  = prepare_box box ++ [(col, NumCol (replicate (nrows box) (Some 0%Qc)))].
Proof.
  intros Hcol. unfold prepare_box, with_zero_column, clean_text_columns,
    normalize_names, map_names.
  rewrite !fmap_app. f_equal.
  unfold STAT_COLUMNS in Hcol.
  repeat (apply elem_of_cons in Hcol as [->|Hcol]; [reflexivity|]).
  by apply elem_of_nil in Hcol.
Qed.

Lemma get_column_app_single name col c (df : DataFrame) :
  get_column name (df ++ [(col, c)])
  = match get_column name df with
    | Some x => Some x
    | None => if decide (col = name) then Some c else None
    end.
Proof.
  induction df as [|[n c'] df IH]; simpl; [done|].
  by destruct (decide (n = name)).
Qed.

Lemma nrows_app_single col c (df : DataFrame) :
  column_length c = nrows df → nrows (df ++ [(col, c)]) = nrows df.
Proof. by destruct df as [|[n c'] df]. Qed.

Lemma fillna_replicate v n q :
  fillna v (replicate n (Some q)) = replicate n (Some q).
Proof. unfold fillna. by rewrite fmap_replicate. Qed.

Lemma num_at_replicate_zero n i : num_at (replicate n (Some 0%Qc)) i = 0%Qc.
Proof.
  unfold num_at. destruct (replicate n (Some 0%Qc) !! i) as [x|] eqn:Hx; [|done].
  by apply lookup_replicate in Hx as [-> _].
Qed.

Section missing.
Variable parse : string → option Qc.
Variables (col : string) (box : DataFrame).
Hypothesis col_stat : col ∈ STAT_COLUMNS.
Hypothesis col_absent : has_column col (prepare_box box) = false.

Lemma ensured_absent :
  ensured parse col (prepare_box box)
  = replicate (nrows box) (Some 0%Qc).
Proof.
  unfold ensured.
  rewrite (proj2 (get_column_None _ _) col_absent).
  by rewrite nrows_prepare_box.
Qed.

Lemma nrows_prepare_with_zero_column :
  nrows (prepare_box (with_zero_column col box)) = nrows (prepare_box box).
Proof.
  rewrite prepare_box_with_zero_column by done.
  apply nrows_app_single. simpl.
  by rewrite length_replicate, nrows_prepare_box.
Qed.

Lemma ensured_with_zero_column name :
  ensured parse name (prepare_box (with_zero_column col box))
  = ensured parse name (prepare_box box).
Proof.
  unfold ensured. rewrite nrows_prepare_with_zero_column.
  rewrite prepare_box_with_zero_column, get_column_app_single by done.
  destruct (decide (col = name)) as [<-|Hne].
  - rewrite (proj2 (get_column_None _ _) col_absent). simpl.
    by rewrite fillna_replicate, nrows_prepare_box.
  - by destruct (get_column name (prepare_box box)).
Qed.

(** A missing statistic column is the same input as a column of zeros. *)
Lemma box_rows_with_zero_column :
  box_rows parse (with_zero_column col box) = box_rows parse box.
Proof.
  unfold box_rows. apply typed_box_rows_ext.
  - intros name. rewrite !get_ensure_numeric_columns.
    case_bool_decide as Hin.
    + by rewrite ensured_with_zero_column.
    + rewrite prepare_box_with_zero_column, get_column_app_single by done.
      destruct (get_column name (prepare_box box)); [done|].
      rewrite decide_False; [done|]. by intros <-.
  - rewrite !nrows_ensure_numeric_columns.
    apply nrows_prepare_with_zero_column.
Qed.

(** Every player row then has the value 0 in that column. *)
Lemma box_rows_stat_zero brs :
  box_rows parse box = Ok brs →
  Forall (λ b, box_stat col b = Some 0%Qc) brs.
Proof.
  unfold box_rows, typed_box_rows, text_column, num_column.
  rewrite !get_ensure_numeric_columns. simpl.
  destruct (get_column "match_id" (prepare_box box)) as [[|mid]|];
    simpl; [done| |done].
  destruct (get_column "team" (prepare_box box)) as [[|tm]|];
    simpl; [done| |done].
  destruct (get_column "player" (prepare_box box)) as [[|pl]|];
    simpl; [done| |done].
  intros [= <-]. apply Forall_fmap, Forall_forall. intros i _.
  pose proof ensured_absent as Hzero.
  pose proof col_stat as Hcol. clear col_absent.
  unfold box_stat, STAT_COLUMNS in *. simpl.
  repeat (apply elem_of_cons in Hcol as [->|Hcol];
          [simpl; by rewrite Hzero, num_at_replicate_zero|]).
  by apply elem_of_nil in Hcol.
Qed.
End missing.

Lemma total_zero (l : list Qc) : Forall (λ q, q = 0%Qc) l → total l = 0%Qc.
Proof.
  induction 1 as [|q l -> _ IH]; [done|]. simpl. rewrite IH. ring.
Qed.

(** The sums of a zero column are zero in every output row. *)
Lemma aggregate_stat_zero col brs lrs mrs out :
  col ∈ STAT_COLUMNS →
  Forall (λ b, box_stat col b = Some 0%Qc) brs →
  aggregate brs lrs mrs = Ok out →
  Forall (λ r, row_stat col r = Some 0%Qc) out.
Proof.
  intros Hcol Hzero Hout. apply Forall_forall. intros r Hr.
  destruct (aggregate_row brs lrs mrs out r Hout Hr) as [_ Hf].
  unfold row_stat. rewrite Hf. simpl.
  assert (Hgroup : Forall (λ b, box_stat col b = Some 0%Qc)
                     (players_of brs (row_key r))).
  { apply Forall_forall. intros b Hb.
    apply list_elem_of_filter in Hb as [_ Hb].
    by eapply Forall_forall in Hzero. }
  unfold STAT_COLUMNS in Hcol.
  repeat (apply elem_of_cons in Hcol as [->|Hcol];
    [simpl; f_equal; apply total_zero, Forall_fmap;
     eapply Forall_impl; [exact Hgroup|];
     intros b Hb; unfold box_stat in Hb; simpl in Hb; by injection Hb|]).
  by apply elem_of_nil in Hcol.
Qed.

End BuildFeaturesProofs.

(** ** The claims on the Match Aggregator *)

(** ** The proportions in float64 *)

Module FloatSharesProofs.
Import Pandas PandasProofs Frame BuildFeatures BuildFeaturesProofs.
Import FloatShares.
Local Open Scope Qc_scope.

(** *** Linear arithmetic on canonical rationals *)

Lemma Qc_this_plus (x y : Qc) : (this (x + y) == this x + this y)%Q.
Proof. simpl. apply Qred_correct. Qed.

Lemma Qc_this_minus (x y : Qc) : (this (x - y) == this x - this y)%Q.
Proof. unfold Qcminus. simpl. rewrite !Qred_correct. reflexivity. Qed.

Lemma Qc_this_mult (x y : Qc) : (this (x * y) == this x * this y)%Q.
Proof. simpl. apply Qred_correct. Qed.

Lemma Qc_this_Q2Qc (q : Q) : (this (Q2Qc q) == q)%Q.
Proof. simpl. apply Qred_correct. Qed.

Ltac qc_to_q :=
  unfold near, EPS, TOLERANCE, Qcle, Qclt in *;
  repeat match goal with
  | H : context [this (?x + ?y)] |- _ => rewrite (Qc_this_plus x y) in H
  | H : context [this (?x - ?y)] |- _ => rewrite (Qc_this_minus x y) in H
  | H : context [this (?x * ?y)] |- _ => rewrite (Qc_this_mult x y) in H
  | H : context [this (Q2Qc ?q)] |- _ => rewrite (Qc_this_Q2Qc q) in H
  | |- context [this (?x + ?y)] => rewrite (Qc_this_plus x y)
  | |- context [this (?x - ?y)] => rewrite (Qc_this_minus x y)
  | |- context [this (?x * ?y)] => rewrite (Qc_this_mult x y)
  | |- context [this (Q2Qc ?q)] => rewrite (Qc_this_Q2Qc q)
  end.

Lemma Qc_of_nat_this (n : nat) :
  (this (Qc_of_nat n) == inject_Z (Z.of_nat n))%Q.
Proof. unfold Qc_of_nat, Qc_of_Z. apply Qc_this_Q2Qc. Qed.

Lemma Qc_of_nat_le_Z (n : nat) (m : Z) :
  (Z.of_nat n ≤ m)%Z → (this (Qc_of_nat n) <= inject_Z m)%Q.
Proof. intros Hn. rewrite Qc_of_nat_this. by rewrite <-Zle_Qle. Qed.

Lemma Qc_of_nat_S' (n : nat) : Qc_of_nat (S n) = Qc_of_nat n + 1.
Proof.
  replace (S n) with (n + 1)%nat by lia. by rewrite Qc_of_nat_add.
Qed.

Lemma Qc_of_nat_ge_0 (n : nat) : 0 ≤ Qc_of_nat n.
Proof.
  unfold Qcle. rewrite Qc_of_nat_this. change (this 0) with (inject_Z 0).
  rewrite <-Zle_Qle. lia.
Qed.

(** *** The grid rounding meets the error bound *)

Lemma rounds_round_to_grid : rounds round_to_grid.
Proof.
  intros q _ _. unfold round_to_grid.
  pose proof (Qfloor_le (q * inject_Z 9007199254740992 + (1 # 2))) as Hlo.
  pose proof (Qlt_floor (q * inject_Z 9007199254740992 + (1 # 2))) as Hhi.
  rewrite inject_Z_plus in Hhi.
  qc_to_q.
  rewrite (Qmake_Qdiv (Qfloor (q * inject_Z 9007199254740992 + (1 # 2)))
             9007199254740992).
  set (z := inject_Z (Qfloor (q * inject_Z 9007199254740992 + (1 # 2))))
    in *.
  clearbody z.
  change (inject_Z 9007199254740992) with (9007199254740992 # 1)%Q in *.
  change (inject_Z (Z.pos 9007199254740992))
    with (9007199254740992 # 1)%Q in *.
  change (inject_Z 1) with 1%Q in *.
  unfold Qdiv.
  change (/ (9007199254740992 # 1))%Q with (1 # 9007199254740992)%Q.
  split; lra.
Qed.

(** Rounded proportions need not sum to 1 exactly: with one, four and
    one player of six in three groups the rounded proportions sum to
    1 - 2^-53. *)
Lemma rounded_shares_can_miss_one :
  total (round_to_grid <$> [Q2Qc (1 # 6); Q2Qc (4 # 6); Q2Qc (1 # 6)])
  = 1 - EPS
  ∧ 1 - EPS ≠ 1.
Proof.
  split.
  - apply Qc_is_canon. by vm_compute.
  - intros H. by vm_compute in H.
Qed.

(** *** Sums of rounded values *)

Lemma total_nonneg (ps : list Qc) : Forall (λ p, 0 ≤ p) ps → 0 ≤ total ps.
Proof.
  induction 1 as [|p ps Hp _ IH]; [apply Qcle_refl|].
  simpl. replace 0 with (0 + 0) by ring. by apply Qcplus_le_compat.
Qed.

(** The exact sum of values that are each within [EPS] of a term. *)
Lemma total_near (ps fs : list Qc) :
  Forall2 (near EPS) ps fs →
  near (Qc_of_nat (length ps) * EPS) (total ps) (total fs).
Proof.
  induction 1 as [|p f ps fs Hpf _ IH].
  - simpl. rewrite Qc_of_nat_0. qc_to_q. change (this 0) with 0%Q. lra.
  - rewrite length_cons, Qc_of_nat_S'.
    change (total (p :: ps)) with (p + total ps).
    change (total (f :: fs)) with (f + total fs).
    set (n := Qc_of_nat (length ps)) in *. clearbody n.
    set (a := total ps) in *. set (b := total fs) in *. clearbody a b.
    qc_to_q. lra.
Qed.

(** The rounded sum from left to right: two roundings for every term,
    the one of the term and the one of the addition. *)
Lemma float_sum_near_gen (fl : Qc → Qc) (ps fs : list Qc) :
  rounds fl → Forall2 (near EPS) ps fs → Forall (λ p, 0 ≤ p) ps →
  ∀ S0 s0 E0,
    0 ≤ S0 → 0 ≤ E0 → S0 + total ps ≤ 1 →
    E0 + Qc_of_nat (length ps) * (EPS + EPS) ≤ Q2Qc (1 # 2) →
    near E0 S0 s0 →
    near (E0 + Qc_of_nat (length ps) * (EPS + EPS)) (S0 + total ps)
      (foldl (λ s v, fl (s + v)) s0 fs).
Proof.
  intros Hfl Hnear. induction Hnear as [|p f ps fs Hpf _ IH];
    intros Hpos S0 s0 E0 HS0 HE0 Hsum Herr Hs0.
  - simpl. rewrite Qc_of_nat_0. clear Hfl Hpos Hsum Herr HS0 HE0.
    qc_to_q. change (this 0) with 0%Q. lra.
  - apply Forall_cons in Hpos as [Hp Hpos].
    pose proof (total_nonneg ps Hpos) as Htot.
    pose proof (Qc_of_nat_ge_0 (length ps)) as Hn.
    rewrite length_cons, Qc_of_nat_S' in Herr |- *.
    change (total (p :: ps)) with (p + total ps) in Hsum |- *.
    cbn [foldl].
    assert (Hstep : near EPS (s0 + f) (fl (s0 + f))).
    { apply Hfl.
      - clear IH Hfl Hpos. set (n := Qc_of_nat (length ps)) in *.
        set (a := total ps) in *. clearbody n a.
        qc_to_q. change (this 0) with 0%Q in *. change (this 1) with 1%Q in *.
        lra.
      - clear IH Hfl Hpos. set (n := Qc_of_nat (length ps)) in *.
        set (a := total ps) in *. clearbody n a.
        qc_to_q. change (this 0) with 0%Q in *. change (this 1) with 1%Q in *.
        lra. }
    set (s1 := fl (s0 + f)) in *. clearbody s1.
    assert (Hgoal : near (E0 + (EPS + EPS)
                          + Qc_of_nat (length ps) * (EPS + EPS))
                      (S0 + p + total ps)
                      (foldl (λ s v, fl (s + v)) s1 fs)).
    { apply IH; [done| | | | |].
      - clear IH Hfl Hpos. qc_to_q. change (this 0) with 0%Q in *. lra.
      - clear IH Hfl Hpos. qc_to_q. change (this 0) with 0%Q in *. lra.
      - clear IH Hfl Hpos. set (a := total ps) in *. clearbody a.
        qc_to_q. change (this 1) with 1%Q in *. lra.
      - clear IH Hfl Hpos. set (n := Qc_of_nat (length ps)) in *.
        clearbody n. qc_to_q. change (this 1) with 1%Q in *. lra.
      - clear IH Hfl Hpos Herr Hsum. qc_to_q. lra. }
    clear IH Hfl Hpos Hstep.
    set (x := foldl (λ s v, fl (s + v)) s1 fs) in *. clearbody x.
    set (n := Qc_of_nat (length ps)) in *. set (a := total ps) in *.
    clearbody n a. clear Herr Hsum Hs0 Hpf.
    qc_to_q. change (this 1) with 1%Q in *. lra.
Qed.

Lemma float_sum_near (fl : Qc → Qc) (ps fs : list Qc) :
  rounds fl → Forall2 (near EPS) ps fs → Forall (λ p, 0 ≤ p) ps →
  total ps ≤ 1 →
  Qc_of_nat (length ps) * (EPS + EPS) ≤ Q2Qc (1 # 2) →
  near (Qc_of_nat (length ps) * (EPS + EPS)) (total ps) (float_sum fl fs).
Proof.
  intros Hfl Hnear Hpos Hsum Herr.
  pose proof (float_sum_near_gen fl ps fs Hfl Hnear Hpos 0 0 0) as H.
  rewrite !Qcplus_0_l in H. apply H.
  - apply Qcle_refl.
  - apply Qcle_refl.
  - done.
  - done.
  - split; by vm_compute.
Qed.

(** *** The proportions of a row *)

Lemma value_counts_lookup_elem xs g :
  value_counts_normalize xs !! g
  = if decide (g ∈ xs)
    then Some (Qc_of_nat (occurrences g xs) / Qc_of_nat (length xs))
    else None.
Proof.
  unfold value_counts_normalize.
  destruct (decide (g ∈ xs)) as [Hg|Hg].
  - apply elem_of_list_to_map_1.
    + rewrite <-list_fmap_compose. simpl. rewrite list_fmap_id.
      apply NoDup_remove_dups.
    + apply list_elem_of_fmap. exists g. split; [done|].
      by apply elem_of_remove_dups.
  - apply not_elem_of_list_to_map_1.
    rewrite <-list_fmap_compose. simpl. rewrite list_fmap_id.
    by rewrite elem_of_remove_dups.
Qed.

Lemma occurrences_le g xs : (occurrences g xs ≤ length xs)%nat.
Proof. unfold occurrences. apply length_filter. Qed.

(** An exact proportion lies between 0 and 1. *)
Lemma share_bounds g xs :
  xs ≠ [] →
  0 ≤ Qc_of_nat (occurrences g xs) / Qc_of_nat (length xs)
  ∧ Qc_of_nat (occurrences g xs) / Qc_of_nat (length xs) ≤ 1.
Proof.
  intros Hne.
  assert (Hpos : 0 < Qc_of_nat (length xs)).
  { unfold Qclt. rewrite Qc_of_nat_this. change (this 0) with (inject_Z 0).
    rewrite <-Zlt_Qlt. destruct xs; [done|simpl; lia]. }
  assert (Hle : Qc_of_nat (occurrences g xs) ≤ Qc_of_nat (length xs)).
  { unfold Qcle. rewrite !Qc_of_nat_this. rewrite <-Zle_Qle.
    pose proof (occurrences_le g xs). lia. }
  pose proof (Qc_of_nat_ge_0 (occurrences g xs)) as Hocc.
  set (a := Qc_of_nat (occurrences g xs)) in *.
  set (b := Qc_of_nat (length xs)) in *. clearbody a b.
  assert (Hb : b ≠ 0) by (intros ->; by vm_compute in Hpos).
  split.
  - apply (Qcmult_lt_0_le_reg_r _ _ _ Hpos).
    rewrite Qcmult_0_l. unfold Qcdiv.
    by rewrite <-Qcmult_assoc, (Qcmult_comm (/ b)), Qcmult_inv_r, Qcmult_1_r.
  - apply (Qcmult_lt_0_le_reg_r _ _ _ Hpos).
    rewrite Qcmult_1_l. unfold Qcdiv.
    by rewrite <-Qcmult_assoc, (Qcmult_comm (/ b)), Qcmult_inv_r, Qcmult_1_r.
Qed.

(** The float proportions of the columns [K] are within [EPS] of the
    exact proportions. *)
Lemma float_shares_near (fl : Qc → Qc) (K xs : list string) :
  rounds fl → xs ≠ [] →
  Forall2 (near EPS)
    ((λ g, Qc_of_nat (occurrences g xs) / Qc_of_nat (length xs)) <$> K)
    ((λ g, default 0 (fl <$> value_counts_normalize xs !! g)) <$> K).
Proof.
  intros Hfl Hne. apply Forall2_fmap, Forall2_same_length_lookup.
  split; [done|]. intros i g g' Hg Hg'. rewrite Hg in Hg'.
  injection Hg' as <-. rewrite value_counts_lookup_elem.
  destruct (decide (g ∈ xs)) as [Hin|Hin]; simpl.
  - destruct (share_bounds g xs Hne) as [Hlo Hhi].
    apply Hfl.
    + eapply Qclt_le_trans; [|exact Hlo]. by vm_compute.
    + eapply Qcle_lt_trans; [exact Hhi|]. by vm_compute.
  - rewrite occurrences_absent, Qc_of_nat_0 by done.
    replace (0 / Qc_of_nat (length xs)) with 0 by (unfold Qcdiv; ring).
    split; by vm_compute.
Qed.

(** Over columns that cover the groups of the row, at most a million
    of them, the float proportions sum to 1 within the tolerance,
    whether the sum is taken exactly or in float64. *)
Lemma float_shares_sum (fl : Qc → Qc) (K xs : list string) :
  rounds fl → NoDup K → Forall (λ x, x ∈ K) xs → xs ≠ [] →
  (Z.of_nat (length K) ≤ 1000000)%Z →
  near TOLERANCE 1
    (total ((λ g, default 0 (fl <$> value_counts_normalize xs !! g)) <$> K))
  ∧ near TOLERANCE 1
      (float_sum fl
         ((λ g, default 0 (fl <$> value_counts_normalize xs !! g)) <$> K)).
Proof.
  intros Hfl Hnd Hxs Hne Hlen.
  set (ps := (λ g, Qc_of_nat (occurrences g xs) / Qc_of_nat (length xs))
               <$> K).
  set (fs := (λ g, default 0 (fl <$> value_counts_normalize xs !! g)) <$> K).
  assert (Hnear : Forall2 (near EPS) ps fs) by (by apply float_shares_near).
  assert (Htot : total ps = 1) by (by apply total_shares_one).
  assert (Hpos : Forall (λ p, 0 ≤ p) ps).
  { apply Forall_fmap, Forall_forall. intros g _. simpl.
    by destruct (share_bounds g xs Hne). }
  assert (Hk : (this (Qc_of_nat (length ps)) <= inject_Z 1000000)%Q).
  { apply Qc_of_nat_le_Z. unfold ps. rewrite length_fmap. lia. }
  pose proof (Qc_of_nat_ge_0 (length ps)) as Hk0.
  pose proof (total_near ps fs Hnear) as H1.
  assert (Herr : Qc_of_nat (length ps) * (EPS + EPS) ≤ Q2Qc (1 # 2)).
  { set (n := Qc_of_nat (length ps)) in *. clearbody n.
    clear H1 Hnear Hpos Htot. qc_to_q.
    change (inject_Z 1000000) with (1000000 # 1)%Q in Hk.
    change (this 0) with 0%Q in *. lra. }
  pose proof (float_sum_near fl ps fs Hfl Hnear Hpos
                ltac:(rewrite Htot; apply Qcle_refl) Herr) as H2.
  rewrite Htot in H1, H2.
  set (n := Qc_of_nat (length ps)) in *. clearbody n.
  set (a := total fs) in *. set (b := float_sum fl fs) in *. clearbody a b.
  clear Hnear Hpos Htot Herr.
  change (inject_Z 1000000) with (1000000 # 1)%Q in Hk.
  split.
  - clear H2. qc_to_q. change (this 0) with 0%Q in *.
    change (this 1) with 1%Q in *. lra.
  - clear H1. qc_to_q. change (this 0) with 0%Q in *.
    change (this 1) with 1%Q in *. lra.
Qed.

Lemma float_position_share_row fl brs lrs mrs out r g :
  aggregate brs lrs mrs = Ok out → r ∈ out →
  float_position_share fl g r
  = Some (default 0
            (fl <$> value_counts_normalize
                      (matched_positions (merge_lineups brs lrs) (row_key r))
                    !! g)).
Proof.
  intros Hout Hr.
  destruct (aggregate_row brs lrs mrs out r Hout Hr) as [_ Hf].
  unfold float_position_share. by rewrite Hf.
Qed.

End FloatSharesProofs.

Module BuildFeaturesClaims.
Import Pandas PandasProofs Frame BuildFeatures BuildFeaturesProofs Scenarios.
Import FloatShares FloatSharesProofs.

(** C4 (amended): for a match with one fixture record, the output of the
    Match Aggregator holds one row for each participant that is
    resolvable (the boxscore has player rows of the match under the
    fixture's team name): the home row (is_home = 1) and the away row
    (is_home = 0) when both are, a single row when exactly one is, and no
    row when none is.  An unresolvable participant loses its own row; the
    match is not dropped with it. *)
Theorem aggregator_rows_of_match
    (parse : string → option Qc) (format : Qc → string)
    (matches box lineups : DataFrame) (out : list TeamMatchRow)
    (brs : list BoxRow) (mrs : list MatchRow) (m : string) (fx : MatchRow) :
  build_features parse format matches box lineups = Ok out →
  box_rows parse box = Ok brs →
  match_rows format matches = Ok mrs →
  filter (λ x, m_match_id x = m) mrs = [fx] →
  sides_of_match m out
  = (if resolvable brs m (m_home_team fx) then [(m_home_team fx, 1%Z)] else [])
    ++ (if resolvable brs m (m_away_team fx) then [(m_away_team fx, 0%Z)] else [])
  ∧ length (sides_of_match m out)
    = (if resolvable brs m (m_home_team fx) then 1 else 0)
      + (if resolvable brs m (m_away_team fx) then 1 else 0).
Proof.
  intros Hout Hbox Hmatches Hfx.
  apply build_features_inv in Hout
    as (brs' & lrs & mrs' & Hbox' & _ & Hmatches' & Hout).
  rewrite Hbox in Hbox'. rewrite Hmatches in Hmatches'.
  injection Hbox' as <-. injection Hmatches' as <-.
  rewrite (sides_of_match_aggregate brs lrs mrs out m fx Hout Hfx).
  split; [done|].
  by destruct (resolvable brs m (m_home_team fx)),
    (resolvable brs m (m_away_team fx)).
Qed.

Lemma aggregator_rows_of_match_witness :
  ∃ out brs mrs fx,
    build_features parse_number format_number fixtures boxscore
      lineups_home_only = Ok out
    ∧ box_rows parse_number boxscore = Ok brs
    ∧ match_rows format_number fixtures = Ok mrs
    ∧ filter (λ x, m_match_id x = "m1") mrs = [fx]
    ∧ sides_of_match "m1" out = [("ubc", 1%Z); ("uvic", 0%Z)]
    ∧ length (sides_of_match "m1" out) = 2.
Proof.
  let v := eval vm_compute in
    (build_features parse_number format_number fixtures boxscore
       lineups_home_only) in
  match v with Ok ?o => pose (out := o) end.
  let v := eval vm_compute in (box_rows parse_number boxscore) in
  match v with Ok ?o => pose (brs := o) end.
  let v := eval vm_compute in (match_rows format_number fixtures) in
  match v with Ok ?o => pose (mrs := o) end.
  let v := eval vm_compute in (filter (λ x, m_match_id x = "m1") mrs) in
  match v with [?o] => pose (fx := o) end.
  assert (H1 : build_features parse_number format_number fixtures boxscore
                 lineups_home_only = Ok out) by (vm_compute; reflexivity).
  assert (H2 : box_rows parse_number boxscore = Ok brs)
    by (vm_compute; reflexivity).
  assert (H3 : match_rows format_number fixtures = Ok mrs)
    by (vm_compute; reflexivity).
  assert (H4 : filter (λ x, m_match_id x = "m1") mrs = [fx])
    by (vm_compute; reflexivity).
  destruct (aggregator_rows_of_match _ _ _ _ _ _ _ _ _ _ H1 H2 H3 H4)
    as [Hsides Hlen].
  exists out, brs, mrs, fx.
  split_and!; [exact H1|exact H2|exact H3|exact H4| |].
  - rewrite Hsides. reflexivity.
  - rewrite Hlen. reflexivity.
Defined.

(** C4 (as stated) fails when exactly one participant is resolvable: the
    boxscore lists the away team of fixture "m1" under another spelling,
    and the output holds a single row for the match, the home row. *)
Lemma one_resolvable_participant_yields_one_row :
  ∃ out brs mrs,
    build_features parse_number format_number fixtures boxscore_one_sided
      lineups_home_only = Ok out
    ∧ box_rows parse_number boxscore_one_sided = Ok brs
    ∧ match_rows format_number fixtures = Ok mrs
    ∧ (λ x, (m_match_id x, m_home_team x, m_away_team x)) <$> mrs
      = [("m1", "ubc", "uvic")]
    ∧ resolvable brs "m1" "ubc" = true
    ∧ resolvable brs "m1" "uvic" = false
    ∧ sides_of_match "m1" out = [("ubc", 1%Z)]
    ∧ length out = 1.
Proof.
  eexists _, _, _.
  split_and!; [vm_compute; reflexivity..|reflexivity|reflexivity].
Qed.

(** C9 (amended): every row of the Match Aggregator is made from at least
    one player row.  When the lineups list at least one of these players,
    the proportions of the row sum to 1 within 1e-9 over its
    position-group columns, which are the five groups GK, DEF, MID, FOR,
    UNK when the lineups carry no other group: every proportion is a
    quotient of two counts rounded to float64, and the bound holds for
    the exact sum of these floats as well as for their sum in float64.
    When the lineups list none of these players, every proportion of the
    row is 0 and not NaN. *)
Theorem position_shares_sum_to_one
    (fl : Qc → Qc)
    (parse : string → option Qc) (format : Qc → string)
    (matches box lineups : DataFrame) (out : list TeamMatchRow)
    (brs : list BoxRow) (lrs : list LineupRow) (r : TeamMatchRow) :
  rounds fl →
  build_features parse format matches box lineups = Ok out →
  box_rows parse box = Ok brs →
  lineup_rows lineups = Ok lrs →
  r ∈ out →
  players_of brs (row_key r) ≠ []
  ∧ (matched_positions (merge_lineups brs lrs) (row_key r) ≠ [] →
     ∀ K, NoDup K → (Z.of_nat (length K) ≤ 1000000)%Z →
       Forall (λ g, g ∈ K)
         (matched_positions (merge_lineups brs lrs) (row_key r)) →
       ∃ vs, (λ g, float_position_share fl g r) <$> K = Some <$> vs
             ∧ near TOLERANCE 1%Qc (total vs)
             ∧ near TOLERANCE 1%Qc (float_sum fl vs))
  ∧ (matched_positions (merge_lineups brs lrs) (row_key r) ≠ [] →
     Forall (λ l, l_position_group l ∈ GROUP_COLUMNS) lrs →
     ∃ vs, (λ g, float_position_share fl g r) <$> GROUP_COLUMNS
           = Some <$> vs
           ∧ near TOLERANCE 1%Qc (total vs)
           ∧ near TOLERANCE 1%Qc (float_sum fl vs))
  ∧ (matched_positions (merge_lineups brs lrs) (row_key r) = [] →
     ∀ g, float_position_share fl g r = Some 0%Qc
          ∧ position_share g r = Some 0%Qc).
Proof.
  intros Hfl Hout Hbox Hlineups Hr.
  apply build_features_inv in Hout
    as (brs' & lrs' & mrs & Hbox' & Hlineups' & _ & Hout).
  rewrite Hbox in Hbox'. rewrite Hlineups in Hlineups'.
  injection Hbox' as <-. injection Hlineups' as <-.
  destruct (aggregate_row brs lrs mrs out r Hout Hr) as [Hkey _].
  set (xs := matched_positions (merge_lineups brs lrs) (row_key r)) in *.
  assert (Hcols : xs ≠ [] → ∀ K, NoDup K → (Z.of_nat (length K) ≤ 1000000)%Z →
            Forall (λ g, g ∈ K) xs →
            ∃ vs, (λ g, float_position_share fl g r) <$> K = Some <$> vs
                  ∧ near TOLERANCE 1%Qc (total vs)
                  ∧ near TOLERANCE 1%Qc (float_sum fl vs)).
  { intros Hne K Hnd Hlen Hxs.
    exists ((λ g, default 0%Qc (fl <$> value_counts_normalize xs !! g)) <$> K).
    split.
    - rewrite <-list_fmap_compose. apply list_fmap_ext. intros _ g _. simpl.
      apply (float_position_share_row fl brs lrs mrs out r g Hout Hr).
    - by apply float_shares_sum. }
  split_and!.
  - by apply players_of_nonempty.
  - exact Hcols.
  - intros Hne Hgroups.
    apply (Hcols Hne GROUP_COLUMNS);
      [apply NoDup_GROUP_COLUMNS|simpl; lia|].
    apply Forall_forall. intros g Hg.
    apply matched_positions_lineups in Hg.
    apply list_elem_of_fmap in Hg as (l & -> & Hl).
    by eapply Forall_forall in Hgroups.
  - intros Hnil g. split.
    + rewrite (float_position_share_row fl brs lrs mrs out r g Hout Hr).
      fold xs. rewrite Hnil. reflexivity.
    + rewrite (position_share_row brs lrs mrs out r g Hout Hr).
      fold xs. rewrite Hnil. reflexivity.
Qed.

Lemma position_shares_sum_to_one_witness :
  ∃ out brs lrs r r',
    rounds round_to_grid
    ∧ build_features parse_number format_number fixtures boxscore
        lineups_home_only = Ok out
    ∧ box_rows parse_number boxscore = Ok brs
    ∧ lineup_rows lineups_home_only = Ok lrs
    ∧ Forall (λ l, l_position_group l ∈ GROUP_COLUMNS) lrs
    ∧ r ∈ out
    ∧ matched_positions (merge_lineups brs lrs) (row_key r) ≠ []
    ∧ (∃ vs, (λ g, float_position_share round_to_grid g r) <$> GROUP_COLUMNS
             = Some <$> vs
             ∧ near TOLERANCE 1%Qc (total vs)
             ∧ near TOLERANCE 1%Qc (float_sum round_to_grid vs))
    ∧ r' ∈ out
    ∧ matched_positions (merge_lineups brs lrs) (row_key r') = []
    ∧ float_position_share round_to_grid "gk" r' = Some 0%Qc.
Proof.
  let v := eval vm_compute in
    (build_features parse_number format_number fixtures boxscore
       lineups_home_only) in
  match v with
  | Ok [?r; ?r'] => pose (out := [r; r']); pose (r0 := r); pose (r1 := r')
  end.
  let v := eval vm_compute in (box_rows parse_number boxscore) in
  match v with Ok ?o => pose (brs := o) end.
  let v := eval vm_compute in (lineup_rows lineups_home_only) in
  match v with Ok ?o => pose (lrs := o) end.
  assert (H1 : build_features parse_number format_number fixtures boxscore
                 lineups_home_only = Ok out) by (vm_compute; reflexivity).
  assert (H2 : box_rows parse_number boxscore = Ok brs)
    by (vm_compute; reflexivity).
  assert (H3 : lineup_rows lineups_home_only = Ok lrs)
    by (vm_compute; reflexivity).
  assert (H4 : Forall (λ l, l_position_group l ∈ GROUP_COLUMNS) lrs).
  { apply (bool_decide_unpack
             (Forall (λ l, l_position_group l ∈ GROUP_COLUMNS) lrs)).
    by vm_compute. }
  assert (H5 : r0 ∈ out) by left.
  assert (H6 : matched_positions (merge_lineups brs lrs) (row_key r0) ≠ [])
    by (vm_compute; discriminate).
  assert (H7 : r1 ∈ out) by (right; left).
  assert (H8 : matched_positions (merge_lineups brs lrs) (row_key r1) = [])
    by reflexivity.
  destruct (position_shares_sum_to_one round_to_grid _ _ _ _ _ _ _ _ _
              rounds_round_to_grid H1 H2 H3 H5)
    as (_ & _ & Hfive & _).
  destruct (position_shares_sum_to_one round_to_grid _ _ _ _ _ _ _ _ _
              rounds_round_to_grid H1 H2 H3 H7)
    as (_ & _ & _ & Hnone).
  exists out, brs, lrs, r0, r1.
  split_and!;
    [exact rounds_round_to_grid|exact H1|exact H2|exact H3|exact H4
     |exact H5|exact H6| |exact H7|exact H8|].
  - exact (Hfive H6 H4).
  - exact (proj1 (Hnone H8 "gk")).
Defined.

(** C9 (as stated) fails for a team whose players the lineups do not
    list: the away row of "m1" is made from two player rows, and its
    five proportions are all 0, whatever the rounding, so they sum to 0,
    which is not within 1e-9 of 1. *)
Lemma unlisted_roster_shares_sum_to_zero :
  ∃ out brs r,
    build_features parse_number format_number fixtures boxscore
      lineups_home_only = Ok out
    ∧ box_rows parse_number boxscore = Ok brs
    ∧ r ∈ out
    ∧ row_key r = ("m1", "uvic")
    ∧ length (players_of brs (row_key r)) = 2
    ∧ (λ g, position_share g r) <$> GROUP_COLUMNS
      = Some <$> [0; 0; 0; 0; 0]%Qc
    ∧ total [0; 0; 0; 0; 0]%Qc ≠ 1%Qc
    ∧ (∀ fl, (λ g, float_position_share fl g r) <$> GROUP_COLUMNS
             = Some <$> [0; 0; 0; 0; 0]%Qc)
    ∧ ¬ near TOLERANCE 1%Qc (total [0; 0; 0; 0; 0]%Qc)
    ∧ ¬ near TOLERANCE 1%Qc (float_sum round_to_grid [0; 0; 0; 0; 0]%Qc).
Proof.
  let v := eval vm_compute in
    (build_features parse_number format_number fixtures boxscore
       lineups_home_only) in
  match v with Ok [?r0; ?r1] => exists [r0; r1]; eexists; exists r1 end.
  split_and!;
    [vm_compute; reflexivity..| |reflexivity|reflexivity|reflexivity| | | |].
  - right. left.
  - by vm_compute.
  - intros fl. reflexivity.
  - intros [Hlo _]. by vm_compute in Hlo.
  - intros [Hlo _]. by vm_compute in Hlo.
Qed.

(** C7 (amended): when one of the raw statistic columns (shots,
    shots-on-goal, goals, assists) is entirely absent from the boxscore,
    the Match Aggregator does not abort on that account.  It creates the
    column with the default value 0: the run is the run on the same
    boxscore with an explicit column of zeros, and whenever it produces
    its table that statistic is 0 in every row. *)
Theorem missing_stat_column_defaults_to_zero
    (parse : string → option Qc) (format : Qc → string)
    (matches box lineups : DataFrame) (col : string) :
  col ∈ STAT_COLUMNS →
  has_column col (prepare_box box) = false →
  build_features parse format matches box lineups
  = build_features parse format matches (with_zero_column col box) lineups
  ∧ ∀ out, build_features parse format matches box lineups = Ok out →
      Forall (λ r, row_stat col r = Some 0%Qc) out.
Proof.
  intros Hcol Habsent. split.
  - unfold build_features.
    by rewrite (box_rows_with_zero_column parse col box Hcol Habsent).
  - intros out Hout.
    apply build_features_inv in Hout
      as (brs & lrs & mrs & Hbox & _ & _ & Hout).
    apply (aggregate_stat_zero col brs lrs mrs out Hcol); [|done].
    by apply (box_rows_stat_zero parse col box Hcol Habsent).
Qed.

(** C7 (as stated) fails: on a boxscore without any shots column the
    stage does not abort; it returns its table, with the two rows of the
    match and 0 shots in both. *)
Lemma boxscore_without_shots_is_aggregated :
  ∃ out,
    has_column "shots" (prepare_box boxscore_without_shots) = false
    ∧ build_features parse_number format_number fixtures
        boxscore_without_shots lineups_home_only = Ok out
    ∧ sides_of_match "m1" out = [("ubc", 1%Z); ("uvic", 0%Z)]
    ∧ row_stat "shots" <$> out = [Some 0%Qc; Some 0%Qc]
    ∧ row_stat "sog" <$> out = [Some (Qc_of_Z 2); Some (Qc_of_Z 2)].
Proof.
  eexists. split_and!; [reflexivity|vm_compute; reflexivity|reflexivity..].
Qed.

Lemma missing_stat_column_defaults_to_zero_witness :
  ∃ out,
    "shots" ∈ STAT_COLUMNS
    ∧ has_column "shots" (prepare_box boxscore_without_shots) = false
    ∧ build_features parse_number format_number fixtures
        boxscore_without_shots lineups_home_only = Ok out
    ∧ build_features parse_number format_number fixtures
        (with_zero_column "shots" boxscore_without_shots) lineups_home_only
      = Ok out
    ∧ Forall (λ r, row_stat "shots" r = Some 0%Qc) out.
Proof.
  let v := eval vm_compute in
    (build_features parse_number format_number fixtures
       boxscore_without_shots lineups_home_only) in
  match v with Ok ?o => pose (out := o) end.
  assert (H1 : "shots" ∈ STAT_COLUMNS) by left.
  assert (H2 : has_column "shots" (prepare_box boxscore_without_shots) = false)
    by reflexivity.
  assert (H3 : build_features parse_number format_number fixtures
                 boxscore_without_shots lineups_home_only = Ok out)
    by (vm_compute; reflexivity).
  destruct (missing_stat_column_defaults_to_zero parse_number format_number
              fixtures boxscore_without_shots lineups_home_only "shots" H1 H2)
    as [Hsame Hzero].
  exists out. split_and!; [exact H1|exact H2|exact H3| |exact (Hzero out H3)].
  by rewrite <-Hsame.
Defined.

End BuildFeaturesClaims.

(** ** Sums and means of columns *)

Module ColumnFacts.
Import Pandas PandasProofs BuildFeaturesProofs.
Local Open Scope Qc_scope.

Lemma Qc_of_nat_S n : Qc_of_nat (S n) = Qc_of_nat n + 1.
Proof.
  replace (S n) with (n + 1)%nat by lia. by rewrite Qc_of_nat_add.
Qed.

Lemma Qc_of_nat_nonneg n : 0 ≤ Qc_of_nat n.
Proof.
  induction n as [|n IH]; [by rewrite Qc_of_nat_0|].
  rewrite Qc_of_nat_S.
  replace 0 with (0 + 0) by ring.
  apply Qcplus_le_compat; [done|]. by vm_compute.
Qed.

Lemma Qc_of_nat_pos n : (0 < n)%nat → 0 < Qc_of_nat n.
Proof.
  intros Hn.
  destruct (Qcle_lt_or_eq _ _ (Qc_of_nat_nonneg n)) as [?|Heq]; [done|].
  symmetry in Heq. apply Qc_of_nat_nonzero in Heq; [done|lia].
Qed.

Lemma total_app (u v : list Qc) : total (u ++ v) = total u + total v.
Proof.
  induction u as [|q u IH]; simpl; [ring|]. rewrite IH. ring.
Qed.

Lemma total_le_bound (v : list Qc) hi :
  Forall (λ q, q ≤ hi) v → total v ≤ hi * Qc_of_nat (length v).
Proof.
  induction 1 as [|q v Hq _ IH]; simpl.
  - rewrite Qc_of_nat_0, Qcmult_0_r. apply Qcle_refl.
  - rewrite Qc_of_nat_S, Qcmult_plus_distr_r, Qcmult_1_r, Qcplus_comm.
    by apply Qcplus_le_compat.
Qed.

Lemma total_ge_bound (v : list Qc) lo :
  Forall (λ q, lo ≤ q) v → lo * Qc_of_nat (length v) ≤ total v.
Proof.
  induction 1 as [|q v Hq _ IH]; simpl.
  - rewrite Qc_of_nat_0, Qcmult_0_r. apply Qcle_refl.
  - rewrite Qc_of_nat_S, Qcmult_plus_distr_r, Qcmult_1_r, Qcplus_comm.
    by apply Qcplus_le_compat.
Qed.

Lemma elem_of_present (x : list (option Qc)) v : v ∈ present x ↔ Some v ∈ x.
Proof.
  unfold present. rewrite list_elem_of_omap. split.
  - intros ([w|] & Hw & Heq); simplify_eq/=. done.
  - intros Hv. by exists (Some v).
Qed.

Lemma mean_Some_inv x mu :
  mean x = Some mu →
  present x ≠ [] ∧ mu = total (present x) / Qc_of_nat (length (present x)).
Proof.
  unfold mean. destruct (present x) as [|q v] eqn:Hp; [done|].
  intros [= <-]. done.
Qed.

Lemma mean_None_iff x : mean x = None ↔ present x = [].
Proof. unfold mean. by destruct (present x). Qed.

(** The sum is the mean times the number of observations. *)
Lemma mean_times_count x mu :
  mean x = Some mu →
  total (present x) = mu * Qc_of_nat (length (present x)).
Proof.
  intros [Hne ->]%mean_Some_inv.
  rewrite Qcmult_comm, Qcmult_div_r; [done|].
  apply Qc_of_nat_nonzero. by destruct (present x).
Qed.

(** A mean lies between any two bounds of the observations. *)
Lemma mean_le x hi mu :
  (∀ v, Some v ∈ x → v ≤ hi) → mean x = Some mu → mu ≤ hi.
Proof.
  intros Hb Hmu. pose proof (mean_times_count x mu Hmu) as Htot.
  apply mean_Some_inv in Hmu as [Hne _].
  assert (Hpos : 0 < Qc_of_nat (length (present x))).
  { apply Qc_of_nat_pos. destruct (present x); [done|simpl; lia]. }
  apply (Qcmult_lt_0_le_reg_r _ _ _ Hpos). rewrite <-Htot.
  apply total_le_bound, Forall_forall. intros v Hv.
  by apply Hb, elem_of_present.
Qed.

Lemma mean_ge x lo mu :
  (∀ v, Some v ∈ x → lo ≤ v) → mean x = Some mu → lo ≤ mu.
Proof.
  intros Hb Hmu. pose proof (mean_times_count x mu Hmu) as Htot.
  apply mean_Some_inv in Hmu as [Hne _].
  assert (Hpos : 0 < Qc_of_nat (length (present x))).
  { apply Qc_of_nat_pos. destruct (present x); [done|simpl; lia]. }
  apply (Qcmult_lt_0_le_reg_r _ _ _ Hpos). rewrite <-Htot.
  apply total_ge_bound, Forall_forall. intros v Hv.
  by apply Hb, elem_of_present.
Qed.

Lemma mean_bounds x lo hi mu :
  (∀ v, Some v ∈ x → lo ≤ v ∧ v ≤ hi) →
  mean x = Some mu → lo ≤ mu ∧ mu ≤ hi.
Proof.
  intros Hb Hmu. split.
  - eapply mean_ge; [|done]. intros v Hv. by apply Hb.
  - eapply mean_le; [|done]. intros v Hv. by apply Hb.
Qed.

End ColumnFacts.

Module TextOpsProofs.
Import Text TextOps.

Lemma all_app f s t : all f (s +:+ t) = all f s && all f t.
Proof.
  induction s as [|c s IH]; simpl; [done|]. rewrite IH. by rewrite andb_assoc.
Qed.

Lemma all_impl (f g : ascii → bool) s :
  (∀ c, f c = true → g c = true) → all f s = true → all g s = true.
Proof.
  intros Hfg. induction s as [|c s IH]; simpl; [done|].
  intros [Hc Hs]%andb_true_iff. rewrite (Hfg c Hc). simpl. auto.
Qed.

Lemma filter_all f s : all f (filter f s) = true.
Proof.
  induction s as [|c s IH]; simpl; [done|].
  destruct (f c) eqn:Hc; simpl; [by rewrite Hc|done].
Qed.

Lemma filter_id f s : all f s = true → filter f s = s.
Proof.
  induction s as [|c s IH]; simpl; [done|].
  intros [-> Hs]%andb_true_iff. by rewrite IH.
Qed.

Lemma length_filter_le f s : String.length (filter f s) ≤ String.length s.
Proof.
  induction s as [|c s IH]; simpl; [done|]. destruct (f c); simpl; lia.
Qed.

Lemma map_id_on (f : ascii → ascii) (p : ascii → bool) s :
  (∀ c, p c = true → f c = c) → all p s = true → map f s = s.
Proof.
  intros Hf. induction s as [|c s IH]; simpl; [done|].
  intros [Hc Hs]%andb_true_iff. by rewrite (Hf c Hc), IH.
Qed.

(** Text without white space at its ends is its own [strip]. *)
Lemma lstrip_id s :
  (∀ c, first_char s = Some c → is_space c = false) → lstrip s = s.
Proof. destruct s as [|c s]; simpl; [done|]. intros H. by rewrite H. Qed.

Lemma rstrip_id s : all (λ c, negb (is_space c)) s = true → rstrip s = s.
Proof.
  induction s as [|c s IH]; simpl; [done|].
  intros [Hc Hs]%andb_true_iff. rewrite IH by done.
  apply negb_true_iff in Hc. rewrite Hc. by destruct s.
Qed.

Lemma strip_id s : all (λ c, negb (is_space c)) s = true → strip s = s.
Proof.
  intros Hs. unfold strip. rewrite lstrip_id.
  - by apply rstrip_id.
  - destruct s as [|c s]; simpl in *; [done|]. intros d [= <-].
    apply andb_true_iff in Hs as [Hc _]. by apply negb_true_iff.
Qed.

Lemma lower_id s : all (λ c, negb (is_upper c)) s = true → lower s = s.
Proof.
  apply map_id_on. intros c Hc. unfold lower_char.
  apply negb_true_iff in Hc. by rewrite Hc.
Qed.

Lemma all_lstrip p s : all p s = true → all p (lstrip s) = true.
Proof.
  induction s as [|c s IH]; simpl; [done|].
  intros Hs. destruct (is_space c); [|done].
  apply andb_true_iff in Hs as [_ Hs]. auto.
Qed.

Lemma all_rstrip p s : all p s = true → all p (rstrip s) = true.
Proof.
  induction s as [|c s IH]; simpl; [done|].
  intros [Hc Hs]%andb_true_iff. specialize (IH Hs).
  destruct (rstrip s) as [|d t].
  - destruct (is_space c); simpl; [done|]. by rewrite Hc.
  - simpl in *. by rewrite Hc.
Qed.

Lemma all_strip p s : all p s = true → all p (strip s) = true.
Proof. intros Hs. by apply all_rstrip, all_lstrip. Qed.

(** [strip] removes white space only. *)
Lemma filter_lstrip f s :
  (∀ c, f c = true → is_space c = false) →
  filter f (lstrip s) = filter f s.
Proof.
  intros Hf. induction s as [|c s IH]; simpl; [done|].
  destruct (is_space c) eqn:Hc; [|done].
  rewrite IH. destruct (f c) eqn:Hfc; [|done].
  by rewrite (Hf c Hfc) in Hc.
Qed.

Lemma filter_rstrip f s :
  (∀ c, f c = true → is_space c = false) →
  filter f (rstrip s) = filter f s.
Proof.
  intros Hf. induction s as [|c s IH]; simpl; [done|].
  destruct (rstrip s) as [|d t].
  - simpl in IH. rewrite <-IH.
    destruct (is_space c) eqn:Hc; simpl.
    + destruct (f c) eqn:Hfc; [|done]. by rewrite (Hf c Hfc) in Hc.
    + done.
  - simpl. simpl in IH. by rewrite IH.
Qed.

Lemma filter_strip f s :
  (∀ c, f c = true → is_space c = false) →
  filter f (strip s) = filter f s.
Proof.
  intros Hf. unfold strip. by rewrite filter_rstrip, filter_lstrip.
Qed.

Lemma filter_ext_all (f g p : ascii → bool) s :
  (∀ c, p c = true → f c = g c) → all p s = true → filter f s = filter g s.
Proof.
  intros Hfg. induction s as [|c s IH]; simpl; [done|].
  intros [Hc Hs]%andb_true_iff. by rewrite (Hfg c Hc), IH.
Qed.

Lemma filter_nil_all f s :
  all (λ c, negb (f c)) s = true → filter f s = "".
Proof.
  induction s as [|c s IH]; simpl; [done|].
  intros [Hc Hs]%andb_true_iff. apply negb_true_iff in Hc. rewrite Hc. auto.
Qed.

Lemma first_char_lstrip s c :
  first_char (lstrip s) = Some c → is_space c = false.
Proof.
  induction s as [|d s IH]; simpl; [done|].
  destruct (is_space d) eqn:Hd; [done|]. simpl. by intros [= <-].
Qed.

Lemma last_char_rstrip s c :
  last_char (rstrip s) = Some c → is_space c = false.
Proof.
  induction s as [|d s IH]; simpl; [done|].
  destruct (rstrip s) as [|e t].
  - destruct (is_space d) eqn:Hd; simpl; [done|]. by intros [= <-].
  - done.
Qed.

Lemma first_char_rstrip s c :
  first_char s = Some c → is_space c = false →
  first_char (rstrip s) = Some c.
Proof.
  destruct s as [|d s]; simpl; [done|]. intros [= ->] Hc.
  destruct (rstrip s); [|done]. by rewrite Hc.
Qed.

Lemma rstrip_id_last s :
  (∀ c, last_char s = Some c → is_space c = false) → rstrip s = s.
Proof.
  induction s as [|d s IH]; simpl; [done|].
  destruct s as [|e t].
  - simpl. intros Hd. by rewrite Hd.
  - intros Hlast. by rewrite IH.
Qed.

(** The ends of a stripped text are not white space. *)
Lemma strip_ends s :
  (∀ c, first_char (strip s) = Some c → is_space c = false)
  ∧ (∀ c, last_char (strip s) = Some c → is_space c = false).
Proof.
  unfold strip. split; [|apply last_char_rstrip].
  intros c Hc.
  destruct (first_char (lstrip s)) as [d|] eqn:Hd.
  - pose proof (first_char_lstrip s d Hd) as Hsp.
    rewrite (first_char_rstrip _ d Hd Hsp) in Hc. by injection Hc as <-.
  - destruct (lstrip s); [|done]. done.
Qed.

Lemma strip_id_ends s :
  (∀ c, first_char s = Some c → is_space c = false) →
  (∀ c, last_char s = Some c → is_space c = false) →
  strip s = s.
Proof.
  intros Hfirst Hlast. unfold strip.
  rewrite lstrip_id by done. by apply rstrip_id_last.
Qed.

Lemma first_char_map f s : first_char (map f s) = f <$> first_char s.
Proof. by destruct s. Qed.

Lemma last_char_map f s : last_char (map f s) = f <$> last_char s.
Proof.
  induction s as [|c s IH]; [done|].
  destruct s as [|d t]; [done|]. exact IH.
Qed.

Lemma all_map (p : ascii → bool) f s :
  (∀ c, p (f c) = true) → all p (map f s) = true.
Proof.
  intros Hp. induction s as [|c s IH]; simpl; [done|]. by rewrite Hp, IH.
Qed.

Lemma all_map_impl (p q : ascii → bool) f s :
  (∀ c, p c = true → q (f c) = true) →
  all p s = true → all q (map f s) = true.
Proof.
  intros Hp. induction s as [|c s IH]; simpl; [done|].
  intros [Hc Hs]%andb_true_iff. by rewrite (Hp c Hc), IH.
Qed.

Lemma lower_char_not_upper c : is_upper (lower_char c) = false.
Proof.
  unfold lower_char. destruct (is_upper c) eqn:Hc; [|done].
  unfold is_upper, code in *. apply andb_true_iff in Hc as [H1 H2].
  apply N.leb_le in H1, H2. rewrite N_ascii_embedding by lia.
  apply andb_false_iff. right. apply N.leb_gt. lia.
Qed.

Lemma all_lower s : all (λ c, negb (is_upper c)) (lower s) = true.
Proof. apply all_map. intros c. by rewrite lower_char_not_upper. Qed.

(** Facts on [s.strip(d)]. *)
Lemma last_char_rstrip_char d s : last_char (rstrip_char d s) ≠ Some d.
Proof.
  induction s as [|c s IH]; simpl; [done|].
  destruct (rstrip_char d s) as [|e t].
  - destruct (Ascii.eqb c d) eqn:Hc; simpl; [done|].
    apply Ascii.eqb_neq in Hc. congruence.
  - done.
Qed.

Lemma rstrip_char_id d s : last_char s ≠ Some d → rstrip_char d s = s.
Proof.
  induction s as [|c s IH]; simpl; [done|].
  destruct s as [|e t].
  - simpl. intros Hc. destruct (Ascii.eqb c d) eqn:Heq; [|done].
    apply Ascii.eqb_eq in Heq. congruence.
  - intros Hlast. by rewrite IH.
Qed.

Lemma first_char_rstrip_char d s :
  first_char s ≠ Some d → first_char (rstrip_char d s) ≠ Some d.
Proof.
  destruct s as [|c s]; simpl; [done|].
  intros Hc. destruct (rstrip_char d s); [|done].
  by destruct (Ascii.eqb c d).
Qed.

Lemma first_char_lstrip_char d s : first_char (lstrip_char d s) ≠ Some d.
Proof.
  induction s as [|c s IH]; simpl; [done|].
  destruct (Ascii.eqb c d) eqn:Hc; [done|]. simpl.
  apply Ascii.eqb_neq in Hc. congruence.
Qed.

Lemma lstrip_char_id d s : first_char s ≠ Some d → lstrip_char d s = s.
Proof.
  destruct s as [|c s]; simpl; [done|]. intros Hc.
  destruct (Ascii.eqb c d) eqn:Heq; [|done].
  apply Ascii.eqb_eq in Heq. congruence.
Qed.

Lemma all_lstrip_char p d s : all p s = true → all p (lstrip_char d s) = true.
Proof.
  induction s as [|c s IH]; simpl; [done|].
  intros Hs. destruct (Ascii.eqb c d); [|done].
  apply andb_true_iff in Hs as [_ Hs]. auto.
Qed.

Lemma all_rstrip_char p d s : all p s = true → all p (rstrip_char d s) = true.
Proof.
  induction s as [|c s IH]; simpl; [done|].
  intros [Hc Hs]%andb_true_iff. specialize (IH Hs).
  destruct (rstrip_char d s) as [|e t].
  - destruct (Ascii.eqb c d); simpl; [done|]. by rewrite Hc.
  - simpl in *. by rewrite Hc.
Qed.

End TextOpsProofs.

Module ScrapeCanadaWestProofs.
Import Text TextOps TextOpsProofs ScrapeCanadaWest.

Lemma pretty_N_char_digit d :
  (d < 10)%N →
  is_digit (pretty_N_char d) = true ∧ digit_value (pretty_N_char d) = d.
Proof.
  intros Hd.
  assert (d = 0 ∨ d = 1 ∨ d = 2 ∨ d = 3 ∨ d = 4 ∨ d = 5 ∨ d = 6 ∨ d = 7
          ∨ d = 8 ∨ d = 9)%N as Hcases by lia.
  repeat (destruct Hcases as [->|Hcases]; [by vm_compute|]).
  subst. by vm_compute.
Qed.

(** Reading back the digits that [pretty] writes. *)
Lemma int_digits_pretty_N_go x :
  ∃ k, ∀ b acc s,
    int_digits b acc (pretty_N_go x s)
    = int_digits (b || bool_decide (0 < x)%N) (acc * k + x) s.
Proof.
  induction (N.lt_wf_0 x) as [x _ IH].
  destruct (decide (0 < x)%N) as [Hx|Hx].
  - destruct (IH (x `div` 10)%N) as [k Hk]; [by apply N.div_lt|].
    exists (10 * k)%N. intros b acc s.
    rewrite pretty_N_go_step, Hk by done. simpl.
    destruct (pretty_N_char_digit (x `mod` 10)%N) as [-> ->];
      [by apply N.mod_lt|].
    rewrite bool_decide_true, orb_true_r by done. f_equal.
    pose proof (N.div_mod x 10). lia.
  - assert (x = 0%N) as -> by lia. exists 1%N. intros b acc s.
    rewrite pretty_N_go_0, bool_decide_false, orb_false_r by lia.
    f_equal. lia.
Qed.

Lemma all_pretty_N_go f x s :
  (∀ d, (d < 10)%N → f (pretty_N_char d) = true) →
  all f (pretty_N_go x s) = all f s.
Proof.
  intros Hf. revert s. induction (N.lt_wf_0 x) as [x _ IH]. intros s.
  destruct (decide (0 < x)%N) as [Hx|Hx].
  - rewrite pretty_N_go_step, IH by (done || by apply N.div_lt). simpl.
    rewrite Hf; [done|]. by apply N.mod_lt.
  - assert (x = 0%N) as -> by lia. by rewrite pretty_N_go_0.
Qed.

Lemma all_digit_pretty_N (x : N) : all is_digit (pretty x) = true.
Proof.
  unfold pretty, pretty_N. case_decide; [done|].
  rewrite all_pretty_N_go; [done|]. intros d Hd.
  by destruct (pretty_N_char_digit d Hd).
Qed.

Lemma int_digits_pretty_N (x : N) : int_digits false 0 (pretty x) = Some x.
Proof.
  unfold pretty, pretty_N. case_decide as Hx; [by subst|].
  destruct (int_digits_pretty_N_go x) as [k Hk]. rewrite Hk. simpl.
  by rewrite bool_decide_true by lia.
Qed.

Lemma digit_not_space c : is_digit c = true → is_space c = false.
Proof.
  unfold is_digit, is_space. intros [H1 H2]%andb_true_iff.
  apply N.leb_le in H1, H2.
  repeat (apply orb_false_iff; split);
    try apply andb_false_iff; rewrite ?N.leb_gt, ?N.eqb_neq; lia.
Qed.

Lemma digit_not_upper c : is_digit c = true → is_upper c = false.
Proof.
  unfold is_digit, is_upper. intros [H1 H2]%andb_true_iff.
  apply N.leb_le in H1, H2.
  apply andb_false_iff; rewrite ?N.leb_gt; lia.
Qed.

Lemma digit_not_sign c :
  is_digit c = true → Ascii.eqb c "-" = false ∧ Ascii.eqb c "+" = false.
Proof.
  intros Hc. split; apply Ascii.eqb_neq; intros ->; by vm_compute in Hc.
Qed.

(** [int] on a non-empty text of digits. *)
Lemma int_of_digits t :
  all is_digit t = true → t ≠ "" →
  String.length t ≤ MAX_STR_DIGITS →
  int t = match int_digits false 0 t with
          | Some n => Ok (Z.of_N n)
          | None => Raise (ValueError "int")
          end.
Proof.
  intros Ht Hne Hlen. unfold int.
  rewrite strip_id
    by (eapply all_impl; [|exact Ht]; intros c Hc;
        by rewrite (digit_not_space c Hc)).
  destruct t as [|c t]; [done|].
  pose proof Ht as Ht'. simpl in Ht'.
  apply andb_true_iff in Ht' as [Hc _].
  destruct (digit_not_sign c Hc) as [-> ->].
  rewrite filter_id by done.
  by rewrite (proj2 (Nat.ltb_ge _ _) Hlen).
Qed.

Lemma int_of_minus_digits t :
  all is_digit t = true →
  String.length t ≤ MAX_STR_DIGITS →
  int (String "-" t)
  = match int_digits false 0 t with
    | Some n => Ok (- Z.of_N n)%Z
    | None => Raise (ValueError "int")
    end.
Proof.
  intros Ht Hlen. unfold int.
  rewrite strip_id.
  - simpl. rewrite filter_id by done.
    by rewrite (proj2 (Nat.ltb_ge _ _) Hlen).
  - simpl. eapply all_impl; [|exact Ht]. intros c Hc.
    by rewrite (digit_not_space c Hc).
Qed.

Lemma pretty_N_nonempty (x : N) : pretty x ≠ "".
Proof.
  intros Hx. pose proof (int_digits_pretty_N x) as H.
  by rewrite Hx in H.
Qed.

Lemma pretty_Z_cases (n : Z) :
  (pretty n = pretty (Z.abs_N n) ∧ (0 ≤ n)%Z)
  ∨ (pretty n = String "-" (pretty (Z.abs_N n)) ∧ (n < 0)%Z).
Proof.
  destruct n as [|p|p]; [left|left|right]; split; try done; lia.
Qed.

Lemma int_pretty (n : Z) :
  String.length (pretty (Z.abs_N n)) ≤ MAX_STR_DIGITS →
  int (pretty n) = Ok n.
Proof.
  intros Hlen.
  destruct (pretty_Z_cases n) as [[-> Hn]|[-> Hn]].
  - rewrite int_of_digits, int_digits_pretty_N;
      [|apply all_digit_pretty_N|apply pretty_N_nonempty|done].
    f_equal. lia.
  - rewrite int_of_minus_digits, int_digits_pretty_N;
      [|apply all_digit_pretty_N|done].
    f_equal. lia.
Qed.

Lemma all_digit_dash_pretty (n : Z) :
  all (λ c, is_digit c || Ascii.eqb c "-") (pretty n) = true.
Proof.
  destruct (pretty_Z_cases n) as [[-> _]|[-> _]]; simpl;
    (eapply all_impl; [|apply all_digit_pretty_N]);
    by intros c ->.
Qed.

Lemma int_digits_decimal t b acc :
  all is_digit t = true →
  int_digits b acc t
  = if b || truthy t then Some (decimal acc t) else None.
Proof.
  revert b acc. induction t as [|c t IH]; intros b acc; simpl.
  - by rewrite orb_false_r.
  - intros [-> Ht]%andb_true_iff. rewrite IH by done.
    by rewrite orb_true_r.
Qed.

(** A text without any digit is not the text of an integer. *)
Lemma int_digits_no_digit t :
  all (λ c, negb (is_digit c)) t = true → int_digits false 0 t = None.
Proof.
  destruct t as [|c t]; simpl; [done|].
  intros [Hc _]%andb_true_iff. apply negb_true_iff in Hc. rewrite Hc.
  by rewrite andb_false_r.
Qed.

Lemma int_no_digit t :
  all (λ c, negb (is_digit c)) t = true → int t = Raise (ValueError "int").
Proof.
  intros Ht. unfold int. apply all_strip in Ht.
  destruct (strip t) as [|c b]; [done|].
  assert (Hb : all (λ c, negb (is_digit c)) b = true).
  { simpl in Ht. by apply andb_true_iff in Ht as [_ ?]. }
  destruct (Ascii.eqb c "-"); [|destruct (Ascii.eqb c "+")].
  - by rewrite filter_nil_all, int_digits_no_digit.
  - by rewrite filter_nil_all, int_digits_no_digit.
  - by rewrite filter_nil_all, int_digits_no_digit.
Qed.

(** *** Slugs *)

Lemma slug_char_not_dash c : is_slug_char c = true → Ascii.eqb c "-" = false.
Proof. intros Hc. apply Ascii.eqb_neq. intros ->. by vm_compute in Hc. Qed.

Lemma slug_char_not_upper c : is_slug_char c = true → is_upper c = false.
Proof.
  unfold is_slug_char, is_lower, is_digit, is_upper.
  intros [[H1 H2]%andb_true_iff|[H1 H2]%andb_true_iff]%orb_true_iff;
    apply N.leb_le in H1, H2; apply andb_false_iff; rewrite !N.leb_gt; lia.
Qed.

Lemma slug_char_not_space c : is_slug_char c = true → is_space c = false.
Proof.
  unfold is_slug_char, is_lower, is_digit, is_space.
  intros [[H1 H2]%andb_true_iff|[H1 H2]%andb_true_iff]%orb_true_iff;
    apply N.leb_le in H1, H2;
    repeat (apply orb_false_iff; split);
    try apply andb_false_iff; rewrite ?N.leb_gt, ?N.eqb_neq; lia.
Qed.

Lemma dashed_sub_runs b s : dashed b (sub_runs b s) = true.
Proof.
  revert b. induction s as [|c s IH]; intros b; simpl; [done|].
  destruct (is_slug_char c) eqn:Hc.
  - simpl. by rewrite (slug_char_not_dash c Hc), Hc, IH.
  - destruct b; [done|]. simpl. by rewrite IH.
Qed.

Lemma dashed_weaken s : dashed true s = true → dashed false s = true.
Proof.
  destruct s as [|c s]; simpl; [done|]. by destruct (Ascii.eqb c "-").
Qed.

Lemma dashed_lstrip b s :
  dashed b s = true → dashed false (lstrip_char "-" s) = true.
Proof.
  revert b. induction s as [|c s IH]; intros b; simpl; [done|].
  destruct (Ascii.eqb c "-") eqn:Hc.
  - intros [_ Hs]%andb_true_iff. by eapply IH.
  - intros Hs. simpl. by rewrite Hc.
Qed.

Lemma dashed_rstrip b s :
  dashed b s = true → dashed b (rstrip_char "-" s) = true.
Proof.
  revert b. induction s as [|c s IH]; intros b; simpl; [done|].
  destruct (Ascii.eqb c "-") eqn:Hc.
  - intros [Hb Hs]%andb_true_iff. specialize (IH _ Hs).
    destruct (rstrip_char "-" s) as [|e t]; [done|].
    simpl in *. by rewrite Hc, Hb.
  - intros [Hsl Hs]%andb_true_iff. specialize (IH _ Hs).
    destruct (rstrip_char "-" s) as [|e t]; simpl in *.
    + by rewrite Hc, Hsl.
    + by rewrite Hc, Hsl.
Qed.

Lemma sub_runs_id b s : dashed b s = true → sub_runs b s = s.
Proof.
  revert b. induction s as [|c s IH]; intros b; simpl; [done|].
  destruct (Ascii.eqb c "-") eqn:Hc.
  - apply Ascii.eqb_eq in Hc as ->.
    intros [Hb Hs]%andb_true_iff. apply negb_true_iff in Hb as ->.
    change (is_slug_char "-") with false. simpl. by rewrite IH.
  - intros [-> Hs]%andb_true_iff. by rewrite IH.
Qed.

Lemma dashed_all b s :
  dashed b s = true →
  all (λ c, is_slug_char c || Ascii.eqb c "-") s = true.
Proof.
  revert b. induction s as [|c s IH]; intros b; simpl; [done|].
  destruct (Ascii.eqb c "-").
  - intros [_ Hs]%andb_true_iff. rewrite orb_true_r. simpl. by eapply IH.
  - intros [-> Hs]%andb_true_iff. simpl. by eapply IH.
Qed.

Lemma dashed_slug x : dashed false (slug x) = true.
Proof.
  unfold slug, strip_char.
  eapply dashed_rstrip, dashed_lstrip, dashed_sub_runs.
Qed.

Lemma slug_all (p : ascii → bool) x :
  (∀ c, is_slug_char c = true → p c = true) → p "-"%char = true →
  all p (slug x) = true.
Proof.
  intros Hp Hdash. eapply all_impl; [|eapply dashed_all, dashed_slug].
  intros c [Hc|Hc]%orb_true_iff; [auto|].
  by apply Ascii.eqb_eq in Hc as ->.
Qed.

(** Splitting at the first double underscore. *)
Lemma app_separator_inj u u' v v' :
  all (λ c, negb (Ascii.eqb c "_")) u = true →
  all (λ c, negb (Ascii.eqb c "_")) u' = true →
  u +:+ "__" +:+ v = u' +:+ "__" +:+ v' → u = u' ∧ v = v'.
Proof.
  revert u'. induction u as [|c u IH]; intros [|c' u']; simpl.
  - intros _ _ Heq. by simplify_eq/=.
  - intros _ [Hc _]%andb_true_iff Heq. by simplify_eq/=.
  - intros [Hc _]%andb_true_iff _ Heq. by simplify_eq/=.
  - intros [_ Hu]%andb_true_iff [_ Hu']%andb_true_iff Heq.
    injection Heq as -> Heq.
    destruct (IH u' Hu Hu' Heq) as [-> ->]. done.
Qed.

Lemma no_underscore_slug x :
  all (λ c, negb (Ascii.eqb c "_")) (slug x) = true.
Proof.
  apply slug_all; [|done]. intros c Hc. apply negb_true_iff.
  apply Ascii.eqb_neq. intros ->. by vm_compute in Hc.
Qed.

End ScrapeCanadaWestProofs.

Module ScrapeCanadaWestExtras.
Import Text TextOps TextOpsProofs ScrapeCanadaWest ScrapeCanadaWestProofs.

(** [to_int] reads back the decimal text of every integer, white space
    around it or not, as long as the interpreter converts texts of that
    many digits. *)
Theorem to_int_reads_decimal_text (s : string) (n : Z) :
  strip s = pretty n →
  String.length (pretty (Z.abs_N n)) ≤ MAX_STR_DIGITS →
  to_int (Some s) = Some n.
Proof.
  intros Hs Hlen. unfold to_int. rewrite Hs.
  pose proof (int_pretty n Hlen) as Hint.
  pose proof (all_digit_dash_pretty n) as Hchars.
  assert (Hlower : lower (pretty n) = pretty n).
  { apply lower_id. eapply all_impl; [|exact Hchars]. intros c Hc.
    apply orb_true_iff in Hc as [Hc|Hc].
    - by rewrite (digit_not_upper c Hc).
    - apply Ascii.eqb_eq in Hc as ->. done. }
  unfold keep_digits_dash. rewrite filter_id, Hint, Hlower by done.
  rewrite bool_decide_false.
  - rewrite bool_decide_false; [done|].
    intros Hin. repeat (apply elem_of_cons in Hin as [Heq|Hin];
      [rewrite Heq in Hint; by vm_compute in Hint|]).
    by apply elem_of_nil in Hin.
  - intros Heq. rewrite Heq in Hint. by vm_compute in Hint.
Qed.

Lemma to_int_reads_decimal_text_witness :
  strip "  -42 " = pretty (-42)%Z
  ∧ String.length (pretty (Z.abs_N (-42))) ≤ MAX_STR_DIGITS
  ∧ to_int (Some "  -42 ") = Some (-42)%Z.
Proof.
  assert (H1 : strip "  -42 " = pretty (-42)%Z) by reflexivity.
  assert (H2 : String.length (pretty (Z.abs_N (-42))) ≤ MAX_STR_DIGITS)
    by (vm_compute; lia).
  split_and!; [exact H1|exact H2|].
  exact (to_int_reads_decimal_text _ _ H1 H2).
Defined.

(** [to_int] reads the digits of a text and nothing else: a text without
    any digit gives no number, and a text without a minus sign gives the
    number that its digits denote when read in order, whatever stands
    between them. *)
Theorem to_int_reads_digits_only (s : string) :
  (all (λ c, negb (is_digit c)) s = true → to_int (Some s) = None)
  ∧ (all (λ c, negb (Ascii.eqb c "-")) s = true →
     filter is_digit s ≠ "" →
     String.length (filter is_digit s) ≤ MAX_STR_DIGITS →
     to_int (Some s) = Some (Z.of_N (decimal 0 (filter is_digit s)))).
Proof.
  split.
  - intros Hs. unfold to_int.
    destruct (_ || _); [done|].
    rewrite int_no_digit; [done|].
    unfold keep_digits_dash.
    assert (Hfilter : ∀ t, all (λ c, negb (is_digit c)) t = true →
              all (λ c, negb (is_digit c))
                (filter (λ c, is_digit c || Ascii.eqb c "-") t) = true).
    { induction t as [|c t IH]; simpl; [done|].
      intros [Hc Ht]%andb_true_iff.
      destruct (is_digit c || Ascii.eqb c "-"); simpl; [|auto].
      rewrite Hc. auto. }
    by apply Hfilter, all_strip.
  - intros Hdash Hne Hlen. unfold to_int.
    assert (Hkeep : keep_digits_dash (strip s) = filter is_digit s).
    { unfold keep_digits_dash.
      rewrite (filter_ext_all _ is_digit (λ c, negb (Ascii.eqb c "-")))
        by (by apply all_strip || (intros c Hc; apply negb_true_iff in Hc;
             by rewrite Hc, orb_false_r)).
      apply filter_strip, digit_not_space. }
    assert (Hint : int (keep_digits_dash (strip s))
                   = Ok (Z.of_N (decimal 0 (filter is_digit s)))).
    { rewrite Hkeep, int_of_digits, int_digits_decimal
        by (done || apply filter_all).
      by destruct (filter is_digit s). }
    rewrite Hint.
    assert (Hstrip : filter is_digit (strip s) = filter is_digit s)
      by apply filter_strip, digit_not_space.
    assert (Hlower : ∀ t, filter is_digit (lower t) = filter is_digit t).
    { unfold lower. induction t as [|c t IH]; simpl; [done|]. rewrite IH.
      unfold lower_char. destruct (is_upper c) eqn:Hc; [|done].
      assert (is_digit c = false) as ->.
      { destruct (is_digit c) eqn:Hd; [|done].
        by rewrite (digit_not_upper c Hd) in Hc. }
      assert (is_digit (ascii_of_N (code c + 32)) = false) as ->; [|done].
      unfold is_upper in Hc. apply andb_true_iff in Hc as [H1 H2].
      apply N.leb_le in H1, H2.
      unfold is_digit, code in *. rewrite N_ascii_embedding by lia.
      apply andb_false_iff. right. apply N.leb_gt. lia. }
    rewrite bool_decide_false.
    + rewrite bool_decide_false; [done|].
      intros Hin. apply Hne. rewrite <-Hstrip, <-(Hlower (strip s)).
      repeat (apply elem_of_cons in Hin as [->|Hin]; [done|]).
      by apply elem_of_nil in Hin.
    + intros Heq. apply Hne. by rewrite <-Hstrip, Heq.
Qed.

Lemma to_int_reads_digits_only_witness :
  (all (λ c, negb (is_digit c)) "TBD" = true ∧ to_int (Some "TBD") = None)
  ∧ (all (λ c, negb (Ascii.eqb c "-")) "3.5" = true
     ∧ filter is_digit "3.5" ≠ ""
     ∧ String.length (filter is_digit "3.5") ≤ MAX_STR_DIGITS
     ∧ to_int (Some "3.5") = Some 35%Z).
Proof.
  destruct (to_int_reads_digits_only "TBD") as [Hnone _].
  destruct (to_int_reads_digits_only "3.5") as [_ Hsome].
  assert (H1 : all (λ c, negb (is_digit c)) "TBD" = true) by reflexivity.
  assert (H2 : all (λ c, negb (Ascii.eqb c "-")) "3.5" = true)
    by reflexivity.
  assert (H3 : filter is_digit "3.5" ≠ "") by (vm_compute; discriminate).
  assert (H4 : String.length (filter is_digit "3.5") ≤ MAX_STR_DIGITS)
    by (vm_compute; lia).
  split; [split; [exact H1|exact (Hnone H1)]|].
  split_and!; [exact H2|exact H3|exact H4|exact (Hsome H2 H3 H4)].
Defined.

(** A slug is in canonical form: lower-case letters, digits and single
    dashes, no dash at either end; making the slug of a slug changes
    nothing. *)
Theorem slug_canonical (x : string) :
  dashed false (slug x) = true
  ∧ first_char (slug x) ≠ Some "-"%char
  ∧ last_char (slug x) ≠ Some "-"%char
  ∧ slug (slug x) = slug x.
Proof.
  assert (Hfirst : first_char (slug x) ≠ Some "-"%char)
    by apply first_char_rstrip_char, first_char_lstrip_char.
  assert (Hlast : last_char (slug x) ≠ Some "-"%char)
    by apply last_char_rstrip_char.
  split_and!; [apply dashed_slug|done|done|].
  unfold slug at 1.
  rewrite lower_id
    by (apply slug_all; [|done]; intros c Hc;
        by rewrite (slug_char_not_upper c Hc)).
  rewrite sub_runs_id by apply dashed_slug.
  unfold strip_char. by rewrite lstrip_char_id, rstrip_char_id.
Qed.

(** Two fixtures get the same match id exactly when their seasons, dates
    and team names have the same slugs: the four parts can be read back
    from the id. *)
Theorem make_match_id_injective (s d h a s' d' h' a' : string) :
  make_match_id s d h a = make_match_id s' d' h' a'
  ↔ slug s = slug s' ∧ slug d = slug d' ∧ slug h = slug h'
    ∧ slug a = slug a'.
Proof.
  unfold make_match_id. split.
  - intros Heq.
    apply app_separator_inj in Heq as [Hs Heq];
      [|apply no_underscore_slug..].
    apply app_separator_inj in Heq as [Hd Heq];
      [|apply no_underscore_slug..].
    apply app_separator_inj in Heq as [Hh Ha];
      [|apply no_underscore_slug..].
    done.
  - by intros (-> & -> & -> & ->).
Qed.

(** A match id is unchanged by the cleaning of the key columns in the
    later scripts ([str.strip] and [str.lower], in either order): the
    ids of the scraper are the keys of the joins as they stand. *)
Theorem match_id_is_clean (s d h a : string) :
  lower (strip (make_match_id s d h a)) = make_match_id s d h a
  ∧ strip (lower (make_match_id s d h a)) = make_match_id s d h a.
Proof.
  assert (Hall : ∀ p : ascii → bool,
            (∀ c, is_slug_char c = true → p c = true) →
            p "-"%char = true → p "_"%char = true →
            all p (make_match_id s d h a) = true).
  { intros p Hp Hdash Hund. unfold make_match_id.
    rewrite !all_app, !slug_all by done. simpl. by rewrite Hund. }
  assert (Hlower : lower (make_match_id s d h a) = make_match_id s d h a).
  { apply lower_id, Hall; [|done..]. intros c Hc.
    by rewrite (slug_char_not_upper c Hc). }
  assert (Hstrip : strip (make_match_id s d h a) = make_match_id s d h a).
  { apply strip_id, Hall; [|done..]. intros c Hc.
    by rewrite (slug_char_not_space c Hc). }
  by rewrite Hstrip, Hlower, Hstrip.
Qed.

End ScrapeCanadaWestExtras.

Module ScrapeBoxscoreProofs.
Import ScrapeBoxscore.

Lemma label_stats_snoc headers tds v d :
  label_stats headers (tds ++ [v]) d
  = <[stat_key headers (length tds) := v]> (label_stats headers tds d).
Proof.
  unfold label_stats. rewrite imap_app, foldl_app. simpl.
  by rewrite Nat.add_0_r.
Qed.

(** The last write to a key wins. *)
Lemma label_stats_lookup headers tds d i v :
  tds !! i = Some v →
  (∀ j, i < j < length tds → stat_key headers j ≠ stat_key headers i) →
  label_stats headers tds d !! stat_key headers i = Some v.
Proof.
  induction tds as [|w tds IH] using rev_ind; [done|].
  intros Hi Hlater. rewrite label_stats_snoc.
  rewrite length_app in Hlater. simpl in Hlater.
  destruct (decide (i = length tds)) as [->|Hne].
  - rewrite list_lookup_middle in Hi by done. injection Hi as ->.
    by rewrite lookup_insert_eq.
  - assert (i < length tds) as Hlt.
    { apply lookup_lt_Some in Hi. rewrite length_app in Hi. simpl in Hi. lia. }
    rewrite lookup_insert_ne by (apply Hlater; lia).
    rewrite lookup_app_l in Hi by done.
    apply IH; [done|]. intros j Hj. apply Hlater. lia.
Qed.

Lemma label_stats_other headers tds d k :
  (∀ j, j < length tds → stat_key headers j ≠ k) →
  label_stats headers tds d !! k = d !! k.
Proof.
  induction tds as [|w tds IH] using rev_ind; [done|].
  intros Hkeys. rewrite length_app in Hkeys. simpl in Hkeys.
  rewrite label_stats_snoc, lookup_insert_ne by (apply Hkeys; lia).
  apply IH. intros j Hj. apply Hkeys. lia.
Qed.

Lemma stat_key_header headers i h :
  headers !! i = Some h → stat_key headers i = h.
Proof. unfold stat_key. by intros ->. Qed.

Lemma stat_key_overflow headers i :
  length headers ≤ i → stat_key headers i = "STAT_" +:+ pretty (i + 1).
Proof.
  intros Hi. unfold stat_key. by rewrite lookup_ge_None_2.
Qed.

End ScrapeBoxscoreProofs.

Module ScrapeBoxscoreExtras.
Import ScrapeBoxscore ScrapeBoxscoreProofs.

(** A row with no more cells than the table has headers, the headers
    being distinct: every cell is stored under the header at its own
    position, and the fields that no header names are left as they
    were. *)
Theorem cells_are_stored_under_headers_by_position
    (headers tds : list string) (d : gmap string string) :
  NoDup headers →
  length tds ≤ length headers →
  (∀ i h v, headers !! i = Some h → tds !! i = Some v →
     label_stats headers tds d !! h = Some v)
  ∧ (∀ k, k ∉ take (length tds) headers →
     label_stats headers tds d !! k = d !! k).
Proof.
  intros Hnodup Hlen. split.
  - intros i h v Hh Hv.
    rewrite <-(stat_key_header headers i h Hh).
    apply label_stats_lookup; [done|]. intros j Hj.
    destruct (lookup_lt_is_Some_2 headers j) as [h' Hh']; [lia|].
    rewrite (stat_key_header _ _ _ Hh'), (stat_key_header _ _ _ Hh).
    intros ->. assert (j = i) by (by eapply NoDup_lookup). lia.
  - intros k Hk. apply label_stats_other. intros j Hj.
    destruct (lookup_lt_is_Some_2 headers j) as [h' Hh']; [lia|].
    rewrite (stat_key_header _ _ _ Hh'). intros ->. apply Hk.
    apply list_elem_of_lookup. exists j. by rewrite lookup_take_lt.
Qed.

Lemma cells_are_stored_under_headers_by_position_witness :
  NoDup ["PLAYER"; "SH"; "SOG"] ∧ length ["4"; "2"] ≤ length ["PLAYER"; "SH"; "SOG"]
  ∧ label_stats ["PLAYER"; "SH"; "SOG"] ["4"; "2"] ∅ !! "SH" = Some "2"
  ∧ label_stats ["PLAYER"; "SH"; "SOG"] ["4"; "2"] ∅ !! "SOG" = None.
Proof.
  assert (H1 : NoDup ["PLAYER"; "SH"; "SOG"]).
  { apply (bool_decide_unpack _). by vm_compute. }
  assert (H2 : length ["4"; "2"] ≤ length ["PLAYER"; "SH"; "SOG"])
    by (simpl; lia).
  destruct (cells_are_stored_under_headers_by_position
              ["PLAYER"; "SH"; "SOG"] ["4"; "2"] ∅ H1 H2) as [Hcell Hother].
  split_and!; [exact H1|exact H2| |].
  - exact (Hcell 1 "SH" "2" eq_refl eq_refl).
  - rewrite Hother; [done|].
    intros Hin. by apply (bool_decide_pack _) in Hin.
Defined.

(** A cell beyond the last header is stored under the key STAT_n, [n]
    its position counted from 1, whatever the headers are. *)
Theorem cells_beyond_headers_are_numbered
    (headers tds : list string) (d : gmap string string) (i : nat) (v : string) :
  length headers ≤ i →
  tds !! i = Some v →
  label_stats headers tds d !! ("STAT_" +:+ pretty (i + 1)) = Some v.
Proof.
  intros Hi Hv. rewrite <-(stat_key_overflow headers i Hi).
  apply label_stats_lookup; [done|]. intros j Hj.
  rewrite !stat_key_overflow by lia.
  intros Heq. simplify_eq/=.
  lia.
Qed.

Lemma cells_beyond_headers_are_numbered_witness :
  length ["PLAYER"] ≤ 2
  ∧ ["4"; "2"; "7"] !! 2 = Some "7"
  ∧ label_stats ["PLAYER"] ["4"; "2"; "7"] ∅ !! "STAT_3" = Some "7".
Proof.
  assert (H1 : length ["PLAYER"] ≤ 2) by (simpl; lia).
  assert (H2 : ["4"; "2"; "7"] !! 2 = Some "7") by reflexivity.
  split_and!; [exact H1|exact H2|].
  exact (cells_beyond_headers_are_numbered ["PLAYER"] ["4"; "2"; "7"] ∅ 2
           "7" H1 H2).
Defined.

End ScrapeBoxscoreExtras.

Module DropDuplicatesProofs.
Import Pandas DropDuplicates.

Section drop.
Context {A : Type} `{EqDecision A}.
Implicit Types l seen : list A.

Lemma elem_of_drop_seen seen l x :
  x ∈ drop_seen seen l ↔ x ∈ l ∧ x ∉ seen.
Proof.
  revert seen. induction l as [|y l IH]; intros seen; simpl.
  - split; [by intros ?%elem_of_nil|by intros [?%elem_of_nil _]].
  - case_decide as Hy.
    + rewrite IH, elem_of_cons. split.
      * intros [Hx Hs]. split; [by right|done].
      * intros [[->|Hx] Hs]; [done|by split].
    + split.
      * intros [->|[Hx Hs]%IH]%elem_of_cons; [by split; [left|]|].
        apply not_elem_of_cons in Hs as [_ Hs]. split; [by right|done].
      * intros [[->|Hx]%elem_of_cons Hs]; [by left|].
        destruct (decide (x = y)) as [->|Hne]; [by left|].
        right. apply IH. split; [done|]. by apply not_elem_of_cons.
Qed.

Lemma NoDup_drop_seen seen l : NoDup (drop_seen seen l).
Proof.
  revert seen. induction l as [|y l IH]; intros seen; simpl.
  - constructor.
  - case_decide; [done|]. constructor; [|done].
    rewrite elem_of_drop_seen. intros [_ Hy]. apply Hy. by left.
Qed.

Lemma sublist_drop_seen seen l : sublist (drop_seen seen l) l.
Proof.
  revert seen. induction l as [|y l IH]; intros seen; simpl; [done|].
  case_decide; [by apply sublist_cons|by apply sublist_skip].
Qed.

Lemma drop_seen_snoc seen l x :
  drop_seen seen (l ++ [x])
  = if decide (x ∈ seen ++ l) then drop_seen seen l
    else drop_seen seen l ++ [x].
Proof.
  revert seen. induction l as [|y l IH]; intros seen; simpl.
  - rewrite app_nil_r. by case_decide.
  - assert (Hmid : x ∈ (y :: seen) ++ l ↔ x ∈ seen ++ y :: l).
    { rewrite !elem_of_app, !elem_of_cons. tauto. }
    case_decide as Hy.
    + rewrite IH.
      assert (Hiff : x ∈ seen ++ l ↔ x ∈ seen ++ y :: l).
      { rewrite !elem_of_app, elem_of_cons. split; [tauto|].
        intros [?|[->|?]]; tauto. }
      destruct (decide (x ∈ seen ++ l)) as [Hx|Hx].
      * by rewrite decide_True by (by apply Hiff).
      * by rewrite decide_False by (by rewrite <-Hiff).
    + rewrite IH. destruct (decide (x ∈ (y :: seen) ++ l)) as [Hx|Hx].
      * by rewrite decide_True by (by apply Hmid).
      * by rewrite decide_False by (by rewrite <-Hmid).
Qed.

Lemma drop_seen_NoDup seen l :
  NoDup l → (∀ x, x ∈ l → x ∉ seen) → drop_seen seen l = l.
Proof.
  revert seen. induction l as [|y l IH]; intros seen; simpl; [done|].
  intros [Hy Hl]%NoDup_cons Hseen.
  rewrite decide_False by (apply Hseen; by left).
  f_equal. apply IH; [done|].
  intros x Hx [->|Hin]%elem_of_cons; [done|].
  by apply (Hseen x); [right|].
Qed.
End drop.

(** The rename sends two labels to one only when they are "G" and "A". *)
Lemma rename_inj x y :
  rename x = rename y → x = y ∨ (x = "G" ∧ y = "A") ∨ (x = "A" ∧ y = "G").
Proof.
  unfold rename.
  destruct (rename_map !! x) as [x'|] eqn:Hx;
    destruct (rename_map !! y) as [y'|] eqn:Hy; simpl.
  - apply elem_of_map_to_list in Hx, Hy. intros ->.
    vm_compute in Hx, Hy.
    repeat (apply elem_of_cons in Hx as [Hx|Hx]);
      try (by apply elem_of_nil in Hx);
    repeat (apply elem_of_cons in Hy as [Hy|Hy]);
      try (by apply elem_of_nil in Hy);
    simplify_eq; auto.
  - apply elem_of_map_to_list in Hx. intros ->.
    vm_compute in Hx.
    repeat (apply elem_of_cons in Hx as [Hx|Hx]);
      try (by apply elem_of_nil in Hx);
    simplify_eq; auto; by vm_compute in Hy.
  - apply elem_of_map_to_list in Hy. intros <-.
    vm_compute in Hy.
    repeat (apply elem_of_cons in Hy as [Hy|Hy]);
      try (by apply elem_of_nil in Hy);
    simplify_eq; auto; by vm_compute in Hx.
  - auto.
Qed.

End DropDuplicatesProofs.

Module DropDuplicatesExtras.
Import Pandas ScrapeBoxscore DropDuplicates DropDuplicatesProofs.

(** The rows that [drop_duplicates] leaves: no row twice, every row of
    the input, in the order of the first occurrences (a row added at the
    end of the table is dropped when the table has it already and is
    kept at the end otherwise); a table without repeated rows is left as
    it is, so that running the step again changes nothing. *)
Theorem drop_duplicates_keeps_first_occurrences (l : list (list cell)) :
  NoDup (drop_duplicates l)
  ∧ (∀ r, r ∈ drop_duplicates l ↔ r ∈ l)
  ∧ sublist (drop_duplicates l) l
  ∧ (∀ r, drop_duplicates (l ++ [r])
          = if decide (r ∈ l) then drop_duplicates l
            else drop_duplicates l ++ [r])
  ∧ (NoDup l → drop_duplicates l = l)
  ∧ drop_duplicates (drop_duplicates l) = drop_duplicates l.
Proof.
  unfold drop_duplicates. split_and!.
  - apply NoDup_drop_seen.
  - intros r. rewrite elem_of_drop_seen. split; [by intros [? _]|].
    intros Hr. split; [done|]. by intros ?%elem_of_nil.
  - apply sublist_drop_seen.
  - intros r. by rewrite drop_seen_snoc.
  - intros Hl. apply drop_seen_NoDup; [done|]. by intros x _ ?%elem_of_nil.
  - apply drop_seen_NoDup; [apply NoDup_drop_seen|].
    by intros x _ ?%elem_of_nil.
Qed.

(** The rename keeps the labels of a table distinct unless the table
    has both a column "G" and a column "A", which both come out as "A". *)
Theorem rename_keeps_labels_distinct (df : Table) :
  NoDup (columns df) →
  (NoDup (columns (main df)) ↔ ¬ ("G" ∈ columns df ∧ "A" ∈ columns df)).
Proof.
  intros Hnodup. simpl. split.
  - intros Hren [HG HA].
    apply list_elem_of_lookup in HG as [i Hi], HA as [j Hj].
    assert (i = j); [|by simplify_eq].
    eapply (NoDup_lookup _ i j "A" Hren);
      by rewrite list_lookup_fmap, ?Hi, ?Hj.
  - intros Hnot. apply NoDup_fmap_2_strong; [|done].
    intros x y Hx Hy Heq.
    destruct (rename_inj x y Heq) as [?|[[-> ->]|[-> ->]]]; [done|..];
      by destruct Hnot.
Qed.

Lemma rename_keeps_labels_distinct_witness :
  NoDup ["player"; "PLAYER"; "SH"; "SOG"; "G"]
  ∧ NoDup (columns (main {| columns := ["player"; "PLAYER"; "SH"; "SOG"; "G"];
                            rows := [] |}))
  ∧ columns (main {| columns := ["player"; "PLAYER"; "SH"; "SOG"; "G"];
                     rows := [] |})
    = ["player"; "SH"; "SOG"; "G"; "A"].
Proof.
  assert (H1 : NoDup ["player"; "PLAYER"; "SH"; "SOG"; "G"]).
  { apply (bool_decide_unpack _). by vm_compute. }
  split_and!; [exact H1| |reflexivity].
  apply (rename_keeps_labels_distinct
           {| columns := ["player"; "PLAYER"; "SH"; "SOG"; "G"];
              rows := [] |} H1).
  intros [_ HA]. by apply (bool_decide_pack _) in HA.
Defined.

(** The scraper and the rename together.  In a table whose header row
    reads PLAYER, SH, SOG, G, A the name of the player is not a stat
    cell, so that the scraper stores the four stat cells of a row one
    header to the left; after the rename every one of them stands under
    its own header, and the name of the player is still under
    "player". *)
Theorem rename_realigns_the_scraped_stats
    (match_info : MatchInfo) (header_cells : list string)
    (team_name side player_name number position sh sog g a : string) :
  headers_of header_cells = ["PLAYER"; "SH"; "SOG"; "G"; "A"] →
  let record :=
    player_data match_info team_name side player_name number position
      (headers_of header_cells) [sh; sog; g; a] in
  filter (λ kv, kv.1 = "SH") (renamed record) = [("SH", sh)]
  ∧ filter (λ kv, kv.1 = "SOG") (renamed record) = [("SOG", sog)]
  ∧ filter (λ kv, kv.1 = "G") (renamed record) = [("G", g)]
  ∧ filter (λ kv, kv.1 = "A") (renamed record) = [("A", a)]
  ∧ filter (λ kv, kv.1 = "player") (renamed record)
    = [("player", player_name)].
Proof. intros ->. by vm_compute. Qed.

Lemma rename_realigns_the_scraped_stats_witness :
  let header_cells := [" Player "; ""; "sh"; "SOG"; "G"; "A "] in
  let record :=
    player_data (mkMatchInfo "2023" "m1" "2023-09-01" "ubc" "uvic")
      "ubc" "home" "Ann Lee" "7" "F" (headers_of header_cells)
      ["3"; "2"; "1"; "0"] in
  headers_of header_cells = ["PLAYER"; "SH"; "SOG"; "G"; "A"]
  ∧ record !! "PLAYER" = Some "3"
  ∧ filter (λ kv, kv.1 = "SH") (renamed record) = [("SH", "3")]
  ∧ filter (λ kv, kv.1 = "G") (renamed record) = [("G", "1")].
Proof.
  intros header_cells record.
  assert (H : headers_of header_cells = ["PLAYER"; "SH"; "SOG"; "G"; "A"])
    by (vm_compute; reflexivity).
  destruct (rename_realigns_the_scraped_stats
              (mkMatchInfo "2023" "m1" "2023-09-01" "ubc" "uvic")
              header_cells "ubc" "home" "Ann Lee" "7" "F" "3" "2" "1" "0" H)
    as (HSH & _ & HG & _).
  split_and!; [exact H|by vm_compute|exact HSH|exact HG].
Defined.

End DropDuplicatesExtras.

Module MergePlayerFeaturesProofs.
Import Pandas MergePlayerFeatures.
Import BuildFeatures BuildFeaturesProofs.

Lemma agg_key_agg_of players k : agg_key (agg_of players k) = k.
Proof. by destruct k. Qed.

(** No two aggregates have the same key. *)
Lemma filter_agg_key players k :
  filter (λ a, agg_key a = k) (agg players)
  = if bool_decide (k ∈ omap key_of players) then [agg_of players k] else [].
Proof.
  unfold agg.
  rewrite (filter_fmap_key (agg_of players) agg_key _ k)
    by apply agg_key_agg_of.
  pose proof (NoDup_group_keys (omap key_of players)) as Hnodup.
  case_bool_decide as Hin.
  - apply elem_of_group_keys in Hin.
    by rewrite (filter_eq_NoDup _ _ Hnodup Hin).
  - rewrite filter_eq_absent; [done|].
    by rewrite elem_of_group_keys.
Qed.

Lemma merge_left_row {A} (f : Keyed A) players :
  merge_left [f] (agg players)
  = [(f, match key_of f with
         | Some k => if bool_decide (k ∈ omap key_of players)
                     then Some (agg_of players k) else None
         | None => None
         end)].
Proof.
  unfold merge_left. simpl. rewrite app_nil_r.
  destruct (key_of f) as [k|].
  - rewrite (list_filter_iff _ (λ a, agg_key a = k))
      by (intros a; split; [by intros [= ->]|by intros ->]).
    rewrite filter_agg_key. by case_bool_decide.
  - match goal with
    | |- context [@filter _ _ _ ?P ?d (agg players)] =>
        assert (@filter _ _ _ P d (agg players) = []) as ->; [|done]
    end.
    by apply filter_nil_iff', Forall_forall.
Qed.

Lemma merge_left_cons {A} (f : Keyed A) fs aggs :
  merge_left (f :: fs) aggs = merge_left [f] aggs ++ merge_left fs aggs.
Proof. unfold merge_left. simpl. by rewrite app_nil_r. Qed.

Lemma merge_left_agg {A} (fs : list (Keyed A)) players :
  merge_left fs (agg players) = (λ f, (f, summary_of players f)) <$> fs.
Proof.
  induction fs as [|f fs IH]; [done|].
  rewrite merge_left_cons, merge_left_row, IH. simpl. do 2 f_equal.
Qed.

Local Open Scope Qc_scope.

Lemma Qc_max_ge_l a b : a ≤ Qc_max a b.
Proof. unfold Qc_max. case_bool_decide; [done|apply Qcle_refl]. Qed.

Lemma Qc_max_ge_r a b : b ≤ Qc_max a b.
Proof.
  unfold Qc_max. case_bool_decide as H; [apply Qcle_refl|].
  by apply Qclt_le_weak, Qcnot_le_lt.
Qed.

Lemma Qc_max_cases a b : Qc_max a b = a ∨ Qc_max a b = b.
Proof. unfold Qc_max. case_bool_decide; auto. Qed.

Lemma foldr_Qc_max v vs :
  foldr Qc_max v vs ∈ v :: vs ∧ ∀ w, w ∈ v :: vs → w ≤ foldr Qc_max v vs.
Proof.
  induction vs as [|u vs [Hin Hge]]; simpl.
  - split; [by left|]. intros w [->|?%elem_of_nil]%elem_of_cons; [|done].
    apply Qcle_refl.
  - split.
    + destruct (Qc_max_cases u (foldr Qc_max v vs)) as [-> | ->].
      * right. by left.
      * apply elem_of_cons in Hin as [Hin|Hin]; [rewrite Hin; by left|].
        right. by right.
    + intros w [->|[->|Hw]%elem_of_cons]%elem_of_cons.
      * eapply Qcle_trans; [|apply Qc_max_ge_r]. apply Hge. by left.
      * apply Qc_max_ge_l.
      * eapply Qcle_trans; [|apply Qc_max_ge_r]. apply Hge. by right.
Qed.

End MergePlayerFeaturesProofs.

Module MergePlayerFeaturesExtras.
Import Pandas Text TextOps TextOpsProofs ColumnFacts.
Import MergePlayerFeatures MergePlayerFeaturesProofs.
Local Open Scope Qc_scope.

(** The enrichment keeps the team rows as they are: one output row for
    every team row, in the order of the input, with nothing but its keys
    normalized; the player summary of the row is that of its (match,
    team) when some player row has these keys and is missing otherwise. *)
Theorem merged_keeps_every_team_row {A} (features : list (Keyed A))
    (players : list (Keyed PlayerStats)) :
  merged features players
  = (λ f, (f, summary_of (normalize_keys <$> players) f))
      <$> (normalize_keys <$> features)
  ∧ fst <$> merged features players = normalize_keys <$> features
  ∧ length (merged features players) = length features.
Proof.
  unfold merged. rewrite merge_left_agg. split_and!.
  - done.
  - generalize (normalize_keys <$> features). intros l.
    apply list_eq. intros i. rewrite !list_lookup_fmap.
    by destruct (l !! i).
  - by rewrite !length_fmap.
Qed.

(** The summaries of one column of a group are present or missing
    together.  With no observation the count and the sum are 0 and the
    mean and the maximum are missing; with an observation the count is
    positive and the mean and the maximum have a value.  The maximum is
    one of the observations and no observation is above it. *)
Theorem summaries_of_a_column (x : list (option Qc)) :
  (mean x = None ↔ agg_count x = 0%nat)
  ∧ (agg_max x = None ↔ agg_count x = 0%nat)
  ∧ (agg_count x = 0%nat → agg_sum x = 0)
  ∧ (∀ mx, agg_max x = Some mx →
       Some mx ∈ x ∧ ∀ v, Some v ∈ x → v ≤ mx).
Proof.
  unfold agg_count, agg_sum, agg_max. fold (present x).
  split_and!.
  - rewrite mean_None_iff. by destruct (present x).
  - by destruct (present x).
  - intros Hn. by destruct (present x).
  - intros mx. destruct (present x) as [|v vs] eqn:Hp; [done|]. intros [= <-].
    destruct (foldr_Qc_max v vs) as [Hin Hge].
    rewrite <-Hp in Hin, Hge.
    split; [by apply elem_of_present|].
    intros w Hw. by apply Hge, elem_of_present.
Qed.

Lemma summaries_of_a_column_witness :
  let x := [Some (Qc_of_Z 2); None; Some (Qc_of_Z 1)] in
  agg_count x = 2%nat ∧ agg_max x = Some (Qc_of_Z 2)
  ∧ Some (Qc_of_Z 2) ∈ x
  ∧ mean x ≠ None
  ∧ agg_count [@None Qc; None] = 0%nat
  ∧ mean [None; None] = None ∧ agg_sum [None; None] = 0.
Proof.
  intros x.
  assert (H1 : agg_count x = 2%nat) by reflexivity.
  assert (H2 : agg_max x = Some (Qc_of_Z 2)) by (by vm_compute).
  assert (H3 : agg_count [@None Qc; None] = 0%nat) by reflexivity.
  destruct (summaries_of_a_column x) as (Hmean & _ & _ & Hmax).
  destruct (summaries_of_a_column [None; None]) as (Hnone & _ & Hsum & _).
  split_and!; [exact H1|exact H2| | |exact H3| |].
  - exact (proj1 (Hmax _ H2)).
  - intros Hm. apply Hmean in Hm. rewrite H1 in Hm. discriminate Hm.
  - exact (proj2 Hnone H3).
  - exact (Hsum H3).
Defined.

(** The team keys come out in one canonical form: no capital letter and
    no blank; normalizing again changes nothing, and so does the
    cleaning of the keys in the other scripts ([strip] and [lower], in
    either order). *)
Theorem team_keys_are_canonical (t : option string) :
  normalize_team (normalize_team t) = normalize_team t
  ∧ normalize_match_id (normalize_match_id t) = normalize_match_id t
  ∧ ∀ y, normalize_team t = Some y →
      all (λ c, negb (is_upper c) && negb (Ascii.eqb c " ")) y = true
      ∧ strip (lower y) = y ∧ lower (strip y) = y.
Proof.
  assert (Hcanon : ∀ s, let y := replace_char " " "-" (strip (lower s)) in
            all (λ c, negb (is_upper c) && negb (Ascii.eqb c " ")) y = true
            ∧ lower y = y ∧ strip y = y).
  { intros s y.
    assert (Hall : all (λ c, negb (is_upper c) && negb (Ascii.eqb c " ")) y
                   = true).
    { unfold y, replace_char.
      eapply all_map_impl; [|apply all_strip, all_lower].
      intros c Hc. simpl in Hc.
      destruct (Ascii.eqb c " ") eqn:Hsp; [done|]. by rewrite Hc, Hsp. }
    assert (Hlower : lower y = y).
    { apply lower_id. eapply all_impl; [|exact Hall].
      by intros c [? _]%andb_true_iff. }
    split_and!; [done|done|].
    destruct (strip_ends (lower s)) as [Hfirst Hlast].
    apply strip_id_ends.
    - unfold y, replace_char. rewrite first_char_map.
      intros c Hc. destruct (first_char (strip (lower s))) as [d|] eqn:Hd;
        [|done].
      injection Hc as <-. specialize (Hfirst d eq_refl).
      destruct (Ascii.eqb d " ") eqn:Hsp; [|done].
      apply Ascii.eqb_eq in Hsp as ->. done.
    - unfold y, replace_char. rewrite last_char_map.
      intros c Hc. destruct (last_char (strip (lower s))) as [d|] eqn:Hd;
        [|done].
      injection Hc as <-. specialize (Hlast d eq_refl).
      destruct (Ascii.eqb d " ") eqn:Hsp; [|done].
      apply Ascii.eqb_eq in Hsp as ->. done. }
  split_and!.
  - destruct t as [s|]; [|done]. simpl. f_equal.
    destruct (Hcanon s) as (Hall & Hlower & Hstrip).
    rewrite Hlower, Hstrip. unfold replace_char.
    eapply map_id_on; [|exact Hall]. intros c [_ Hc]%andb_true_iff.
    apply negb_true_iff in Hc. by rewrite Hc.
  - destruct t as [s|]; [|done]. simpl. f_equal.
    rewrite (lower_id (strip (lower s))) by apply all_strip, all_lower.
    destruct (strip_ends (lower s)) as [Hfirst Hlast].
    by apply strip_id_ends.
  - intros y Hy. destruct t as [s|]; [|done]. injection Hy as <-.
    destruct (Hcanon s) as (Hall & Hlower & Hstrip).
    by rewrite Hlower, Hstrip, Hlower.
Qed.

Lemma team_keys_are_canonical_witness :
  normalize_team (Some " UBC Okanagan ") = Some "ubc-okanagan"
  ∧ strip (lower "ubc-okanagan") = "ubc-okanagan"
  ∧ normalize_team (Some "ubc-okanagan") = Some "ubc-okanagan".
Proof.
  assert (H1 : normalize_team (Some " UBC Okanagan ") = Some "ubc-okanagan")
    by reflexivity.
  destruct (team_keys_are_canonical (Some " UBC Okanagan "))
    as (Hidem & _ & Hclean).
  split_and!; [exact H1| |].
  - exact (proj1 (proj2 (Hclean _ H1))).
  - rewrite H1 in Hidem. exact Hidem.
Defined.

End MergePlayerFeaturesExtras.

Module CleanLineupsScriptProofs.
Import Text TextOps TextOpsProofs.
Import Frame CleanLineups CleanLineupsScript.

Lemma split_whitespace_word_app w sp rest :
  is_word w = true → is_space sp = true →
  split_whitespace (w +:+ String sp rest) = w :: split_whitespace rest.
Proof.
  intros Hw Hsp. induction w as [|c w IH]; [done|].
  unfold is_word in Hw. simpl in Hw.
  apply andb_true_iff in Hw as [Hc Hw]. apply negb_true_iff in Hc.
  simpl. rewrite Hc. destruct w as [|d w].
  - simpl. rewrite Hsp. by destruct (split_whitespace rest).
  - simpl in Hw. pose proof Hw as Hw'.
    apply andb_true_iff in Hw' as [Hd _]. apply negb_true_iff in Hd.
    rewrite IH by (unfold is_word; simpl; by rewrite Hw).
    simpl. by rewrite Hd.
Qed.

Lemma split_whitespace_word w :
  is_word w = true → split_whitespace w = [w].
Proof.
  intros Hw. induction w as [|c w IH]; [done|].
  unfold is_word in Hw. simpl in Hw.
  apply andb_true_iff in Hw as [Hc Hw]. apply negb_true_iff in Hc.
  simpl. rewrite Hc. destruct w as [|d w]; [done|].
  simpl in Hw. pose proof Hw as Hw'.
  apply andb_true_iff in Hw' as [Hd _]. apply negb_true_iff in Hd.
  rewrite IH by (unfold is_word; simpl; by rewrite Hw).
  simpl. by rewrite Hd.
Qed.

Lemma split_whitespace_words s :
  Forall (λ w, is_word w = true) (split_whitespace s).
Proof.
  induction s as [|c s IH]; simpl; [constructor|].
  destruct (is_space c) eqn:Hc; [done|].
  destruct (first_char s) as [d|] eqn:Hd;
    [|constructor; [unfold is_word; simpl; by rewrite Hc|constructor]].
  destruct (split_whitespace s) as [|w ws];
    [constructor; [unfold is_word; simpl; by rewrite Hc|constructor]|].
  apply Forall_cons in IH as [Hw Hws].
  destruct (is_space d).
  - constructor; [unfold is_word; simpl; by rewrite Hc|by constructor].
  - constructor; [|done]. unfold is_word in *. simpl. rewrite Hc. simpl.
    by apply andb_true_iff in Hw as [_ ->].
Qed.

Lemma split_whitespace_join ws :
  Forall (λ w, is_word w = true) ws →
  split_whitespace (join " " ws) = ws.
Proof.
  induction 1 as [|w ws Hw Hws IH]; [done|].
  destruct ws as [|w' ws].
  - simpl. by apply split_whitespace_word.
  - change (join " " (w :: w' :: ws)) with (w +:+ " " +:+ join " " (w' :: ws)).
    change (" " +:+ join " " (w' :: ws))
      with (String " " (join " " (w' :: ws))).
    rewrite split_whitespace_word_app by done. by rewrite IH.
Qed.

Lemma all_split_whitespace p s :
  all p s = true → Forall (λ w, all p w = true) (split_whitespace s).
Proof.
  induction s as [|c s IH]; simpl; [constructor|].
  intros [Hc Hs]%andb_true_iff. specialize (IH Hs).
  destruct (is_space c); [done|].
  destruct (first_char s) as [d|];
    [|constructor; [simpl; by rewrite Hc|constructor]].
  destruct (split_whitespace s) as [|w ws];
    [constructor; [simpl; by rewrite Hc|constructor]|].
  apply Forall_cons in IH as [Hw Hws].
  destruct (is_space d).
  - constructor; [simpl; by rewrite Hc|by constructor].
  - constructor; [|done]. simpl. by rewrite Hc, Hw.
Qed.

Lemma all_join p ws :
  p " "%char = true → Forall (λ w, all p w = true) ws →
  all p (join " " ws) = true.
Proof.
  intros Hsp. induction 1 as [|w ws Hw Hws IH]; [done|].
  destruct ws as [|w' ws]; [done|].
  change (join " " (w :: w' :: ws)) with (w +:+ " " +:+ join " " (w' :: ws)).
  rewrite !all_app, Hw, IH. simpl. by rewrite Hsp.
Qed.

Lemma first_char_app s t :
  first_char (s +:+ t) = match first_char s with
                         | Some c => Some c
                         | None => first_char t
                         end.
Proof. by destruct s. Qed.

Lemma last_char_cons c s :
  last_char (String c s) = match last_char s with
                           | Some d => Some d
                           | None => Some c
                           end.
Proof.
  destruct s as [|d s]; [done|].
  change (last_char (String c (String d s))) with (last_char (String d s)).
  destruct (last_char (String d s)) eqn:Hl; [done|].
  exfalso. clear c. revert d Hl. induction s as [|e s IH]; intros d; [done|].
  change (last_char (String d (String e s))) with (last_char (String e s)).
  apply IH.
Qed.

Lemma last_char_Some s : s ≠ "" → ∃ c, last_char s = Some c.
Proof.
  induction s as [|c s IH]; [done|]. intros _.
  rewrite last_char_cons. destruct (last_char s); eauto.
Qed.

Lemma last_char_app s t :
  last_char (s +:+ t) = match last_char t with
                        | Some c => Some c
                        | None => last_char s
                        end.
Proof.
  induction s as [|c s IH].
  { change ("" +:+ t) with t. by destruct (last_char t). }
  change (String c s +:+ t) with (String c (s +:+ t)).
  rewrite last_char_cons, IH, (last_char_cons c s).
  by destruct (last_char t).
Qed.

Lemma all_first_char p s c :
  all p s = true → first_char s = Some c → p c = true.
Proof.
  destruct s as [|d s]; simpl; [done|].
  by intros [Hd _]%andb_true_iff [= <-].
Qed.

Lemma all_last_char p s c :
  all p s = true → last_char s = Some c → p c = true.
Proof.
  induction s as [|d s IH]; simpl; [done|].
  intros [Hd Hs]%andb_true_iff. destruct s as [|e s].
  - by intros [= <-].
  - by apply IH.
Qed.

Lemma word_nonempty w : is_word w = true → w ≠ "".
Proof. by intros Hw ->. Qed.

Lemma word_no_space w :
  is_word w = true → all (λ c, negb (is_space c)) w = true.
Proof. unfold is_word. by intros [_ ?]%andb_true_iff. Qed.

Lemma join_nonempty w ws : is_word w = true → join " " (w :: ws) ≠ "".
Proof.
  intros Hw. destruct ws as [|w' ws]; [by apply word_nonempty|].
  change (join " " (w :: w' :: ws)) with (w +:+ " " +:+ join " " (w' :: ws)).
  destruct w; [done|]. done.
Qed.

(** Words joined by single blanks: no white space at the ends. *)
Lemma join_ends ws :
  Forall (λ w, is_word w = true) ws →
  (∀ c, first_char (join " " ws) = Some c → is_space c = false)
  ∧ (∀ c, last_char (join " " ws) = Some c → is_space c = false).
Proof.
  induction 1 as [|w ws Hw Hws [IHf IHl]]; [done|].
  pose proof (word_no_space w Hw) as Hall.
  destruct ws as [|w' ws].
  - simpl. split; intros c Hc; apply negb_true_iff.
    + exact (all_first_char (λ c, negb (is_space c)) w c Hall Hc).
    + exact (all_last_char (λ c, negb (is_space c)) w c Hall Hc).
  - change (join " " (w :: w' :: ws)) with (w +:+ " " +:+ join " " (w' :: ws)).
    split; intros c.
    + rewrite first_char_app.
      destruct (first_char w) as [d|] eqn:Hd;
        [|by destruct w; [apply word_nonempty in Hw|]].
      intros [= <-]. apply negb_true_iff.
      exact (all_first_char (λ c, negb (is_space c)) w d Hall Hd).
    + rewrite last_char_app.
      apply Forall_cons in Hws as [Hw' _].
      pose proof (join_nonempty w' ws Hw') as Hne.
      change (" " +:+ join " " (w' :: ws))
        with (String " " (join " " (w' :: ws))).
      rewrite last_char_cons.
      destruct (last_char_Some _ Hne) as [d Hd]. rewrite Hd.
      intros [= <-]. by apply IHl.
Qed.

Lemma is_ascii_space : is_ascii " " = true.
Proof. done. Qed.

Lemma lower_char_ascii c : is_ascii c = true → is_ascii (lower_char c) = true.
Proof.
  unfold lower_char. destruct (is_upper c) eqn:Hc; [|done]. intros _.
  unfold is_upper, is_ascii, code in *. apply andb_true_iff in Hc as [H1 H2].
  apply N.leb_le in H1, H2. rewrite N_ascii_embedding by lia.
  apply N.ltb_lt. lia.
Qed.

Lemma first_char_rstrip_nonempty s :
  rstrip s ≠ "" → first_char (rstrip s) = first_char s.
Proof.
  destruct s as [|c s]; simpl; [done|].
  destruct (rstrip s); [|done]. by destruct (is_space c).
Qed.

(** [split] does not see the white space at the ends. *)
Lemma split_whitespace_lstrip s :
  split_whitespace (lstrip s) = split_whitespace s.
Proof.
  induction s as [|c s IH]; simpl; [done|].
  destruct (is_space c) eqn:Hc; [done|]. simpl. by rewrite Hc.
Qed.

Lemma split_whitespace_rstrip s :
  split_whitespace (rstrip s) = split_whitespace s.
Proof.
  induction s as [|c s IH]; [done|].
  pose proof (first_char_rstrip_nonempty s) as Hfirst.
  simpl. destruct (rstrip s) as [|e t] eqn:Hr.
  - simpl in IH. rewrite <-IH.
    destruct (is_space c) eqn:Hc; simpl; rewrite ?Hc; [done|].
    by destruct (first_char s).
  - destruct (is_space c) eqn:Hc.
    + simpl. rewrite ?Hc. exact IH.
    + rewrite <-Hfirst by done. rewrite <-IH.
      simpl. by rewrite ?Hc.
Qed.

Lemma split_whitespace_strip s :
  split_whitespace (strip s) = split_whitespace s.
Proof.
  unfold strip. by rewrite split_whitespace_rstrip, split_whitespace_lstrip.
Qed.

Lemma lower_char_space c : is_space (lower_char c) = is_space c.
Proof.
  unfold lower_char. destruct (is_upper c) eqn:Hc; [|done].
  unfold is_upper, is_space, code in *. apply andb_true_iff in Hc as [H1 H2].
  apply N.leb_le in H1, H2. rewrite N_ascii_embedding by lia.
  repeat match goal with
  | |- context [(?a <=? ?b)%N] => destruct (N.leb_spec a b)
  | |- context [(?a =? ?b)%N] => destruct (N.eqb_spec a b)
  end; simpl; try done; lia.
Qed.

Lemma lstrip_lower s : lstrip (lower s) = lower (lstrip s).
Proof.
  unfold lower. induction s as [|c s IH]; simpl; [done|].
  rewrite lower_char_space. by destruct (is_space c).
Qed.

Lemma rstrip_lower s : rstrip (lower s) = lower (rstrip s).
Proof.
  unfold lower. induction s as [|c s IH]; simpl; [done|].
  rewrite IH. destruct (rstrip s); simpl.
  - rewrite lower_char_space. by destruct (is_space c).
  - done.
Qed.

Lemma strip_lower s : strip (lower s) = lower (strip s).
Proof. unfold strip. by rewrite lstrip_lower, rstrip_lower. Qed.

(** What [normalize_text] returns: words joined by single blanks. *)
Lemma normalize_text_words s :
  ∃ ws, normalize_text s = join " " ws
        ∧ Forall (λ w, is_word w = true) ws
        ∧ Forall (λ w, all (λ c, negb (is_upper c) && is_ascii c) w = true) ws.
Proof.
  exists (split_whitespace (ascii_ignore (lower (strip s)))).
  split_and!; [done|apply split_whitespace_words|].
  apply all_split_whitespace. unfold ascii_ignore.
  assert (Hlow : all (λ c, negb (is_upper c))
                   (filter is_ascii (lower (strip s))) = true).
  { generalize (all_lower (strip s)). generalize (lower (strip s)).
    intros t. induction t as [|c t IH]; simpl; [done|].
    intros [Hc Ht]%andb_true_iff.
    destruct (is_ascii c); simpl; [rewrite Hc|]; auto. }
  pose proof (filter_all is_ascii (lower (strip s))) as Hasc.
  revert Hlow Hasc. generalize (filter is_ascii (lower (strip s))).
  intros t. induction t as [|c t IH]; simpl; [done|].
  intros [-> Ht]%andb_true_iff [-> Ht']%andb_true_iff. simpl. auto.
Qed.

(** *** Selecting rows *)

Lemma select_cons {A} (b : bool) m (x : A) l :
  select (b :: m) (x :: l) = if b then x :: select m l else select m l.
Proof. unfold select. simpl. rewrite filter_cons. by destruct b. Qed.

Lemma select_nil_r {A} m : select m ([] : list A) = [].
Proof. unfold select. by destruct m. Qed.

Lemma select_zip {A B} m (a : list A) (b : list B) :
  select m (zip a b) = zip (select m a) (select m b).
Proof.
  revert a b. induction m as [|x m IH]; intros a b; [done|].
  destruct a as [|y a]; [by rewrite !select_nil_r|].
  destruct b as [|z b].
  { rewrite !select_nil_r. simpl. rewrite select_nil_r.
    by destruct (select (x :: m) (y :: a)). }
  simpl. rewrite !select_cons, IH. by destruct x.
Qed.

Lemma select_fmap {A B} (f : A → B) m l :
  select m (f <$> l) = f <$> select m l.
Proof.
  revert l. induction m as [|x m IH]; intros l; [done|].
  destruct l as [|y l]; [by rewrite !select_nil_r|].
  simpl. rewrite !select_cons, IH. by destruct x.
Qed.

Lemma keep_last_cons {K} `{EqDecision K} (k : K) keys :
  keep_last (k :: keys) = bool_decide (k ∉ keys) :: keep_last keys.
Proof. done. Qed.

(** Keeping the last row of every key. *)
Lemma select_keep_last {K} `{EqDecision K} (keys : list K) :
  select (keep_last keys) keys = remove_dups keys.
Proof.
  induction keys as [|k keys IH]; [done|].
  rewrite keep_last_cons, select_cons, IH. simpl.
  case_bool_decide as Hk; by destruct (decide_rel elem_of k keys).
Qed.

Lemma length_keep_last {K} `{EqDecision K} (keys : list K) :
  length (keep_last keys) = length keys.
Proof. unfold keep_last. by rewrite length_imap. Qed.

Lemma elem_of_select {A} m (l : list A) x : x ∈ select m l → x ∈ l.
Proof.
  revert l. induction m as [|b m IH]; intros l; [by intros ?%elem_of_nil|].
  destruct l as [|y l]; [by rewrite select_nil_r|].
  rewrite select_cons. destruct b.
  - intros [->|Hx]%elem_of_cons; [by left|]. right. by apply IH.
  - intros Hx. right. by apply IH.
Qed.

(** *** Columns of a table *)

Lemma get_column_map (g : column → column) name (df : DataFrame) :
  get_column name (prod_map id g <$> df) = g <$> get_column name df.
Proof.
  induction df as [|[n c] df IH]; [done|]. simpl.
  by destruct (decide (n = name)).
Qed.

Lemma get_column_elem name (df : DataFrame) c :
  get_column name df = Some c → (name, c) ∈ df.
Proof.
  induction df as [|[n c'] df IH]; simpl; [done|].
  destruct (decide (n = name)) as [->|Hne].
  - intros [= ->]. by left.
  - intros Hc. right. by apply IH.
Qed.

Lemma nrows_normalize_names df : nrows (normalize_names df) = nrows df.
Proof. by destruct df as [|[n c] df]. Qed.

Lemma well_formed_column df name c :
  well_formed df → get_column name (normalize_names df) = Some c →
  column_length c = nrows df.
Proof.
  intros Hwf Hc. apply get_column_elem in Hc.
  unfold normalize_names, map_names in Hc.
  apply list_elem_of_fmap in Hc as ([n c'] & [= _ ->] & Hin).
  unfold well_formed in Hwf. rewrite Forall_forall in Hwf.
  exact (Hwf _ Hin).
Qed.

Section script.
Variable parse : string → option Qc.
Variable format : Qc → string.

Lemma length_cells_of c : length (cells_of format c) = column_length c.
Proof. destruct c; simpl; [|done]. by rewrite length_fmap. Qed.

Lemma get_to_numeric_if_present_ne c name df :
  name ≠ c →
  get_column name (to_numeric_if_present parse c df) = get_column name df.
Proof.
  intros Hne. unfold to_numeric_if_present.
  destruct (get_column c df); [|done]. by apply BuildFeaturesProofs.get_set_column_ne.
Qed.

Lemma get_foldl_to_numeric name df :
  name ∉ num_cols →
  get_column name (foldl (λ d c, to_numeric_if_present parse c d) df num_cols)
  = get_column name df.
Proof.
  unfold num_cols. rewrite !not_elem_of_cons.
  intros (? & ? & ? & ? & ? & _). simpl.
  by rewrite !get_to_numeric_if_present_ne.
Qed.

(** Applying a function that never raises. *)
Lemma apply_total {A B} (f : A → except B) (P : B → Prop) l :
  (∀ x, ∃ y, f x = Ok y ∧ P y) →
  ∃ ys, apply f l = Ok ys ∧ length ys = length l ∧ Forall P ys.
Proof.
  intros Hf. induction l as [|x l (ys & Hys & Hlen & HP)].
  - by exists [].
  - destruct (Hf x) as (y & Hy & Py). exists (y :: ys). simpl.
    rewrite Hy, Hys. simpl. split_and!; [done|by rewrite Hlen|].
    by constructor.
Qed.

Lemma normalize_year_Ok y :
  ∃ nl, normalize_year y = Ok nl ∧ nl ∈ YEAR_CLASSES.
Proof.
  unfold normalize_year.
  destruct (isna y || negb (Text.truthy (Text.strip (CleanLineups.str y)))).
  { eexists. split; [done|]. unfold YEAR_CLASSES.
    do 5 right. by left. }
  destruct (mapping_text !! _) as [v|] eqn:Hk; simpl.
  - apply CleanLineupsProofs.mapping_text_codomain in Hk.
    destruct (CleanLineupsProofs.year_of_label v) as (n & Hget & Hn);
      [by left|].
    rewrite Hget. by exists (n, v).
  - eexists. split; [by vm_compute|]. unfold YEAR_CLASSES.
    do 5 right. by left.
Qed.

Lemma normalize_position_Ok p :
  ∃ zg, normalize_position p = Ok zg ∧ zg.2 ∈ POSITION_GROUPS.
Proof.
  unfold normalize_position, POSITION_GROUPS.
  destruct (isna p || negb (Text.truthy (Text.strip (CleanLineups.str p)))).
  { eexists. split; [done|]. simpl. do 4 right. by left. }
  destruct (CleanLineupsProofs.first_split_Ok "/"
              (keep_letters_slash (Text.upper (CleanLineups.str p))))
    as [t Ht].
  rewrite Ht. cbn [except_bind].
  destruct (any_in GK_KEYS t);
    [eexists; split; [done|]; simpl; by left|].
  destruct (any_in DEF_KEYS t);
    [eexists; split; [done|]; simpl; right; by left|].
  destruct (any_in MID_KEYS t);
    [eexists; split; [done|]; simpl; do 2 right; by left|].
  destruct (any_in FOR_KEYS t);
    [eexists; split; [done|]; simpl; do 3 right; by left|].
  eexists; split; [done|]; simpl; do 4 right; by left.
Qed.
Lemma unzip_Ok {A B} (data : list (A * B)) :
  data ≠ [] → unzip data = Ok (data.*1, data.*2).
Proof. by destruct data. Qed.

(** The run of the script on a table that has the five columns and at
    least one row. *)
Lemma prepared_spec df cs ct cpl cy cp :
  get_column "season" (normalize_names df) = Some cs →
  get_column "team" (normalize_names df) = Some ct →
  get_column "player" (normalize_names df) = Some cpl →
  get_column "year" (normalize_names df) = Some cy →
  get_column "position" (normalize_names df) = Some cp →
  column_length cy ≠ 0 → column_length cp ≠ 0 →
  ∃ yd pd p,
    year_data format cy = Ok yd ∧ pos_data format cp = Ok pd
    ∧ length yd = column_length cy ∧ length pd = column_length cp
    ∧ Forall (λ nl, nl ∈ YEAR_CLASSES) yd
    ∧ Forall (λ zg, zg.2 ∈ POSITION_GROUPS) pd
    ∧ prepared parse format df = Ok p
    ∧ get_column "season" p = Some (TextCol (normalized format cs))
    ∧ get_column "team" p = Some (TextCol (normalized format ct))
    ∧ get_column "player" p = Some (TextCol (normalized format cpl))
    ∧ get_column "year_num" p
      = Some (NumCol ((λ n, Some (Qc_of_Z n)) <$> yd.*1))
    ∧ get_column "year_std" p = Some (TextCol (Some <$> yd.*2))
    ∧ get_column "position_zone" p = Some (TextCol (Some <$> pd.*1))
    ∧ get_column "position_group" p = Some (TextCol (Some <$> pd.*2)).
Proof.
  intros Hs Ht Hpl Hy Hp Hny Hnp.
  destruct (apply_total normalize_year (λ nl, nl ∈ YEAR_CLASSES)
              (cells_of format cy) normalize_year_Ok)
    as (yd & Hyd & Hlyd & HPy).
  destruct (apply_total normalize_position (λ zg, zg.2 ∈ POSITION_GROUPS)
              (cells_of format cp) normalize_position_Ok)
    as (pd & Hpd & Hlpd & HPp).
  rewrite length_cells_of in Hlyd, Hlpd.
  assert (Hyne : yd ≠ []) by (intros ->; simpl in Hlyd; lia).
  assert (Hpne : pd ≠ []) by (intros ->; simpl in Hlpd; lia).
  eexists yd, pd, _.
  split_and!; [done|done|done|done|done|done|..].
  - unfold prepared, map_normalize_text, getitem_column.
    rewrite Hs. cbn [except_bind].
    rewrite BuildFeaturesProofs.get_set_column_ne, Ht by done.
    cbn [except_bind].
    rewrite !BuildFeaturesProofs.get_set_column_ne, Hpl by done.
    cbn [except_bind].
    rewrite !BuildFeaturesProofs.get_set_column_ne, Hy by done.
    cbn [except_bind]. rewrite Hyd. cbn [except_bind].
    rewrite (unzip_Ok yd Hyne). cbn [except_bind].
    rewrite !BuildFeaturesProofs.get_set_column_ne, Hp by done.
    cbn [except_bind]. rewrite Hpd. cbn [except_bind].
    rewrite (unzip_Ok pd Hpne). cbn [except_bind fst snd].
    reflexivity.
  - rewrite get_foldl_to_numeric
      by (by apply (bool_decide_unpack _); vm_compute).
    rewrite !BuildFeaturesProofs.get_set_column_ne by done.
    by rewrite BuildFeaturesProofs.get_set_column.
  - rewrite get_foldl_to_numeric
      by (by apply (bool_decide_unpack _); vm_compute).
    rewrite !BuildFeaturesProofs.get_set_column_ne by done.
    by rewrite BuildFeaturesProofs.get_set_column.
  - rewrite get_foldl_to_numeric
      by (by apply (bool_decide_unpack _); vm_compute).
    rewrite !BuildFeaturesProofs.get_set_column_ne by done.
    by rewrite BuildFeaturesProofs.get_set_column.
  - rewrite get_foldl_to_numeric
      by (by apply (bool_decide_unpack _); vm_compute).
    rewrite !BuildFeaturesProofs.get_set_column_ne by done.
    by rewrite BuildFeaturesProofs.get_set_column.
  - rewrite get_foldl_to_numeric
      by (by apply (bool_decide_unpack _); vm_compute).
    rewrite !BuildFeaturesProofs.get_set_column_ne by done.
    by rewrite BuildFeaturesProofs.get_set_column.
  - rewrite get_foldl_to_numeric
      by (by apply (bool_decide_unpack _); vm_compute).
    rewrite !BuildFeaturesProofs.get_set_column_ne by done.
    by rewrite BuildFeaturesProofs.get_set_column.
  - rewrite get_foldl_to_numeric
      by (by apply (bool_decide_unpack _); vm_compute).
    by rewrite BuildFeaturesProofs.get_set_column.
Qed.
Lemma apply_nil {A B} (f : A → except B) : apply f [] = Ok [].
Proof. done. Qed.

(** What a successful run has found in the table. *)
Lemma prepared_Ok_inv df p :
  prepared parse format df = Ok p →
  ∃ cs ct cpl cy cp,
    get_column "season" (normalize_names df) = Some cs
    ∧ get_column "team" (normalize_names df) = Some ct
    ∧ get_column "player" (normalize_names df) = Some cpl
    ∧ get_column "year" (normalize_names df) = Some cy
    ∧ get_column "position" (normalize_names df) = Some cp
    ∧ column_length cy ≠ 0 ∧ column_length cp ≠ 0.
Proof.
  unfold prepared, map_normalize_text, getitem_column.
  destruct (get_column "season" (normalize_names df)) as [cs|]; [|done].
  cbn [except_bind].
  rewrite BuildFeaturesProofs.get_set_column_ne by done.
  destruct (get_column "team" (normalize_names df)) as [ct|]; [|done].
  cbn [except_bind].
  rewrite !BuildFeaturesProofs.get_set_column_ne by done.
  destruct (get_column "player" (normalize_names df)) as [cpl|]; [|done].
  cbn [except_bind].
  rewrite !BuildFeaturesProofs.get_set_column_ne by done.
  destruct (get_column "year" (normalize_names df)) as [cy|]; [|done].
  cbn [except_bind].
  destruct (apply normalize_year (cells_of format cy)) as [yd|] eqn:Hyd;
    [|done].
  cbn [except_bind].
  destruct yd as [|y yd]; [done|]. cbn [except_bind unzip].
  rewrite !BuildFeaturesProofs.get_set_column_ne by done.
  destruct (get_column "position" (normalize_names df)) as [cp|]; [|done].
  cbn [except_bind].
  destruct (apply normalize_position (cells_of format cp)) as [pd|] eqn:Hpd;
    [|done].
  cbn [except_bind].
  destruct pd as [|z pd]; [done|]. intros _.
  exists cs, ct, cpl, cy, cp. split_and!; try done.
  - rewrite <-length_cells_of. intros Hlen.
    destruct (cells_of format cy); [|done]. done.
  - rewrite <-length_cells_of. intros Hlen.
    destruct (cells_of format cp); [|done]. done.
Qed.

Lemma has_column_get name (df : DataFrame) :
  has_column name df = true ↔ ∃ c, get_column name df = Some c.
Proof.
  pose proof (BuildFeaturesProofs.get_column_None name df) as Hnone.
  destruct (get_column name df) as [c|].
  - split; [by exists c|]. intros _.
    destruct (has_column name df); [done|].
    by pose proof (proj2 Hnone eq_refl).
  - split; [|by intros [? ?]]. intros Hhas.
    by rewrite (proj1 Hnone eq_refl) in Hhas.
Qed.

Lemma length_select_same {A B} m (a : list A) (b : list B) :
  length a = length b → length (select m a) = length (select m b).
Proof.
  revert a b. induction m as [|x m IH]; intros a b Hlen; [done|].
  destruct a as [|y a], b as [|z b]; simpl in Hlen; try done.
  injection Hlen as Hlen. rewrite !select_cons.
    destruct x; simpl; by rewrite (IH a b).
Qed.
End script.

End CleanLineupsScriptProofs.

Module CleanLineupsScriptExtras.
Import Text TextOps TextOpsProofs.
Import Frame CleanLineups CleanLineupsScript CleanLineupsScriptProofs.

(** On ASCII text [normalize_text] returns a canonical form: the words
    of the text in lower case, joined by single blanks; the result has
    no white space at its ends and no capital letter, and normalizing it
    again changes nothing. *)
Theorem normalize_text_canonical (s : string) :
  all is_ascii s = true →
  normalize_text s = join " " (split_whitespace (lower s))
  ∧ normalize_text (normalize_text s) = normalize_text s
  ∧ strip (normalize_text s) = normalize_text s
  ∧ lower (normalize_text s) = normalize_text s.
Proof.
  intros Hs. set (t := normalize_text s).
  destruct (normalize_text_words s) as (ws & Ht & Hwords & Hchars).
  fold t in Ht.
  assert (Hsplit : split_whitespace t = ws)
    by (rewrite Ht; by apply split_whitespace_join).
  assert (Hstrip : strip t = t).
  { rewrite Ht. destruct (join_ends ws Hwords). by apply strip_id_ends. }
  assert (Hall : all (λ c, negb (is_upper c) && is_ascii c) t = true).
  { rewrite Ht. by apply all_join. }
  assert (Hlower : lower t = t).
  { apply lower_id. eapply all_impl; [|exact Hall].
    by intros c [? _]%andb_true_iff. }
  assert (Hascii : ascii_ignore t = t).
  { apply filter_id. eapply all_impl; [|exact Hall].
    by intros c [_ ?]%andb_true_iff. }
  split_and!; [|..|done|done].
  - unfold t, normalize_text, ascii_ignore.
    rewrite filter_id.
    + by rewrite <-strip_lower, split_whitespace_strip.
    + unfold lower. eapply all_map_impl; [|by apply all_strip].
      apply lower_char_ascii.
  - unfold normalize_text at 1. fold t.
    by rewrite Hstrip, Hlower, Hascii, Hsplit.
Qed.

Lemma normalize_text_canonical_witness :
  all is_ascii "  UBC   Thunderbirds " = true
  ∧ normalize_text "  UBC   Thunderbirds " = "ubc thunderbirds"
  ∧ normalize_text "ubc thunderbirds" = "ubc thunderbirds".
Proof.
  assert (H : all is_ascii "  UBC   Thunderbirds " = true) by reflexivity.
  destruct (normalize_text_canonical _ H) as (Hwords & Hidem & _).
  split_and!; [exact H|reflexivity|exact Hidem].
Defined.

(** The removal of the duplicates in [main].  The key of a row is its
    cleaned (season, team, player); the output holds every key of the
    cleaned table exactly once, the row kept for a key is the last row of
    the table with that key, and all the columns are cut to the same
    rows. *)
Theorem main_keeps_the_last_row_of_every_key
    (parse : string → option Qc) (format : Qc → string)
    (df out : DataFrame) :
  well_formed df →
  main parse format df = Ok out →
  ∃ p keys,
    prepared parse format df = Ok p
    ∧ subset_keys format p = Ok keys
    ∧ length keys = nrows df
    ∧ subset_keys format out = Ok (remove_dups keys)
    ∧ NoDup (remove_dups keys)
    ∧ (∀ k, k ∈ remove_dups keys ↔ k ∈ keys)
    ∧ (∀ name, get_column name out
               = select_column (keep_last keys) <$> get_column name p)
    ∧ (∀ i, keep_last keys !! i = Some true
            ↔ ∃ k, keys !! i = Some k ∧ k ∉ drop (S i) keys).
Proof.
  intros Hwf Hmain. unfold main in Hmain.
  destruct (prepared parse format df) as [p|] eqn:Hp; [|done].
  cbn [except_bind] in Hmain.
  destruct (prepared_Ok_inv parse format df p Hp)
    as (cs & ct & cpl & cy & cp & Hs & Ht & Hpl & Hy & Hpos & Hny & Hnp).
  destruct (prepared_spec parse format df cs ct cpl cy cp
              Hs Ht Hpl Hy Hpos Hny Hnp)
    as (yd & pd & p' & _ & _ & _ & _ & _ & _ & Hp' & Hgs & Hgt & Hgp & _).
  rewrite Hp in Hp'. injection Hp' as <-.
  set (keys := zip3 (normalized format cs) (normalized format ct)
                 (normalized format cpl)).
  assert (Hkeys : subset_keys format p = Ok keys).
  { unfold subset_keys, getitem_column. by rewrite Hgs, Hgt, Hgp. }
  unfold drop_duplicates_last in Hmain. rewrite Hkeys in Hmain.
  cbn [except_bind] in Hmain. injection Hmain as <-.
  assert (Hget : ∀ name,
            get_column name (select_rows (keep_last keys) p)
            = select_column (keep_last keys) <$> get_column name p)
    by (intros name; apply get_column_map).
  exists p, keys. split_and!; try done.
  - unfold keys, zip3, normalized.
    rewrite !length_zip, !length_fmap, !length_cells_of.
    rewrite (well_formed_column df _ _ Hwf Hs),
      (well_formed_column df _ _ Hwf Ht),
      (well_formed_column df _ _ Hwf Hpl). lia.
  - unfold subset_keys, getitem_column.
    rewrite !Hget, Hgs, Hgt, Hgp. simpl.
    unfold zip3. rewrite <-!select_zip. fold (zip3 (normalized format cs)
      (normalized format ct) (normalized format cpl)). fold keys.
    by rewrite select_keep_last.
  - apply NoDup_remove_dups.
  - intros k. apply elem_of_remove_dups.
  - intros i. unfold keep_last. rewrite list_lookup_imap.
    destruct (keys !! i) as [k|]; simpl.
    + split.
      * intros [= Hk]. exists k. split; [done|].
        by apply bool_decide_eq_true in Hk.
      * intros (k' & [= <-] & Hk). f_equal. by apply bool_decide_eq_true.
    + split; [done|]. by intros (k & ? & _).
Qed.

Lemma main_keeps_the_last_row_of_every_key_witness :
  ∃ out keys,
    well_formed raw_lineups
    ∧ main Scenarios.parse_number Scenarios.format_number raw_lineups = Ok out
    ∧ subset_keys Scenarios.format_number out = Ok (remove_dups keys)
    ∧ NoDup (remove_dups keys)
    ∧ subset_keys Scenarios.format_number out
      = Ok [ (Some "2024-25", Some "ubc", Some "bea roy");
             (Some "2024-25", Some "ubc", Some "ann lee") ]
    ∧ texts "year_std" out = Some [Some "UNK"; Some "2nd"].
Proof.
  assert (Hwf : well_formed raw_lineups) by (by repeat constructor).
  let v := eval vm_compute in
    (main Scenarios.parse_number Scenarios.format_number raw_lineups) in
  match v with Ok ?o => pose (out := o) end.
  assert (Hmain : main Scenarios.parse_number Scenarios.format_number
                    raw_lineups = Ok out) by (vm_compute; reflexivity).
  destruct (main_keeps_the_last_row_of_every_key _ _ _ _ Hwf Hmain)
    as (p & keys & _ & _ & _ & Hout & Hnodup & _).
  exists out, keys.
  split_and!; [exact Hwf|exact Hmain|exact Hout|exact Hnodup| |];
    vm_compute; reflexivity.
Defined.

(** The table that [main] writes is classified throughout: every row
    has one of the six year classes in its two year columns and one of
    the five position groups in its group column, and these columns have
    a value in every row. *)
Theorem cleaned_table_is_classified
    (parse : string → option Qc) (format : Qc → string)
    (df out : DataFrame) :
  well_formed df →
  main parse format df = Ok out →
  ∃ years positions,
    get_column "year_num" out
    = Some (NumCol ((λ n, Some (Qc_of_Z n)) <$> years.*1))
    ∧ get_column "year_std" out = Some (TextCol (Some <$> years.*2))
    ∧ get_column "position_zone" out = Some (TextCol (Some <$> positions.*1))
    ∧ get_column "position_group" out
      = Some (TextCol (Some <$> positions.*2))
    ∧ Forall (λ nl, nl ∈ YEAR_CLASSES) years
    ∧ Forall (λ zg, zg.2 ∈ POSITION_GROUPS) positions
    ∧ length years = length positions.
Proof.
  intros Hwf Hmain. unfold main in Hmain.
  destruct (prepared parse format df) as [p|] eqn:Hp; [|done].
  cbn [except_bind] in Hmain.
  destruct (prepared_Ok_inv parse format df p Hp)
    as (cs & ct & cpl & cy & cp & Hs & Ht & Hpl & Hy & Hpos & Hny & Hnp).
  destruct (prepared_spec parse format df cs ct cpl cy cp
              Hs Ht Hpl Hy Hpos Hny Hnp)
    as (yd & pd & p' & _ & _ & Hlyd & Hlpd & HPy & HPp & Hp' & Hgs & Hgt
        & Hgp & Hyn & Hys & Hpz & Hpg).
  rewrite Hp in Hp'. injection Hp' as <-.
  unfold drop_duplicates_last in Hmain.
  destruct (subset_keys format p) as [keys|]; [|done].
  cbn [except_bind] in Hmain. injection Hmain as <-.
  exists (select (keep_last keys) yd), (select (keep_last keys) pd).
  unfold select_rows. rewrite !get_column_map, Hyn, Hys, Hpz, Hpg. simpl.
  rewrite !select_fmap.
  split_and!; try done.
  - apply Forall_forall. intros nl Hnl%elem_of_select.
    by eapply Forall_forall in HPy.
  - apply Forall_forall. intros zg Hzg%elem_of_select.
    by eapply Forall_forall in HPp.
  - apply length_select_same.
    rewrite Hlyd, Hlpd, (well_formed_column df _ _ Hwf Hy).
    by rewrite (well_formed_column df _ _ Hwf Hpos).
Qed.

Lemma cleaned_table_is_classified_witness :
  ∃ out,
    well_formed raw_lineups
    ∧ main Scenarios.parse_number Scenarios.format_number raw_lineups = Ok out
    ∧ (∃ positions : list (string * string),
         get_column "position_group" out
         = Some (TextCol (Some <$> positions.*2))
         ∧ Forall (λ zg, zg.2 ∈ POSITION_GROUPS) positions)
    ∧ texts "position_group" out = Some [Some "GK"; Some "UNK"].
Proof.
  assert (Hwf : well_formed raw_lineups) by (by repeat constructor).
  let v := eval vm_compute in
    (main Scenarios.parse_number Scenarios.format_number raw_lineups) in
  match v with Ok ?o => pose (out := o) end.
  assert (Hmain : main Scenarios.parse_number Scenarios.format_number
                    raw_lineups = Ok out) by (vm_compute; reflexivity).
  destruct (cleaned_table_is_classified _ _ _ _ Hwf Hmain)
    as (years & positions & _ & _ & _ & Hpg & _ & HP & _).
  exists out. split_and!; [exact Hwf|exact Hmain| |vm_compute; reflexivity].
  exists positions. split; [exact Hpg|exact HP].
Defined.

(** On a table whose column labels are distinct once they are stripped
    and put in lower case, [main] runs to its end exactly when the table
    has the five columns it reads and at least one row.  On such a table
    with the columns and no row it stops with a [ValueError] (there is
    nothing to unpack into the two year columns), and without a season
    column it stops with a [KeyError].  A table in which two labels
    become the same one ("GP" and "gp") is outside the statement. *)
Theorem main_needs_its_columns_and_a_row
    (parse : string → option Qc) (format : Qc → string) (df : DataFrame) :
  well_formed df →
  NoDup (names (normalize_names df)) →
  ((∃ out, main parse format df = Ok out)
   ↔ (∀ c, c ∈ REQUIRED → has_column c (normalize_names df) = true)
     ∧ 0 < nrows df)
  ∧ ((∀ c, c ∈ REQUIRED → has_column c (normalize_names df) = true) →
     nrows df = 0 →
     main parse format df = Raise (ValueError "not enough values to unpack"))
  ∧ (has_column "season" (normalize_names df) = false →
     main parse format df = Raise (KeyError "season")).
Proof.
  intros Hwf _.
  assert (Hcols : (∀ c, c ∈ REQUIRED → has_column c (normalize_names df) = true) →
            ∃ cs ct cpl cy cp,
              get_column "season" (normalize_names df) = Some cs
              ∧ get_column "team" (normalize_names df) = Some ct
              ∧ get_column "player" (normalize_names df) = Some cpl
              ∧ get_column "year" (normalize_names df) = Some cy
              ∧ get_column "position" (normalize_names df) = Some cp).
  { intros Hreq.
    destruct (proj1 (has_column_get "season" (normalize_names df))) as [cs Hs];
      [apply Hreq; by left|].
    destruct (proj1 (has_column_get "team" (normalize_names df))) as [ct Ht];
      [apply Hreq; right; by left|].
    destruct (proj1 (has_column_get "player" (normalize_names df))) as [cpl Hpl];
      [apply Hreq; do 2 right; by left|].
    destruct (proj1 (has_column_get "year" (normalize_names df))) as [cy Hy];
      [apply Hreq; do 3 right; by left|].
    destruct (proj1 (has_column_get "position" (normalize_names df))) as [cp Hp];
      [apply Hreq; do 4 right; by left|].
    by exists cs, ct, cpl, cy, cp. }
  split_and!.
  - split.
    + intros [out Hmain]. unfold main in Hmain.
      destruct (prepared parse format df) as [p|] eqn:Hp; [|done].
      destruct (prepared_Ok_inv parse format df p Hp)
        as (cs & ct & cpl & cy & cp & Hs & Ht & Hpl & Hy & Hpos & Hny & _).
      split.
      * intros c Hc. apply has_column_get. unfold REQUIRED in Hc.
        repeat (apply elem_of_cons in Hc as [->|Hc]; [eauto|]).
        by apply elem_of_nil in Hc.
      * rewrite (well_formed_column df _ _ Hwf Hy) in Hny. lia.
    + intros [Hreq Hrows].
      destruct (Hcols Hreq) as (cs & ct & cpl & cy & cp & Hs & Ht & Hpl
                                & Hy & Hpos).
      destruct (prepared_spec parse format df cs ct cpl cy cp
                  Hs Ht Hpl Hy Hpos)
        as (yd & pd & p & _ & _ & _ & _ & _ & _ & Hp & Hgs & Hgt & Hgp & _).
      { rewrite (well_formed_column df _ _ Hwf Hy). lia. }
      { rewrite (well_formed_column df _ _ Hwf Hpos). lia. }
      unfold main. rewrite Hp. cbn [except_bind].
      unfold drop_duplicates_last, subset_keys, getitem_column.
      rewrite Hgs, Hgt, Hgp. cbn [except_bind]. by eexists.
  - intros Hreq Hrows.
    destruct (Hcols Hreq) as (cs & ct & cpl & cy & cp & Hs & Ht & Hpl
                              & Hy & Hpos).
    pose proof (well_formed_column df _ _ Hwf Hy) as Hlen.
    rewrite Hrows, <-(length_cells_of format) in Hlen.
    unfold main, prepared, map_normalize_text, getitem_column.
    rewrite Hs. cbn [except_bind].
    rewrite BuildFeaturesProofs.get_set_column_ne, Ht by done.
    cbn [except_bind].
    rewrite !BuildFeaturesProofs.get_set_column_ne, Hpl by done.
    cbn [except_bind].
    rewrite !BuildFeaturesProofs.get_set_column_ne, Hy by done.
    cbn [except_bind].
    destruct (cells_of format cy); [|done]. done.
  - intros Hs%BuildFeaturesProofs.get_column_None.
    unfold main, prepared, map_normalize_text, getitem_column.
    by rewrite Hs.
Qed.

Lemma main_needs_its_columns_and_a_row_witness :
  well_formed empty_lineups
  ∧ NoDup (names (normalize_names empty_lineups))
  ∧ NoDup (names (normalize_names raw_lineups))
  ∧ (∀ c, c ∈ REQUIRED → has_column c (normalize_names empty_lineups) = true)
  ∧ nrows empty_lineups = 0
  ∧ main Scenarios.parse_number Scenarios.format_number empty_lineups
    = Raise (ValueError "not enough values to unpack")
  ∧ well_formed raw_lineups
  ∧ 0 < nrows raw_lineups
  ∧ ∃ out, main Scenarios.parse_number Scenarios.format_number raw_lineups
           = Ok out.
Proof.
  assert (Hwf : well_formed empty_lineups) by (by repeat constructor).
  assert (Hwf' : well_formed raw_lineups) by (by repeat constructor).
  assert (Hreq : ∀ c, c ∈ REQUIRED →
            has_column c (normalize_names empty_lineups) = true).
  { intros c Hc. unfold REQUIRED in Hc.
    repeat (apply elem_of_cons in Hc as [->|Hc]; [by vm_compute|]).
    by apply elem_of_nil in Hc. }
  assert (Hreq' : ∀ c, c ∈ REQUIRED →
            has_column c (normalize_names raw_lineups) = true).
  { intros c Hc. unfold REQUIRED in Hc.
    repeat (apply elem_of_cons in Hc as [->|Hc]; [by vm_compute|]).
    by apply elem_of_nil in Hc. }
  assert (Hrows : nrows empty_lineups = 0) by reflexivity.
  assert (Hrows' : 0 < nrows raw_lineups) by (simpl; lia).
  assert (Hnd : NoDup (names (normalize_names empty_lineups)))
    by (apply (bool_decide_unpack _); by vm_compute).
  assert (Hnd' : NoDup (names (normalize_names raw_lineups)))
    by (apply (bool_decide_unpack _); by vm_compute).
  destruct (main_needs_its_columns_and_a_row Scenarios.parse_number
              Scenarios.format_number empty_lineups Hwf Hnd)
    as (_ & Hempty & _).
  destruct (main_needs_its_columns_and_a_row Scenarios.parse_number
              Scenarios.format_number raw_lineups Hwf' Hnd')
    as (Hiff & _ & _).
  split_and!; [exact Hwf|exact Hnd|exact Hnd'|exact Hreq|exact Hrows
              |exact (Hempty Hreq Hrows)|exact Hwf'|exact Hrows'|].
  exact (proj2 Hiff (conj Hreq' Hrows')).
Defined.

End CleanLineupsScriptExtras.

Module AppProofs.
Import Pandas PandasProofs Frame BuildFeaturesProofs ColumnFacts.
Import MergePlayerFeatures App.
Local Open Scope Qc_scope.

(** *** The two inputs of the prediction *)

Lemma getitem_columns_ext names (df df' : DataFrame) :
  (∀ n, n ∈ names → get_column n df = get_column n df') →
  getitem_columns names df = getitem_columns names df'.
Proof.
  induction names as [|n names IH]; intros Hext; [done|].
  simpl. rewrite <-(Hext n) by left.
  rewrite IH; [done|]. intros n' Hn'. apply Hext. by right.
Qed.

Lemma get_column_assign (m : stat → Qc) (df : DataFrame) n :
  (∀ s, stat_name s ≠ n) →
  get_column n (assign m df) = get_column n df.
Proof.
  intros Hn. unfold assign. generalize base_stats. intros l. revert df.
  induction l as [|s l IH]; intros df; [done|].
  simpl. rewrite IH. unfold set_scalar.
  apply get_set_column_ne. intros ->. by apply (Hn s).
Qed.

(** *** The means of a lineup *)

Lemma sum_of_cons s r rows :
  sum_of s (r :: rows) = default 0 (stat_of s r) + sum_of s rows.
Proof.
  unfold sum_of, present. rewrite fmap_cons. simpl.
  destruct (stat_of s r); simpl; [done|by rewrite Qcplus_0_l].
Qed.

Lemma present_stat_all s rows :
  Forall (λ r, is_Some (stat_of s r)) rows →
  length (present (stat_of s <$> rows)) = length rows.
Proof.
  induction 1 as [|r rows [v Hv] _ IH]; [done|].
  unfold present. rewrite fmap_cons. simpl. rewrite Hv. simpl.
  f_equal. exact IH.
Qed.

Lemma means_all s rows :
  rows ≠ [] → Forall (λ r, is_Some (stat_of s r)) rows →
  means rows s * Qc_of_nat (length rows) = sum_of s rows.
Proof.
  intros Hne Hall. unfold means.
  destruct (mean (stat_of s <$> rows)) as [mu|] eqn:Hmu.
  - simpl. rewrite <-(present_stat_all s rows Hall). symmetry.
    by apply mean_times_count.
  - apply mean_None_iff in Hmu.
    pose proof (present_stat_all s rows Hall) as Hlen. rewrite Hmu in Hlen.
    by destruct rows.
Qed.

Lemma stat_of_put values s r : stat_of s (put values r) = Some (values s).
Proof. by destruct s. Qed.

Lemma new_lineup_all lineup pool swap_out swap_in s :
  Forall (λ r, is_Some (stat_of s r)) lineup →
  Forall (λ r, is_Some (stat_of s r)) (new_lineup lineup pool swap_out swap_in).
Proof.
  intros Hall. unfold new_lineup. apply Forall_fmap.
  eapply Forall_impl; [exact Hall|]. intros r Hr. simpl.
  destruct (decide (is_player swap_out r)); [|done].
  rewrite stat_of_put. by eexists.
Qed.

Lemma new_lineup_cons r lineup pool swap_out swap_in :
  new_lineup (r :: lineup) pool swap_out swap_in
  = (if decide (is_player swap_out r)
     then put (incoming_stats pool swap_in) r else r)
    :: new_lineup lineup pool swap_out swap_in.
Proof. done. Qed.

(** Replacing values by values that are not below them does not lower
    the sum, and the other way round. *)
Lemma sum_of_new_lineup_ge lineup pool swap_out swap_in s :
  Forall (λ r, is_Some (stat_of s r)) lineup →
  (∀ r v, r ∈ swapped_out lineup swap_out → stat_of s r = Some v →
     v ≤ incoming_stats pool swap_in s) →
  sum_of s lineup ≤ sum_of s (new_lineup lineup pool swap_out swap_in).
Proof.
  induction 1 as [|r lineup [v Hv] _ IH]; intros Hin; [apply Qcle_refl|].
  rewrite new_lineup_cons, !sum_of_cons. unfold swapped_out in *.
  apply Qcplus_le_compat.
  - destruct (decide (is_player swap_out r)) as [Hr|Hr]; [|apply Qcle_refl].
    rewrite stat_of_put, Hv. simpl. apply (Hin r v); [|done].
    apply list_elem_of_filter. split; [done|by left].
  - apply IH. intros r' v' Hr' Hv'. apply (Hin r' v'); [|done].
    apply list_elem_of_filter in Hr' as [? ?].
    apply list_elem_of_filter. split; [done|by right].
Qed.

Lemma sum_of_new_lineup_le lineup pool swap_out swap_in s :
  Forall (λ r, is_Some (stat_of s r)) lineup →
  (∀ r v, r ∈ swapped_out lineup swap_out → stat_of s r = Some v →
     incoming_stats pool swap_in s ≤ v) →
  sum_of s (new_lineup lineup pool swap_out swap_in) ≤ sum_of s lineup.
Proof.
  induction 1 as [|r lineup [v Hv] _ IH]; intros Hin; [apply Qcle_refl|].
  rewrite new_lineup_cons, !sum_of_cons. unfold swapped_out in *.
  apply Qcplus_le_compat.
  - destruct (decide (is_player swap_out r)) as [Hr|Hr]; [|apply Qcle_refl].
    rewrite stat_of_put, Hv. simpl. apply (Hin r v); [|done].
    apply list_elem_of_filter. split; [done|by left].
  - apply IH. intros r' v' Hr' Hv'. apply (Hin r' v'); [|done].
    apply list_elem_of_filter in Hr' as [? ?].
    apply list_elem_of_filter. split; [done|by right].
Qed.

Lemma means_le s rows rows' :
  rows ≠ [] → length rows' = length rows →
  Forall (λ r, is_Some (stat_of s r)) rows →
  Forall (λ r, is_Some (stat_of s r)) rows' →
  sum_of s rows ≤ sum_of s rows' → means rows s ≤ means rows' s.
Proof.
  intros Hne Hlen Hall Hall' Hsum.
  assert (Hne' : rows' ≠ []) by (intros ->; by destruct rows).
  assert (Hpos : 0 < Qc_of_nat (length rows)).
  { apply Qc_of_nat_pos. destruct rows; [done|simpl; lia]. }
  apply (Qcmult_lt_0_le_reg_r _ _ _ Hpos).
  rewrite (means_all s rows Hne Hall). rewrite <-Hlen.
  by rewrite (means_all s rows' Hne' Hall').
Qed.

Lemma new_lineup_unchanged lineup pool swap_out swap_in :
  swapped_out lineup swap_out = [] →
  new_lineup lineup pool swap_out swap_in = lineup.
Proof.
  unfold swapped_out, new_lineup. intros Hnil.
  rewrite <-(list_fmap_id lineup) at 2. apply list_fmap_ext.
  intros i r Hr. simpl. rewrite decide_False; [done|]. intros Hp.
  assert (Hin : r ∈ filter (is_player swap_out) lineup).
  { apply list_elem_of_filter. split; [done|].
    by eapply list_elem_of_lookup_2. }
  rewrite Hnil in Hin. by apply elem_of_nil in Hin.
Qed.

End AppProofs.

Module AppExtras.
Import Pandas PandasProofs Frame BuildFeaturesProofs ColumnFacts.
Import MergePlayerFeatures App AppProofs.
Local Open Scope Qc_scope.

(** The "before" and the "after" input of the swap simulation of
    [app.py] are the same table whenever the model has no feature named
    after a base statistic ("G", "SH", "SOG", "A"): the simulated means
    are written into the row itself, and the original means are assigned
    under the names of the base statistics, which the selection of the
    model's features then leaves out. *)
Theorem before_and_after_inputs_agree (orig new : stat → Qc)
    (feat_order : list string) (enriched_row : DataFrame) :
  (∀ s, stat_name s ∉ feat_order) →
  X_old orig new feat_order enriched_row = X_new new feat_order enriched_row.
Proof.
  intros Hfeat. unfold X_old, X_new. apply getitem_columns_ext.
  intros n Hn. apply get_column_assign. intros s <-. by apply (Hfeat s).
Qed.

Lemma before_and_after_inputs_agree_witness :
  (∀ s, stat_name s ∉ TrainModel.feature_cols)
  ∧ X_old (orig_means lineup_of_three)
      (new_means lineup_of_three other_matches (Some "ann") (Some "dee"))
      TrainModel.feature_cols enriched_team_row
    = X_new (new_means lineup_of_three other_matches (Some "ann") (Some "dee"))
        TrainModel.feature_cols enriched_team_row
  ∧ new_means lineup_of_three other_matches (Some "ann") (Some "dee") SH
    ≠ orig_means lineup_of_three SH.
Proof.
  assert (Hfeat : ∀ s, stat_name s ∉ TrainModel.feature_cols).
  { intros s Hs. unfold TrainModel.feature_cols in Hs.
    repeat (apply elem_of_cons in Hs as [Hs|Hs]; [by destruct s|]).
    by apply elem_of_nil in Hs. }
  split_and!.
  - exact Hfeat.
  - exact (before_and_after_inputs_agree _ _ _ _ Hfeat).
  - by vm_compute.
Defined.

(** The swap moves the mean of a statistic in the direction of the
    incoming value.  On a lineup in which no row misses the statistic:
    when the incoming value is not below any of the replaced values, the
    new mean is not below the original mean; when it is not above any of
    them, the new mean is not above the original mean.  When no row of
    the lineup carries the name of the swapped-out player, the lineup is
    left as it is. *)
Theorem swap_moves_the_mean_with_the_incoming_value
    (lineup pool : list PlayerStats)
    (swap_out swap_in : option string) (s : stat) :
  lineup ≠ [] →
  Forall (λ r, is_Some (stat_of s r)) lineup →
  ((∀ r v, r ∈ swapped_out lineup swap_out → stat_of s r = Some v →
      v ≤ incoming_stats pool swap_in s) →
   orig_means lineup s ≤ new_means lineup pool swap_out swap_in s)
  ∧ ((∀ r v, r ∈ swapped_out lineup swap_out → stat_of s r = Some v →
        incoming_stats pool swap_in s ≤ v) →
     new_means lineup pool swap_out swap_in s ≤ orig_means lineup s)
  ∧ (swapped_out lineup swap_out = [] →
     new_lineup lineup pool swap_out swap_in = lineup).
Proof.
  intros Hne Hall. unfold new_means, orig_means.
  assert (Hlen : length (new_lineup lineup pool swap_out swap_in)
                 = length lineup)
    by (unfold new_lineup; by rewrite length_fmap).
  pose proof (new_lineup_all lineup pool swap_out swap_in s Hall) as Hall'.
  split_and!.
  - intros Hin. apply means_le; [done|done|done|done|].
    by apply sum_of_new_lineup_ge.
  - intros Hin. apply means_le; [|done|done|done|].
    + intros Hnil. rewrite Hnil in Hlen. by destruct lineup.
    + by apply sum_of_new_lineup_le.
  - apply new_lineup_unchanged.
Qed.

Lemma swap_moves_the_mean_with_the_incoming_value_witness :
  lineup_of_three ≠ []
  ∧ incoming_stats other_matches (Some "dee") SH = Qc_of_Z 4
  ∧ swapped_out lineup_of_three (Some "ann") = [player_row "ann" 1 3 2 0]
  ∧ orig_means lineup_of_three SH
    ≤ new_means lineup_of_three other_matches (Some "ann") (Some "dee") SH
  ∧ new_lineup lineup_of_three other_matches None (Some "dee")
    = lineup_of_three.
Proof.
  assert (Hne : lineup_of_three ≠ []) by done.
  assert (Hall : Forall (λ r, is_Some (stat_of SH r)) lineup_of_three).
  { unfold lineup_of_three. repeat constructor; by eexists. }
  assert (Hinc : incoming_stats other_matches (Some "dee") SH = Qc_of_Z 4).
  { vm_compute. by apply Qc_is_canon. }
  assert (Hout : swapped_out lineup_of_three (Some "ann")
                 = [player_row "ann" 1 3 2 0]) by reflexivity.
  destruct (swap_moves_the_mean_with_the_incoming_value lineup_of_three
              other_matches (Some "ann") (Some "dee") SH Hne Hall)
    as (Hup & _ & _).
  destruct (swap_moves_the_mean_with_the_incoming_value lineup_of_three
              other_matches None (Some "dee") SH Hne Hall)
    as (_ & _ & Hsame).
  split_and!; [exact Hne|exact Hinc|exact Hout| |].
  - apply Hup. intros r v Hr Hv. rewrite Hout in Hr.
    apply list_elem_of_singleton in Hr as ->. injection Hv as <-.
    rewrite Hinc. by vm_compute.
  - apply Hsame. reflexivity.
Defined.

End AppExtras.

(** ** More properties of the Form Engine *)

Module FormEngineFacts.
Import Pandas PandasProofs Features FormEngine FormEngineProofs ColumnFacts.
Import FormEngineTerms.
Local Open Scope Qc_scope.

(** *** Groups *)

Lemma elem_of_group {K} `{EqDecision K} (keys : list K) col k v :
  v ∈ group keys col k → v ∈ col.
Proof.
  unfold group. intros ([k' v'] & -> & Hin)%list_elem_of_fmap.
  apply list_elem_of_filter in Hin as [_ Hin].
  apply list_elem_of_lookup in Hin as [i Hi].
  apply lookup_zip_with_Some in Hi as (? & ? & [= <- <-] & _ & Hv).
  by eapply list_elem_of_lookup_2.
Qed.

Lemma length_groupby_transform_keys {K} `{EqDecision K} (keys : list K) f col :
  length (groupby_transform keys f col) = length keys.
Proof. unfold groupby_transform. by rewrite length_imap. Qed.

Lemma elem_of_groupby_fill {K} `{EqDecision K} (keys : list K) col x :
  x ∈ groupby_transform keys (λ g, fillna (mean g) g) col →
  x = None ∨ ∃ k, x ∈ fillna (mean (group keys col k)) (group keys col k).
Proof.
  unfold groupby_transform.
  intros (p & k & -> & Hk)%elem_of_lookup_imap.
  destruct (fillna _ _ !! rank keys p k) as [y|] eqn:Hy; [|by left].
  right. exists k. simpl. by eapply list_elem_of_lookup_2.
Qed.

(** *** Bounds *)

Lemma within_fillna lo hi v x :
  within lo hi x → (∀ m, v = Some m → lo ≤ m ∧ m ≤ hi) →
  within lo hi (fillna v x).
Proof.
  intros Hx Hv w Hw. unfold fillna in Hw.
  apply list_elem_of_fmap in Hw as ([y|] & Heq & Hin); simpl in Heq.
  - injection Heq as ->. by apply Hx.
  - by apply Hv.
Qed.

Lemma within_fill_mean lo hi x : within lo hi x → within lo hi (fillna (mean x) x).
Proof.
  intros Hx. apply within_fillna; [done|].
  intros m Hm. by eapply mean_bounds.
Qed.

Lemma within_impute lo hi (df : list Row) col :
  within lo hi col → within lo hi (impute df col).
Proof.
  intros Hcol. unfold impute, fill_global_mean, fill_team_mean.
  apply within_fill_mean. intros v Hv.
  apply elem_of_groupby_fill in Hv as [?|[k Hv]]; [done|].
  revert v Hv. apply within_fill_mean.
  intros v Hv. by eapply Hcol, elem_of_group.
Qed.

Lemma elem_of_last_n {A} n (l : list A) x : x ∈ last_n n l → x ∈ l.
Proof.
  unfold last_n. intros [i Hi]%list_elem_of_lookup.
  rewrite lookup_drop in Hi. by eapply list_elem_of_lookup_2.
Qed.

Lemma elem_of_prior_rows (s : list Row) p r r' :
  r' ∈ prior_rows s p r → r' ∈ s.
Proof.
  unfold prior_rows. intros [_ Hin]%list_elem_of_filter.
  apply list_elem_of_lookup in Hin as [i Hi].
  apply lookup_take_Some in Hi as [Hi _]. by eapply list_elem_of_lookup_2.
Qed.

(** A raw rolling column is within the bounds of its input column. *)
Lemma within_prior_mean lo hi w (f : Row → option Qc) (s : list Row) :
  (0 < w)%nat →
  (∀ r v, r ∈ s → f r = Some v → lo ≤ v ∧ v ≤ hi) →
  within lo hi (groupby_transform (season_team <$> s) (prior_mean w) (f <$> s)).
Proof.
  intros Hw Hf v Hv.
  apply list_elem_of_lookup in Hv as [p Hp].
  assert (Hlt : (p < length s)%nat).
  { apply lookup_lt_Some in Hp.
    by rewrite length_groupby_transform_keys, length_fmap in Hp. }
  destruct (lookup_lt_is_Some_2 s p Hlt) as [r Hr].
  rewrite (prior_mean_col_lookup w f s p r Hw Hr) in Hp.
  injection Hp as Hp. eapply mean_bounds; [|exact Hp].
  intros u (r' & Hu & Hr')%list_elem_of_fmap.
  apply elem_of_last_n, elem_of_prior_rows in Hr'. by eapply Hf.
Qed.

Lemma at_row_elem col p v : at_row col p = Some v → Some v ∈ col.
Proof.
  unfold at_row. destruct (col !! p) as [x|] eqn:Hx; [|done].
  simpl. intros ->. by eapply list_elem_of_lookup_2.
Qed.

(** *** Missing values after the imputation *)

Lemma length_impute (df : list Row) col : length (impute df col) = length df.
Proof.
  unfold impute, fill_global_mean, fill_team_mean, fillna.
  by rewrite length_fmap, length_groupby_transform_keys, length_fmap.
Qed.

Lemma impute_full (df : list Row) col p :
  present col ≠ [] → length col = length df → (p < length df)%nat →
  ∃ q, impute df col !! p = Some (Some q).
Proof.
  intros Hne Hlen Hp.
  assert (∃ q0, Some q0 ∈ col) as [q0 Hq0].
  { destruct (present col) as [|q0 ?] eqn:Hpr; [done|].
    exists q0. apply elem_of_present. rewrite Hpr. by left. }
  apply list_elem_of_lookup in Hq0 as [p0 Hp0].
  assert (Hp0' : (p0 < length df)%nat)
    by (apply lookup_lt_Some in Hp0; lia).
  destruct (lookup_lt_is_Some_2 df p0 Hp0') as [r0 Hr0].
  pose proof (impute_present df col p0 r0 q0 Hr0 Hp0) as Himp.
  unfold impute, fill_global_mean in *.
  set (col1 := fill_team_mean df col) in *.
  rewrite fillna_lookup in Himp.
  destruct (col1 !! p0) as [x0|] eqn:Hx0; [|done].
  assert (Hmean : ∃ m, mean col1 = Some m).
  { destruct (mean col1) as [m|] eqn:Hm; [by exists m|].
    apply mean_None_iff in Hm. simpl in Himp.
    destruct x0 as [y|]; [|done].
    assert (y ∈ present col1)
      by (apply elem_of_present; by eapply list_elem_of_lookup_2).
    rewrite Hm in H. by apply elem_of_nil in H. }
  destruct Hmean as [m Hm]. rewrite Hm, fillna_lookup.
  assert (Hlen1 : length col1 = length df).
  { unfold col1, fill_team_mean.
    by rewrite length_groupby_transform_keys, length_fmap. }
  destruct (lookup_lt_is_Some_2 col1 p) as [x Hx]; [lia|].
  rewrite Hx. destruct x as [y|]; simpl; eauto.
Qed.

Lemma present_nil_all_None (col : list (option Qc)) x :
  present col = [] → x ∈ col → x = None.
Proof.
  intros Hnil Hx. destruct x as [v|]; [|done].
  apply elem_of_present in Hx. rewrite Hnil in Hx.
  by apply elem_of_nil in Hx.
Qed.

Lemma fillna_None x : fillna None x = x.
Proof.
  unfold fillna. rewrite <-(list_fmap_id x) at 2.
  apply list_fmap_ext. intros i y _. by destruct y.
Qed.

Lemma impute_empty (df : list Row) col p :
  present col = [] → at_row (impute df col) p = None.
Proof.
  intros Hnil.
  assert (Hall : ∀ x, x ∈ fill_team_mean df col → x = None).
  { intros x Hx. unfold fill_team_mean in Hx.
    apply elem_of_groupby_fill in Hx as [?|[k Hx]]; [done|].
    assert (Hg : present (group (team <$> df) col k) = []).
    { destruct (present (group (team <$> df) col k)) as [|v ?] eqn:Hg;
        [done|].
      assert (Hv : v ∈ present (group (team <$> df) col k))
        by (rewrite Hg; by left).
      apply elem_of_present, elem_of_group in Hv.
      by apply (present_nil_all_None col) in Hv. }
    rewrite (proj2 (mean_None_iff _) Hg), fillna_None in Hx.
    apply elem_of_group in Hx. exact (present_nil_all_None col x Hnil Hx). }
  unfold impute, fill_global_mean.
  assert (Hnil1 : present (fill_team_mean df col) = []).
  { destruct (present (fill_team_mean df col)) as [|v ?] eqn:Hg; [done|].
    assert (Hv : v ∈ present (fill_team_mean df col))
      by (rewrite Hg; by left).
    apply elem_of_present in Hv. by apply Hall in Hv. }
  rewrite (proj2 (mean_None_iff _) Hnil1), fillna_None.
  unfold at_row. destruct (fill_team_mean df col !! p) as [x|] eqn:Hx; [|done].
  simpl. apply Hall. by eapply list_elem_of_lookup_2.
Qed.

Lemma length_rolling3_raw (s : list Row) c : length (rolling3_raw s c) = length s.
Proof.
  unfold rolling3_raw. by rewrite length_groupby_transform_keys, length_fmap.
Qed.

Lemma length_win_rate_raw (s : list Row) : length (win_rate_rolling5_raw s) = length s.
Proof.
  unfold win_rate_rolling5_raw.
  by rewrite length_groupby_transform_keys, length_fmap.
Qed.

Lemma present_rolling3_raw (s : list Row) c :
  present (rolling3_raw s c) ≠ [] ↔ observed s c.
Proof.
  split.
  - intros Hne.
    destruct (present (rolling3_raw s c)) as [|v ?] eqn:Hp; [done|].
    assert (Hv : Some v ∈ rolling3_raw s c)
      by (apply elem_of_present; rewrite Hp; by left).
    apply list_elem_of_lookup in Hv as [p Hv].
    assert (Hlt : (p < length s)%nat)
      by (apply lookup_lt_Some in Hv; by rewrite length_rolling3_raw in Hv).
    destruct (lookup_lt_is_Some_2 s p Hlt) as [r Hr].
    exists p, r. split; [done|].
    rewrite (rolling3_raw_lookup s c p r Hr) in Hv. injection Hv as Hv.
    by apply mean_Some_inv in Hv as [? _].
  - intros (p & r & Hr & Hw) Hnil.
    destruct (mean_is_Some _ Hw) as [q Hq].
    pose proof (rolling3_raw_lookup s c p r Hr) as Hraw.
    unfold window3 in Hq. rewrite Hq in Hraw.
    apply list_elem_of_lookup_2, elem_of_present in Hraw.
    rewrite Hnil in Hraw. by apply elem_of_nil in Hraw.
Qed.

Lemma present_win_rate_raw (s : list Row) :
  present (win_rate_rolling5_raw s) ≠ [] ↔ preceded s.
Proof.
  split.
  - intros Hne.
    destruct (present (win_rate_rolling5_raw s)) as [|v ?] eqn:Hp; [done|].
    assert (Hv : Some v ∈ win_rate_rolling5_raw s)
      by (apply elem_of_present; rewrite Hp; by left).
    apply list_elem_of_lookup in Hv as [p Hv].
    assert (Hlt : (p < length s)%nat)
      by (apply lookup_lt_Some in Hv; by rewrite length_win_rate_raw in Hv).
    destruct (lookup_lt_is_Some_2 s p Hlt) as [r Hr].
    exists p, r. split; [done|].
    rewrite (win_rate_rolling5_raw_lookup s p r Hr) in Hv.
    injection Hv as Hv. intros Hnil. rewrite Hnil in Hv. done.
  - intros (p & r & Hr & Hw) Hnil.
    destruct (mean_is_Some ((λ r, Some (to_numeric_result (result r)))
                <$> last_n 5 (prior_rows s p r))) as [q Hq].
    { rewrite present_fmap_Some. intros Hn%fmap_nil_inv.
      by apply last_n_nil in Hn; [|lia]. }
    pose proof (win_rate_rolling5_raw_lookup s p r Hr) as Hraw.
    rewrite Hq in Hraw.
    apply list_elem_of_lookup_2, elem_of_present in Hraw.
    rewrite Hnil in Hraw. by apply elem_of_nil in Hraw.
Qed.

(** *** The rows of the output *)

Lemma elem_of_form_features_full df fr :
  fr ∈ form_features_full df →
  ∃ p r, sort_values df !! p = Some r
    ∧ base fr = fill_inputs (sort_values df) r
    ∧ (∀ c, rolling3 c fr = at_row (rolling3_col (sort_values df) c) p)
    ∧ win_rate_rolling5 fr = at_row (win_rate_rolling5_col (sort_values df)) p.
Proof.
  unfold form_features_full.
  intros (p & r & -> & Hr)%elem_of_lookup_imap.
  exists p, r. split_and!; [done|done| |done]. by intros [].
Qed.

Lemma elem_of_build_prematch_features df fr :
  fr ∈ build_prematch_features df →
  ∃ p r, sort_values df !! p = Some r
    ∧ pm_base fr = fill_inputs (sort_values df) r
    ∧ (∀ c, pm_rolling3 c fr = at_row (rolling3_col (sort_values df) c) p).
Proof.
  unfold build_prematch_features.
  intros (p & r & -> & Hr)%elem_of_lookup_imap.
  exists p, r. split_and!; [done|done|]. by intros [].
Qed.

Lemma fmap_imap_base {A B C} (f : nat → A → B) (g : B → C) (l : list A) :
  g <$> imap f l = imap (λ i x, g (f i x)) l.
Proof.
  apply list_eq. intros i.
  rewrite list_lookup_fmap, !list_lookup_imap. by destruct (l !! i).
Qed.

Lemma imap_const {A B} (f : A → B) (l : list A) : imap (λ _, f) l = f <$> l.
Proof.
  apply list_eq. intros i.
  by rewrite list_lookup_imap, list_lookup_fmap.
Qed.

Lemma StronglySorted_fmap_2 {A B} (R : A → A → Prop) (R' : B → B → Prop)
    (f : A → B) l :
  (∀ a b, R a b → R' (f a) (f b)) →
  StronglySorted R l → StronglySorted R' (f <$> l).
Proof.
  intros Hf. induction 1 as [|x l Hl IH Hx]; [constructor|].
  rewrite fmap_cons. constructor; [done|].
  apply Forall_fmap. eapply Forall_impl; [exact Hx|]. intros y. apply Hf.
Qed.

Lemma key_le_fill_inputs s a b :
  key_le (fill_inputs s a) (fill_inputs s b) = key_le a b.
Proof. done. Qed.

Lemma to_numeric_result_unit v :
  0 ≤ to_numeric_result v ∧ to_numeric_result v ≤ 1.
Proof.
  unfold to_numeric_result. repeat case_decide; by vm_compute.
Qed.

End FormEngineFacts.

Module FormEngineExtras.
Import Pandas PandasProofs Features FormEngine FormEngineProofs ColumnFacts.
Import FormEngineTerms FormEngineFacts.
Local Open Scope Qc_scope.

(** [win_rate_rolling5] is a rate: whenever it has a value, the value
    lies between 0 and 1. *)
Theorem win_rate_is_a_rate (df : list Row) (fr : FormRow) (v : Qc) :
  fr ∈ form_features_full df →
  win_rate_rolling5 fr = Some v →
  0 ≤ v ∧ v ≤ 1.
Proof.
  intros (p & r & _ & _ & _ & Hwin)%elem_of_form_features_full Hv.
  rewrite Hwin in Hv. apply at_row_elem in Hv. revert v Hv.
  apply within_impute. unfold win_rate_rolling5_raw, numeric_result_col.
  apply within_prior_mean; [lia|].
  intros r' v _ [= <-]. apply to_numeric_result_unit.
Qed.

(** After the imputation a rolling column is missing everywhere or
    nowhere.  If some row of the table has an observation of the
    statistic in its window of prior matches, every row of the output
    has a [stat_rolling3]; if no row has one (every team has played a
    single match per season, say), [stat_rolling3] is missing in every
    row.  The same holds for [win_rate_rolling5] and the rows that have
    a prior match. *)
Theorem rolling_columns_missing_everywhere_or_nowhere (df : list Row) (c : stat) :
  (observed (sort_values df) c →
     (∀ fr, fr ∈ form_features_full df → is_Some (rolling3 c fr))
     ∧ (∀ fr, fr ∈ build_prematch_features df → is_Some (pm_rolling3 c fr)))
  ∧ (¬ observed (sort_values df) c →
     (∀ fr, fr ∈ form_features_full df → rolling3 c fr = None)
     ∧ (∀ fr, fr ∈ build_prematch_features df → pm_rolling3 c fr = None))
  ∧ (preceded (sort_values df) →
     ∀ fr, fr ∈ form_features_full df → is_Some (win_rate_rolling5 fr))
  ∧ (¬ preceded (sort_values df) →
     ∀ fr, fr ∈ form_features_full df → win_rate_rolling5 fr = None).
Proof.
  set (s := sort_values df).
  assert (Hfull : ∀ col p, present col ≠ [] → length col = length s →
            (p < length s)%nat → is_Some (at_row (impute s col) p)).
  { intros col p Hne Hlen Hp.
    destruct (impute_full s col p Hne Hlen Hp) as [q Hq].
    unfold at_row. rewrite Hq. by eexists. }
  split_and!.
  - intros Hobs%present_rolling3_raw. split.
    + intros fr (p & r & Hr & _ & Hroll & _)%elem_of_form_features_full.
      rewrite Hroll. apply Hfull; [done|apply length_rolling3_raw|].
      by eapply lookup_lt_Some.
    + intros fr (p & r & Hr & _ & Hroll)%elem_of_build_prematch_features.
      rewrite Hroll. apply Hfull; [done|apply length_rolling3_raw|].
      by eapply lookup_lt_Some.
  - intros Hobs.
    assert (Hnil : present (rolling3_raw s c) = []).
    { destruct (present (rolling3_raw s c)) eqn:Hp; [done|].
      destruct Hobs. apply present_rolling3_raw. by rewrite Hp. }
    split.
    + intros fr (p & r & Hr & _ & Hroll & _)%elem_of_form_features_full.
      rewrite Hroll. by apply impute_empty.
    + intros fr (p & r & Hr & _ & Hroll)%elem_of_build_prematch_features.
      rewrite Hroll. by apply impute_empty.
  - intros Hpre%present_win_rate_raw.
    intros fr (p & r & Hr & _ & _ & Hwin)%elem_of_form_features_full.
    rewrite Hwin. apply Hfull; [done|apply length_win_rate_raw|].
    by eapply lookup_lt_Some.
  - intros Hpre.
    assert (Hnil : present (win_rate_rolling5_raw s) = []).
    { destruct (present (win_rate_rolling5_raw s)) eqn:Hp; [done|].
      destruct Hpre. apply present_win_rate_raw. by rewrite Hp. }
    intros fr (p & r & Hr & _ & _ & Hwin)%elem_of_form_features_full.
    rewrite Hwin. by apply impute_empty.
Qed.

Lemma win_rate_is_a_rate_witness :
  ∃ fr,
    fr ∈ form_features_full (Scenarios.ubc 99)
    ∧ win_rate_rolling5 fr = Some (Q2Qc (1 # 2))
    ∧ 0 ≤ Q2Qc (1 # 2) ∧ Q2Qc (1 # 2) ≤ 1.
Proof.
  let v := eval vm_compute in (form_features_full (Scenarios.ubc 99) !! 3%nat) in
  match v with Some ?o => pose (fr := o) end.
  assert (Hin : fr ∈ form_features_full (Scenarios.ubc 99)).
  { apply (list_elem_of_lookup_2 _ 3%nat). vm_compute. reflexivity. }
  assert (Hv : win_rate_rolling5 fr = Some (Q2Qc (1 # 2))).
  { vm_compute. f_equal. by apply Qc_is_canon. }
  exists fr. split_and!; [exact Hin|exact Hv|..];
    apply (win_rate_is_a_rate _ fr _ Hin Hv).
Defined.

Lemma rolling_columns_missing_everywhere_or_nowhere_witness :
  observed (sort_values (Scenarios.ubc 99)) Shots
  ∧ (∀ fr, fr ∈ form_features_full (Scenarios.ubc 99) →
       is_Some (rolling3 Shots fr))
  ∧ ¬ observed (sort_values [Scenarios.opener]) Shots
  ∧ (∀ fr, fr ∈ form_features_full [Scenarios.opener] →
       rolling3 Shots fr = None).
Proof.
  assert (H1 : observed (sort_values (Scenarios.ubc 99)) Shots).
  { exists 1%nat. eexists. split; [reflexivity|]. by vm_compute. }
  assert (H2 : ¬ observed (sort_values [Scenarios.opener]) Shots).
  { intros (p & r & Hr & Hw). destruct p as [|p]; [|done].
    injection Hr as <-. by apply Hw. }
  destruct (rolling_columns_missing_everywhere_or_nowhere
              (Scenarios.ubc 99) Shots) as (Hsome & _).
  destruct (rolling_columns_missing_everywhere_or_nowhere
              [Scenarios.opener] Shots) as (_ & Hnone & _).
  split_and!; [exact H1|exact (proj1 (Hsome H1))|exact H2
              |exact (proj1 (Hnone H2))].
Defined.

(** The form table keeps all rows.  [build_prematch_features.py]
    writes, and steps 1 to 4 of [build_prematch_features_full.py] build,
    one row for every row of the input, with the identification of the
    row unchanged, in the order of (season, team, date).  This is the
    table that enters the self-merge of
    [build_prematch_features_full.py]; the table that this script writes
    is the result of the self-merge, which can hold fewer rows (a match
    with a single row contributes none). *)
Theorem form_engine_keeps_every_row (df : list Row) :
  base <$> form_features_full df
  = fill_inputs (sort_values df) <$> sort_values df
  ∧ pm_base <$> build_prematch_features df
    = fill_inputs (sort_values df) <$> sort_values df
  ∧ ident <$> (base <$> form_features_full df) ≡ₚ ident <$> df
  ∧ StronglySorted (λ a b, key_le a b) (base <$> form_features_full df)
  ∧ length (form_features_full df) = length df
  ∧ length (build_prematch_features df) = length df.
Proof.
  assert (Hbase : base <$> form_features_full df
                  = fill_inputs (sort_values df) <$> sort_values df).
  { unfold form_features_full. rewrite fmap_imap_base. simpl.
    apply imap_const. }
  assert (Hpm : pm_base <$> build_prematch_features df
                = fill_inputs (sort_values df) <$> sort_values df).
  { unfold build_prematch_features. rewrite fmap_imap_base. simpl.
    apply imap_const. }
  split_and!; [done|done|..].
  - rewrite Hbase, <-list_fmap_compose.
    rewrite (list_fmap_ext (ident ∘ fill_inputs (sort_values df)) ident
               (sort_values df)) by done.
    apply fmap_Permutation, sort_values_perm.
  - rewrite Hbase.
    eapply StronglySorted_fmap_2; [|apply sort_values_sorted].
    intros a b Hab. by rewrite key_le_fill_inputs.
  - unfold form_features_full.
    by rewrite length_imap, (sort_values_perm df).
  - unfold build_prematch_features.
    by rewrite length_imap, (sort_values_perm df).
Qed.

End FormEngineExtras.

Module OpponentFacts.
Import Pandas PandasProofs Features FormEngine OpponentDiff OpponentDiffProofs.
Import OpponentTerms.

Section pairs.
Context {A : Type} (mid tm : A → string).

Lemma filter_bind {B} (P : B → Prop) `{∀ x, Decision (P x)}
    (f : A → list B) (l : list A) :
  filter P (l ≫= f) = l ≫= (λ a, filter P (f a)).
Proof.
  induction l as [|a l IH]; [done|].
  by rewrite !bind_cons, filter_app, IH.
Qed.

Lemma opponent_pairs_bind (df : list A) :
  opponent_pairs mid tm df
  = df ≫= (λ a, (λ b, (a, b))
             <$> filter (λ b, tm a ≠ tm b) (filter (λ x, mid x = mid a) df)).
Proof.
  unfold opponent_pairs, merge_on. rewrite filter_bind.
  apply list_bind_ext; [|done]. intros a.
  by rewrite filter_pair_fmap.
Qed.

(** In a paired table a row meets exactly one row of another team. *)
Lemma paired_opponent (df : list A) r :
  paired mid tm df → r ∈ df →
  ∃ o, filter (λ b, tm r ≠ tm b) (filter (λ x, mid x = mid r) df) = [o]
       ∧ opponent mid tm df r = Some o
       ∧ o ∈ df ∧ mid o = mid r ∧ tm o ≠ tm r.
Proof.
  intros Hpaired Hr. destruct (Hpaired r Hr) as (a & b & Hab & Hne).
  assert (Hin : r ∈ [a; b]).
  { rewrite <-Hab. by apply list_elem_of_filter. }
  assert (Ha : a ∈ df ∧ mid a = mid r).
  { assert (a ∈ filter (λ x, mid x = mid r) df) as Hx
      by (rewrite Hab; by left).
    by apply list_elem_of_filter in Hx as [? ?]. }
  assert (Hb : b ∈ df ∧ mid b = mid r).
  { assert (b ∈ filter (λ x, mid x = mid r) df) as Hx
      by (rewrite Hab; right; by left).
    by apply list_elem_of_filter in Hx as [? ?]. }
  unfold opponent. rewrite Hab.
  apply elem_of_cons in Hin as [->|Hin].
  - exists b. rewrite filter_cons_False by (by intros ?).
    rewrite filter_cons_True by done. rewrite filter_nil.
    split_and!; [done|done|by apply Hb|by apply Hb|done].
  - apply list_elem_of_singleton in Hin as ->.
    exists a. rewrite filter_cons_True by done.
    rewrite filter_cons_False by (by intros ?). rewrite filter_nil.
    split_and!; [done|done|by apply Ha|by apply Ha|done].
Qed.

Lemma opponent_pairs_paired (df : list A) :
  paired mid tm df →
  opponent_pairs mid tm df
  = (λ a, (a, default a (opponent mid tm df a))) <$> df.
Proof.
  intros Hpaired. rewrite opponent_pairs_bind.
  apply BuildFeaturesProofs.bind_singletons. intros a Ha.
  destruct (paired_opponent df a Hpaired Ha) as (o & -> & -> & _).
  done.
Qed.
End pairs.

End OpponentFacts.

Module OpponentExtras.
Import Pandas PandasProofs Features FormEngine OpponentDiff OpponentDiffProofs.
Import OpponentTerms OpponentFacts.

(** On a table in which every match has two rows, of two teams, the
    differencer of [add_opponent_features.py] returns one row for every
    row of the table, in the order of the table; each row is compared
    with the other row of its match, and every diff column is the own
    value minus the value of that row. *)
Theorem paired_table_gets_one_row_per_row (df : list Row) :
  paired match_id team df →
  own <$> add_opponent_features df = df
  ∧ length (add_opponent_features df) = length df
  ∧ ∀ i r, add_opponent_features df !! i = Some r →
      ∃ o, opponent match_id team df (own r) = Some o
           ∧ o ∈ df ∧ match_id o = match_id (own r) ∧ team o ≠ team (own r)
           ∧ ∀ c, diff c r = sub (compared c (own r)) (compared c o).
Proof.
  intros Hpaired.
  unfold add_opponent_features.
  rewrite (opponent_pairs_paired match_id team df Hpaired).
  rewrite <-!list_fmap_compose.
  split_and!.
  - rewrite <-(list_fmap_id df) at 2. by apply list_fmap_ext.
  - by rewrite length_fmap.
  - intros i r Hr. rewrite list_lookup_fmap in Hr.
    destruct (df !! i) as [a|] eqn:Ha; [|done].
    injection Hr as <-. simpl.
    destruct (paired_opponent match_id team df a Hpaired)
      as (o & _ & Ho & Hin & Hmid & Hteam);
      [by eapply list_elem_of_lookup_2|].
    exists o. rewrite Ho. simpl. split_and!; try done. by intros [].
Qed.

Lemma paired_table_gets_one_row_per_row_witness :
  paired match_id team Scenarios.match_M
  ∧ own <$> add_opponent_features Scenarios.match_M = Scenarios.match_M
  ∧ length (add_opponent_features Scenarios.match_M) = 2.
Proof.
  assert (Hp : paired match_id team Scenarios.match_M).
  { intros r Hr. unfold Scenarios.match_M in Hr.
    repeat (apply elem_of_cons in Hr as [->|Hr];
            [eexists _, _; split; [vm_compute; reflexivity|by vm_compute]|]).
    by apply elem_of_nil in Hr. }
  destruct (paired_table_gets_one_row_per_row _ Hp) as (Hown & Hlen & _).
  split_and!; [exact Hp|exact Hown|exact Hlen].
Defined.

(** The same for the form diffs of [build_prematch_features_full.py]:
    when every match of the table of form rows has two rows, of two
    teams, the final table has exactly the form rows, in their order,
    and each form diff is the own rolling value minus that of the other
    row of the match. *)
Theorem paired_form_table_gets_one_row_per_row (df : list Row) :
  paired form_match_id form_team (form_features_full df) →
  form <$> build_prematch_features_full df = form_features_full df
  ∧ length (build_prematch_features_full df) = length df
  ∧ ∀ i r, build_prematch_features_full df !! i = Some r →
      ∃ o, opponent form_match_id form_team (form_features_full df) (form r)
           = Some o
           ∧ form_match_id o = form_match_id (form r)
           ∧ form_team o ≠ form_team (form r)
           ∧ (∀ c, form_diff c r = sub (rolling3 c (form r)) (rolling3 c o))
           ∧ win_rate_diff r
             = sub (win_rate_rolling5 (form r)) (win_rate_rolling5 o).
Proof.
  intros Hpaired.
  unfold build_prematch_features_full.
  rewrite (opponent_pairs_paired form_match_id form_team _ Hpaired).
  rewrite <-!list_fmap_compose.
  split_and!.
  - rewrite <-(list_fmap_id (form_features_full df)) at 2.
    by apply list_fmap_ext.
  - rewrite length_fmap. unfold form_features_full.
    by rewrite length_imap, (FormEngineProofs.sort_values_perm df).
  - intros i r Hr. rewrite list_lookup_fmap in Hr.
    destruct (form_features_full df !! i) as [a|] eqn:Ha; [|done].
    injection Hr as <-. simpl.
    destruct (paired_opponent form_match_id form_team _ a Hpaired)
      as (o & _ & Ho & Hin & Hmid & Hteam);
      [by eapply list_elem_of_lookup_2|].
    exists o. rewrite Ho. simpl. split_and!; try done. by intros [].
Qed.

Lemma paired_form_table_gets_one_row_per_row_witness :
  paired form_match_id form_team (form_features_full Scenarios.match_M)
  ∧ form <$> build_prematch_features_full Scenarios.match_M
    = form_features_full Scenarios.match_M
  ∧ length (build_prematch_features_full Scenarios.match_M) = 2.
Proof.
  assert (Hp : paired form_match_id form_team
                 (form_features_full Scenarios.match_M)).
  { intros r Hr. vm_compute in Hr.
    repeat (apply elem_of_cons in Hr as [->|Hr];
            [eexists _, _; split; [vm_compute; reflexivity|by vm_compute]|]).
    by apply elem_of_nil in Hr. }
  destruct (paired_form_table_gets_one_row_per_row _ Hp) as (Hform & Hlen & _).
  split_and!; [exact Hp|exact Hform|exact Hlen].
Defined.

End OpponentExtras.

Module ResultFacts.
Import Pandas PandasProofs Frame BuildFeatures BuildFeaturesProofs.
Import ResultTerms.
Local Open Scope Qc_scope.

Lemma apply_result_elem rows out r :
  apply_result rows = Ok out → r ∈ out → result (row r) = Ok (row_result r).
Proof.
  revert out. induction rows as [|c rows IH]; intros out Hout Hr; simpl in Hout.
  - injection Hout as <-. by apply elem_of_nil in Hr.
  - destruct (result c) as [v|e] eqn:Hv; [|done]. simpl in Hout.
    destruct (apply_result rows) as [out'|e]; [|done]. simpl in Hout.
    injection Hout as <-.
    apply elem_of_cons in Hr as [->|Hr]; [done|]. by eapply IH.
Qed.

Lemma ltb_asym s t : String.ltb s t = true → String.ltb t s = false.
Proof.
  unfold String.ltb. rewrite (String.compare_antisym s t).
  by destruct (String.compare t s).
Qed.

Lemma Qclt_asym_bool (a b : Qc) :
  bool_decide (a < b) = true → bool_decide (b < a) = false.
Proof.
  rewrite bool_decide_eq_true, bool_decide_eq_false. intros Hab Hba.
  exact (Qclt_not_le _ _ Hab (Qclt_le_weak _ _ Hba)).
Qed.

(** On one fixture the away side gets the mirrored result of the home
    side. *)
Lemma result_mirror (h a : Combined) x y :
  c_fixture h = c_fixture a → c_is_home h = 1%Z → c_is_home a = 0%Z →
  result h = Ok x → result a = Ok y → y = mirror x.
Proof.
  unfold result. intros <- -> ->.
  destruct (m_home_goals (c_fixture h)) as [hg|];
    [|by intros [= <-] [= <-]].
  destruct (m_away_goals (c_fixture h)) as [ag|];
    [|by intros [= <-] [= <-]].
  rewrite decide_True by done. rewrite decide_False by done.
  destruct hg as [|p|s], ag as [|q|t]; simpl; try done;
    try (by intros [= <-] [= <-]).
  - destruct (bool_decide (q < p)) eqn:Hgt.
    + rewrite (Qclt_asym_bool _ _ Hgt). by intros [= <-] [= <-].
    + destruct (bool_decide (p < q)); by intros [= <-] [= <-].
  - destruct (String.ltb t s) eqn:Hgt.
    + rewrite (ltb_asym _ _ Hgt). by intros [= <-] [= <-].
    + destruct (String.ltb s t); by intros [= <-] [= <-].
Qed.

Lemma result_unknown_score (c : Combined) hg ag :
  m_home_goals (c_fixture c) = Some hg →
  m_away_goals (c_fixture c) = Some ag →
  numeric hg → numeric ag → hg = NaN ∨ ag = NaN →
  result c = Ok (Str "draw").
Proof.
  unfold result. intros -> -> Hh Ha Hnan.
  destruct hg as [|p|s], ag as [|q|t]; try done;
    try (by destruct Hnan); by destruct (decide _).
Qed.

(** *** Sums over the groups of a table *)

Lemma total_cons (q : Qc) (l : list Qc) : total (q :: l) = q + total l.
Proof. done. Qed.

Lemma sum_list_cons (n : nat) (l : list nat) :
  sum_list (n :: l) = (n + sum_list l)%nat.
Proof. done. Qed.

Section groups.
Context {A K : Type} `{EqDecision K} (key : A → K).

Lemma total_indicator (q : Qc) (k0 : K) (ks : list K) :
  NoDup ks → k0 ∈ ks →
  total ((λ k, if decide (k0 = k) then q else 0) <$> ks) = q.
Proof.
  induction 1 as [|k ks Hk Hnd IH]; intros Hin;
    [by apply elem_of_nil in Hin|].
  rewrite fmap_cons. simpl. destruct (decide (k0 = k)) as [->|Hne].
  - assert (total ((λ k', if decide (k = k') then q else 0) <$> ks) = 0)
      as ->; [|ring].
    clear IH Hin Hnd. induction ks as [|k' ks IH]; [done|].
    apply not_elem_of_cons in Hk as [Hne Hk].
    rewrite fmap_cons. simpl. rewrite decide_False by done.
    rewrite (IH Hk). ring.
  - apply elem_of_cons in Hin as [->|Hin]; [done|].
    rewrite (IH Hin). ring.
Qed.

Lemma total_pointwise_add {B} (f g : B → Qc) (l : list B) :
  total ((λ x, f x + g x) <$> l) = total (f <$> l) + total (g <$> l).
Proof.
  induction l as [|x l IH]; [simpl; ring|].
  rewrite !fmap_cons, !total_cons, IH. ring.
Qed.

(** Summing the group sums gives the sum of the column. *)
Lemma total_of_groups (f : A → Qc) (ks : list K) (l : list A) :
  NoDup ks → (∀ x, x ∈ l → key x ∈ ks) →
  total ((λ k, total (f <$> filter (λ x, key x = k) l)) <$> ks)
  = total (f <$> l).
Proof.
  intros Hnd. induction l as [|x l IH]; intros Hin.
  - clear Hnd Hin. induction ks as [|k ks IHk]; [done|].
    rewrite fmap_cons, total_cons, IHk, filter_nil. simpl. ring.
  - rewrite fmap_cons, total_cons.
    rewrite <-IH by (intros y Hy; apply Hin; by right).
    rewrite <-(total_indicator (f x) (key x) ks Hnd) at 1
      by (apply Hin; by left).
    rewrite <-(total_pointwise_add
                 (λ k, if decide (key x = k) then f x else 0)
                 (λ k, total (f <$> filter (λ y, key y = k) l))).
    f_equal. apply list_fmap_ext. intros _ k _. simpl.
    rewrite filter_cons. destruct (decide (key x = k)); [done|].
    simpl. ring.
Qed.

Lemma sum_list_indicator (k0 : K) (ks : list K) :
  NoDup ks → k0 ∈ ks →
  sum_list ((λ k, if decide (k0 = k) then 1%nat else 0%nat) <$> ks) = 1%nat.
Proof.
  induction 1 as [|k ks Hk Hnd IH]; intros Hin;
    [by apply elem_of_nil in Hin|].
  rewrite fmap_cons. simpl. destruct (decide (k0 = k)) as [->|Hne].
  - assert (sum_list ((λ k', if decide (k = k') then 1%nat else 0%nat) <$> ks)
            = 0%nat) as ->; [|done].
    clear IH Hin Hnd. induction ks as [|k' ks IH]; [done|].
    apply not_elem_of_cons in Hk as [Hne Hk].
    rewrite fmap_cons. simpl. rewrite decide_False by done.
    by rewrite (IH Hk).
  - apply elem_of_cons in Hin as [->|Hin]; [done|].
    by rewrite (IH Hin).
Qed.

(** Summing the group sizes gives the number of rows. *)
Lemma length_of_groups (ks : list K) (l : list A) :
  NoDup ks → (∀ x, x ∈ l → key x ∈ ks) →
  sum_list ((λ k, length (filter (λ x, key x = k) l)) <$> ks) = length l.
Proof.
  intros Hnd. induction l as [|x l IH]; intros Hin.
  - clear Hnd Hin. induction ks as [|k ks IHk]; [done|].
    by rewrite fmap_cons, sum_list_cons, IHk, filter_nil.
  - trans (sum_list ((λ k, if decide (key x = k) then 1%nat else 0%nat) <$> ks)
           + sum_list ((λ k, length (filter (λ y, key y = k) l)) <$> ks))%nat.
    + clear IH Hin Hnd. induction ks as [|k ks IHk]; [done|].
      rewrite !fmap_cons, !sum_list_cons, IHk, filter_cons.
      destruct (decide (key x = k)); simpl; lia.
    + rewrite (sum_list_indicator (key x) ks Hnd) by (apply Hin; by left).
      rewrite IH by (intros y Hy; apply Hin; by right). done.
Qed.
End groups.

Lemma box_keys_grouped (box : list BoxRow) :
  ∀ b, b ∈ box → box_key b ∈ group_keys (box_key <$> box).
Proof.
  intros b Hb. apply elem_of_group_keys, list_elem_of_fmap. by exists b.
Qed.

Lemma team_stats_total (f : BoxRow → Qc) (g : TeamStats → Qc)
    (box : list BoxRow) :
  (∀ k, g (stats_of box k) = total (f <$> players_of box k)) →
  total (g <$> team_stats box) = total (f <$> box).
Proof.
  intros Hg. unfold team_stats. rewrite <-list_fmap_compose.
  rewrite <-(total_of_groups box_key f (group_keys (box_key <$> box)) box
               (NoDup_group_keys _) (box_keys_grouped box)).
  f_equal. apply list_fmap_ext. intros _ k _. apply Hg.
Qed.

End ResultFacts.

Module AggregatorExtras.
Import Pandas PandasProofs Frame BuildFeatures BuildFeaturesProofs.
Import ResultTerms ResultFacts.
Local Open Scope Qc_scope.

(** Step 5 of [build_features.py] neither loses nor repeats a player
    row: the team table has one row for every (match, team) pair of the
    boxscore and no other, the player counts add up to the number of
    player rows, and every summed statistic adds up to the sum of the
    player column. *)
Theorem team_stats_conserve_the_boxscore (box : list BoxRow) :
  NoDup (ts_key <$> team_stats box)
  ∧ (∀ k, k ∈ ts_key <$> team_stats box ↔ k ∈ box_key <$> box)
  ∧ sum_list (ts_player_count <$> team_stats box) = length box
  ∧ total (ts_goals <$> team_stats box) = total (b_goals <$> box)
  ∧ total (ts_shots <$> team_stats box) = total (b_shots <$> box)
  ∧ total (ts_sog <$> team_stats box) = total (b_sog <$> box)
  ∧ total (ts_assists <$> team_stats box) = total (b_assists <$> box).
Proof.
  assert (Hkeys : ts_key <$> team_stats box = group_keys (box_key <$> box)).
  { unfold team_stats. rewrite <-list_fmap_compose.
    rewrite <-(list_fmap_id (group_keys _)) at 2.
    apply list_fmap_ext. intros _ k _. apply ts_key_stats_of. }
  split_and!.
  - rewrite Hkeys. apply NoDup_group_keys.
  - intros k. rewrite Hkeys. apply elem_of_group_keys.
  - unfold team_stats. rewrite <-list_fmap_compose.
    exact (length_of_groups box_key (group_keys (box_key <$> box)) box
             (NoDup_group_keys _) (box_keys_grouped box)).
  - by apply team_stats_total.
  - by apply team_stats_total.
  - by apply team_stats_total.
  - by apply team_stats_total.
Qed.

(** Step 8 of [build_features.py]: the two rows of a fixture carry
    mirrored results.  When the run succeeds, a row of the away side has
    "loss" where the row of the home side has "win", "win" where it has
    "loss", and the same value otherwise. *)
Theorem home_and_away_results_mirror brs lrs mrs out (h a : TeamMatchRow) :
  aggregate brs lrs mrs = Ok out →
  h ∈ out → a ∈ out →
  row_fixture h = row_fixture a →
  row_is_home h = 1%Z → row_is_home a = 0%Z →
  row_result a = mirror (row_result h).
Proof.
  intros Hout Hh Ha Hfx Hhome Haway. unfold aggregate in Hout.
  eapply result_mirror; [exact Hfx|exact Hhome|exact Haway| |].
  - by eapply apply_result_elem.
  - by eapply apply_result_elem.
Qed.

Lemma home_and_away_results_mirror_witness :
  ∃ out h a,
    aggregate two_matches_box [] two_matches_fixtures = Ok out
    ∧ out !! 0%nat = Some h ∧ out !! 2%nat = Some a
    ∧ row_result h = Str "win"
    ∧ row_result a = mirror (row_result h).
Proof.
  let v := eval vm_compute in (aggregate two_matches_box [] two_matches_fixtures) in
  match v with
  | Ok (?x :: ?m :: ?y :: ?rest) =>
      pose (h := x); pose (a := y); pose (out := h :: m :: a :: rest)
  end.
  assert (Hout : aggregate two_matches_box [] two_matches_fixtures = Ok out)
    by (vm_compute; reflexivity).
  exists out, h, a.
  split_and!; [exact Hout|reflexivity|reflexivity|reflexivity|].
  apply (home_and_away_results_mirror _ _ _ out h a Hout).
  - by apply (list_elem_of_lookup_2 out 0%nat).
  - by apply (list_elem_of_lookup_2 out 2%nat).
  - reflexivity.
  - reflexivity.
  - reflexivity.
Defined.

(** A fixture without a score is labelled a draw: when the goals of a
    fixture are numbers or missing and one of them is missing (NaN),
    both comparisons of step 8 are false and every row of the fixture
    gets the result "draw". *)
Theorem unknown_score_is_labelled_a_draw brs lrs mrs out r hg ag :
  aggregate brs lrs mrs = Ok out →
  r ∈ out →
  m_home_goals (row_fixture r) = Some hg →
  m_away_goals (row_fixture r) = Some ag →
  numeric hg → numeric ag → hg = NaN ∨ ag = NaN →
  row_result r = Str "draw".
Proof.
  intros Hout Hr Hhg Hag Hh Ha Hnan. unfold aggregate in Hout.
  pose proof (apply_result_elem _ _ _ Hout Hr) as Hres.
  rewrite (result_unknown_score (row r) hg ag Hhg Hag Hh Ha Hnan) in Hres.
  by injection Hres.
Qed.

Lemma unknown_score_is_labelled_a_draw_witness :
  ∃ out r,
    aggregate two_matches_box [] two_matches_fixtures = Ok out
    ∧ out !! 1%nat = Some r
    ∧ row_match_id r = "m2"
    ∧ row_result r = Str "draw".
Proof.
  let v := eval vm_compute in (aggregate two_matches_box [] two_matches_fixtures) in
  match v with
  | Ok (?x :: ?y :: ?rest) => pose (r := y); pose (out := x :: r :: rest)
  end.
  assert (Hout : aggregate two_matches_box [] two_matches_fixtures = Ok out)
    by (vm_compute; reflexivity).
  exists out, r. split_and!; [exact Hout|reflexivity|reflexivity|].
  apply (unknown_score_is_labelled_a_draw _ _ _ out r NaN NaN Hout).
  - by apply (list_elem_of_lookup_2 out 1%nat).
  - reflexivity.
  - reflexivity.
  - exact I.
  - exact I.
  - by left.
Defined.

End AggregatorExtras.
